(** * Neotree FHIR adapter: ingestion pipeline and entity resolution

    A shallow embedding of the change-data-capture poller
    (cdc-service.ts, setup-cdc.sql), the failure ledger, the codec of
    sync-service.ts, the duplicate-detection engine
    (duplicate-detection-service.ts, string-matching.ts) and the merge
    step of missing-data-handler.ts, followed by the properties that
    were checked against them.

    Conventions of the embedding.
    - A JavaScript [number] is an exact rational ([Q]); rounding of
      IEEE doubles is outside the model.
    - A JavaScript [string] is a [string] of 8-bit characters: a
      string of ASCII characters is its own counterpart, and on these
      [toLowerCase] is the lower-casing of JavaScript (the letters
      A-Z).  Outside ASCII the lower-casing of JavaScript follows the
      Unicode mappings and can change the length of a string; the
      statements about the string measures are therefore phrased over
      the lower-cased sequences and their lengths.
    - A [TIMESTAMP] of the database is a number of microseconds; a
      JavaScript [Date] holds whole milliseconds ([Cdc.to_date]).
    - An optional member ([x?: T]) is an [option]; [undefined] and
      [null] are both [None].
    - A rejected promise / thrown exception is the [Throw] branch of
      [result]. *)

From Stdlib Require Import ZArith QArith Qabs List String Ascii Bool Lia.
From Stdlib Require Import Sorting.Sorted Lqa.
Import ListNotations.

Set Implicit Arguments.

Close Scope Q_scope.
Open Scope string_scope.
Open Scope list_scope.
Open Scope nat_scope.

(* ================================================================== *)
(** ** JavaScript helpers *)
(* ================================================================== *)

Module JS.

(** [!s] for a string: only the empty string is falsy. *)
Definition falsy (s : string) : bool :=
  match s with
  | EmptyString => true
  | String _ _ => false
  end.

(** [v || null] for [v : string | undefined]: an absent value and the
    empty string both give [null]. *)
Definition or_null (v : option string) : option string :=
  match v with
  | Some s => if falsy s then None else Some s
  | None => None
  end.

(** [!v] for [v : string | undefined]. *)
Definition missing (v : option string) : bool :=
  match v with
  | Some s => falsy s
  | None => true
  end.

Definition lower_ascii (c : ascii) : ascii :=
  let n := nat_of_ascii c in
  if (65 <=? n)%nat && (n <=? 90)%nat then ascii_of_nat (n + 32) else c.

Definition chars (s : string) : list ascii := list_ascii_of_string s.

(** [s.toLowerCase()], as the sequence of its characters: the
    lower-casing of JavaScript on ASCII strings. *)
Definition toLowerCase (s : string) : list ascii :=
  map lower_ascii (chars s).

Definition num (n : nat) : Q := inject_Z (Z.of_nat n).

Definition Qlt_bool (a b : Q) : bool := negb (Qle_bool b a).

(** [a >= b] on numbers. *)
Definition Qge_bool (a b : Q) : bool := Qle_bool b a.

Definition Qgt_bool (a b : Q) : bool := negb (Qle_bool a b).

End JS.

(* ================================================================== *)
(** ** string-matching.ts *)
(* ================================================================== *)

Module StringMatching.
Import JS.

(** *** Levenshtein distance

    The source fills a (len1+1) x (len2+1) matrix row by row.  Here a
    row is a list; [lev_row] computes row [i] from row [i-1] ([prev],
    whose head is the diagonal neighbour) and the value to the left. *)

Fixpoint lev_row (c1 : ascii) (s2 : list ascii) (prev : list nat)
         (left : nat) : list nat :=
  match s2, prev with
  | c2 :: s2', diag :: ((up :: _) as prev') =>
      let cost := if Ascii.eqb c1 c2 then 0 else 1 in
      let v := Nat.min (Nat.min (up + 1) (left + 1)) (diag + cost) in
      v :: lev_row c1 s2' prev' v
  | _, _ => []
  end.

Fixpoint lev_rows (s1 s2 : list ascii) (i : nat) (prev : list nat)
  : list nat :=
  match s1 with
  | [] => prev
  | c1 :: s1' => lev_rows s1' s2 (S i) (S i :: lev_row c1 s2 prev (S i))
  end.

Definition levenshteinDistance (str1 str2 : string) : nat :=
  if falsy str1 || falsy str2
  then Nat.max (String.length str1) (String.length str2)
  else
    let s1 := toLowerCase str1 in
    let s2 := toLowerCase str2 in
    last (lev_rows s1 s2 0 (seq 0 (S (List.length s2)))) 0.

(** *** Jaro similarity *)

(** The inner loop [for (j = start; j < end; j++)]: the first index
    [j] of the window whose character equals [c] and which is not
    yet matched gets its flag set; [None] when the loop ends without
    a [break]. *)
Fixpoint scan_window (c : ascii) (s2 : list ascii) (s2Matches : list bool)
         (j start stop : Z) : option (list bool) :=
  match s2, s2Matches with
  | c2 :: s2', m :: ms =>
      if (start <=? j)%Z && (j <? stop)%Z && negb m && Ascii.eqb c c2
      then Some (true :: ms)
      else option_map (cons m) (scan_window c s2' ms (j + 1) start stop)
  | _, _ => None
  end.

(** The outer loop over [i]; returns [s1Matches], [s2Matches] and
    [matches]. *)
Fixpoint match_loop (s1 : list ascii) (i : Z) (matchWindow : Z)
         (s2 : list ascii) (len2 : Z) (s2Matches : list bool)
  : list bool * list bool * nat :=
  match s1 with
  | [] => ([], s2Matches, 0)
  | c :: s1' =>
      let start := Z.max 0 (i - matchWindow) in
      let stop := Z.min (i + matchWindow + 1) len2 in
      match scan_window c s2 s2Matches 0 start stop with
      | Some s2Matches' =>
          let '(m1, m2, n) :=
            match_loop s1' (i + 1) matchWindow s2 len2 s2Matches' in
          (true :: m1, m2, S n)
      | None =>
          let '(m1, m2, n) :=
            match_loop s1' (i + 1) matchWindow s2 len2 s2Matches in
          (false :: m1, m2, n)
      end
  end.

(** [while (!s2Matches[k]) k++] on the part of [s2] from index [k]
    on: the character at the first matched index and what follows
    it.  Past the end of the array the test [!undefined] stays true
    and the loop never exits: [None]. *)
Fixpoint skip_unmatched (rest : list (ascii * bool))
  : option (ascii * list (ascii * bool)) :=
  match rest with
  | [] => None
  | (c, true) :: rest' => Some (c, rest')
  | (_, false) :: rest' => skip_unmatched rest'
  end.

(** The second loop, counting [transpositions]. *)
Fixpoint count_transpositions (s1 : list (ascii * bool))
         (rest : list (ascii * bool)) : option nat :=
  match s1 with
  | [] => Some 0
  | (_, false) :: s1' => count_transpositions s1' rest
  | (c, true) :: s1' =>
      match skip_unmatched rest with
      | None => None
      | Some (c2, rest') =>
          option_map (fun t => if Ascii.eqb c c2 then t else S t)
                     (count_transpositions s1' rest')
      end
  end.

(** [None] stands for a call that does not return. *)
Definition jaroSimilarity (str1 str2 : string) : option Q :=
  if falsy str1 || falsy str2 then Some 0%Q
  else if String.eqb str1 str2 then Some 1%Q
  else
    let s1 := toLowerCase str1 in
    let s2 := toLowerCase str2 in
    let len1 := List.length s1 in
    let len2 := List.length s2 in
    let matchWindow := (Z.of_nat (Nat.max len1 len2) / 2 - 1)%Z in
    let '(s1Matches, s2Matches, matches) :=
      match_loop s1 0 matchWindow s2 (Z.of_nat len2) (repeat false len2) in
    if (matches =? 0)%nat then Some 0%Q
    else
      match count_transpositions (combine s1 s1Matches)
                                 (combine s2 s2Matches) with
      | None => None
      | Some transpositions =>
          Some ((num matches / num len1 + num matches / num len2
                 + (num matches - num transpositions / 2) / num matches)
                / 3)%Q
      end.

(** *** Jaro-Winkler similarity *)

Definition same_char (a b : option ascii) : bool :=
  match a, b with
  | Some x, Some y => Ascii.eqb x y
  | None, None => true
  | _, _ => false
  end.

(** [for (i = 0; i < maxPrefix; i++) { if (s1[i] === s2[i]) prefix++;
    else break; }], with [remaining = maxPrefix - i]. *)
Fixpoint prefix_loop (s1 s2 : list ascii) (i remaining prefix : nat) : nat :=
  match remaining with
  | O => prefix
  | S remaining' =>
      if same_char (nth_error s1 i) (nth_error s2 i)
      then prefix_loop s1 s2 (S i) remaining' (S prefix)
      else prefix
  end.

Definition winkler_prefix (str1 str2 : string) : nat :=
  let s1 := toLowerCase str1 in
  let s2 := toLowerCase str2 in
  let maxPrefix := Nat.min 4 (Nat.min (List.length s1) (List.length s2)) in
  prefix_loop s1 s2 0 maxPrefix 0.

Definition jaroWinklerSimilarity (str1 str2 : string) : option Q :=
  match jaroSimilarity str1 str2 with
  | None => None
  | Some jaro =>
      if Qlt_bool jaro 0.7%Q then Some jaro
      else Some (jaro + num (winkler_prefix str1 str2) * 0.1 * (1 - jaro))%Q
  end.

End StringMatching.

(* ================================================================== *)
(** ** fhir.types.ts and decision-rules.types.ts *)
(* ================================================================== *)

Module Fhir.

Record Identifier := {
  id_use : option string;
  id_system : option string;
  id_value : option string
}.

Record HumanName := {
  name_use : option string;
  name_text : option string;
  family : option string;
  given : option (list string)
}.

(** The members of [FHIRPatient] that the services below read or
    write; the remaining optional members are carried along by the
    object spread of [mergePatientData] and never inspected. *)
Record FHIRPatient := {
  resourceType : string;
  id : option string;
  identifier : option (list Identifier);
  active : option bool;
  name : option (list HumanName);
  gender : option string;
  birthDate : option string
}.

(** An entry of a bundle ([BundleEntry]).  Its [resource] is
    optional; a resource of another type than Patient is a record
    with another [resourceType]. *)
Record BundleEntry := {
  resource : option FHIRPatient
}.

Record FHIRBundle := {
  entry : option (list BundleEntry)
}.

End Fhir.

Module Rules.

(** The three declared values of each union type, and any other
    string the unvalidated JSON configuration may hold (the [default:]
    branches of the switches). *)
Inductive MatchAlgorithm :=
| exact
| levenshtein
| jaro_winkler
| other_algorithm (label : string).

Inductive NullHandling :=
| conservative
| moderate
| greedy
| other_handling (label : string).

Inductive MatchingType := deterministic | probabilistic.

Record FieldRule := {
  algorithm : MatchAlgorithm;
  threshold : option Q;
  fhirpath : string;
  weight : Q;
  null_handling : NullHandling;
  null_handling_both : NullHandling;
  espath : string;
  description : string
}.

(** [fields: Record<string, FieldRule>]: the members in insertion
    order, which is the order of [Object.entries]. *)
Record MatchingRule := {
  matchingType : MatchingType;
  rule_description : string;
  fields : list (string * FieldRule);
  autoMatchThreshold : Q;
  potentialMatchThreshold : Q
}.

Inductive MatchLevel := auto_match | potential_match | no_match.

(** [MatchScore]; the free-text member [details] (a log message
    built from [matchingType] and the printed score) is left out. *)
Record MatchScore := {
  totalScore : Q;
  fieldScores : list (string * Q);
  matchLevel : MatchLevel
}.

Definition MatchLevel_eqb (a b : MatchLevel) : bool :=
  match a, b with
  | auto_match, auto_match => true
  | potential_match, potential_match => true
  | no_match, no_match => true
  | _, _ => false
  end.

End Rules.

(* ================================================================== *)
(** ** duplicate-detection-service.ts *)
(* ================================================================== *)

Module DuplicateDetection.
Import JS Fhir Rules StringMatching.

(** [arr?.find(i => i.system === sys)] *)
Definition find_system (sys : string) (ids : option (list Identifier))
  : option Identifier :=
  match ids with
  | None => None
  | Some l =>
      find (fun i => match id_system i with
                     | Some s => String.eqb s sys
                     | None => false
                     end) l
  end.

(** [patient.name?.[patient.name.length - 1]] *)
Definition last_name (p : FHIRPatient) : option HumanName :=
  match name p with
  | None => None
  | Some l => nth_error l (List.length l - 1)
  end.

Definition bind {A B} (o : option A) (f : A -> option B) : option B :=
  match o with
  | Some a => f a
  | None => None
  end.

(** The operand to the left of [|| null] in each case of
    [extractFieldValue]. *)
Definition rawFieldValue (patient : FHIRPatient) (fieldRule : FieldRule)
  : option string :=
  let path := espath fieldRule in
  if String.eqb path "identifier.neotreeId" then
    bind (find_system "urn:neotree:impilo-id" (identifier patient)) id_value
  else if String.eqb path "identifier.patientId" then
    bind (find_system "urn:impilo:uid" (identifier patient)) id_value
  else if String.eqb path "birthDate" then birthDate patient
  else if String.eqb path "family" then bind (last_name patient) family
  else if String.eqb path "given" then
    bind (bind (last_name patient) given) (fun g => nth_error g 0)
  else if String.eqb path "gender" then gender patient
  else None.

Definition extractFieldValue (patient : FHIRPatient) (fieldRule : FieldRule)
  : option string :=
  or_null (rawFieldValue patient fieldRule).

Definition getNullScore (handling : NullHandling) (w : Q) : Q :=
  match handling with
  | conservative => 0
  | moderate => w * 0.5
  | greedy => w
  | other_handling _ => 0
  end%Q.

Definition handleBothNull (fieldRule : FieldRule) : Q :=
  getNullScore (null_handling_both fieldRule) (weight fieldRule).

Definition handleOneNull (fieldRule : FieldRule) : Q :=
  getNullScore (null_handling fieldRule) (weight fieldRule).

(** [fieldRule.threshold || dflt]: an absent or zero threshold gives
    the default. *)
Definition threshold_or (fieldRule : FieldRule) (dflt : Q) : Q :=
  match threshold fieldRule with
  | Some t => if Qeq_bool t 0 then dflt else t
  | None => dflt
  end.

(** The [switch (fieldRule.algorithm)] of [compareFields], reached
    with two non-null values.  A Jaro-Winkler call that does not
    return leaves the comparison without a result. *)
Definition compareByAlgorithm (value1 value2 : string) (fieldRule : FieldRule)
  : option Q :=
  match algorithm fieldRule with
  | exact =>
      Some (if String.eqb value1 value2 then weight fieldRule else 0%Q)
  | levenshtein =>
      let distance := levenshteinDistance value1 value2 in
      let threshold := threshold_or fieldRule 2 in
      Some (if Qle_bool (num distance) threshold
            then weight fieldRule else 0%Q)
  | jaro_winkler =>
      match jaroWinklerSimilarity value1 value2 with
      | None => None
      | Some similarity =>
          let threshold := threshold_or fieldRule 0.85 in
          Some (if Qge_bool similarity threshold
                then weight fieldRule else 0%Q)
      end
  | other_algorithm _ => Some 0%Q
  end.

Definition compareFields (value1 value2 : option string)
           (fieldRule : FieldRule) : option Q :=
  match value1, value2 with
  | None, None => Some (handleBothNull fieldRule)
  | None, Some _ | Some _, None => Some (handleOneNull fieldRule)
  | Some v1, Some v2 => compareByAlgorithm v1 v2 fieldRule
  end.

Definition classify (total : Q) (rule : MatchingRule) : MatchLevel :=
  if Qge_bool total (autoMatchThreshold rule) then auto_match
  else if Qge_bool total (potentialMatchThreshold rule) then potential_match
  else no_match.

(** The loop over [Object.entries(rule.fields)], threading
    [fieldScores] and [totalScore].  Assigning [fieldScores[name]]
    appends the member: the names of one object are distinct. *)
Fixpoint score_fields (patient1 patient2 : FHIRPatient)
         (entries : list (string * FieldRule))
         (fieldScores : list (string * Q)) (total : Q)
  : option (list (string * Q) * Q) :=
  match entries with
  | [] => Some (fieldScores, total)
  | (fieldName, fieldRule) :: rest =>
      let value1 := extractFieldValue patient1 fieldRule in
      let value2 := extractFieldValue patient2 fieldRule in
      match compareFields value1 value2 fieldRule with
      | None => None
      | Some score =>
          score_fields patient1 patient2 rest
                       (fieldScores ++ [(fieldName, score)])
                       (total + score)%Q
      end
  end.

Definition calculateMatchScore (patient1 patient2 : FHIRPatient)
           (rule : MatchingRule) : option MatchScore :=
  match score_fields patient1 patient2 (fields rule) [] 0%Q with
  | None => None
  | Some (fieldScores, total) =>
      Some {| totalScore := total;
              fieldScores := fieldScores;
              matchLevel := classify total rule |}
  end.

Definition initialBestScore : MatchScore :=
  {| totalScore := 0; fieldScores := []; matchLevel := no_match |}.

Fixpoint best_over (patient1 patient2 : FHIRPatient)
         (rules : list MatchingRule) (bestScore : MatchScore)
  : option MatchScore :=
  match rules with
  | [] => Some bestScore
  | rule :: rest =>
      match calculateMatchScore patient1 patient2 rule with
      | None => None
      | Some score =>
          best_over patient1 patient2 rest
                    (if Qgt_bool (totalScore score) (totalScore bestScore)
                     then score else bestScore)
      end
  end.

Definition calculateBestMatchScore (rules : list MatchingRule)
           (patient1 patient2 : FHIRPatient) : option MatchScore :=
  best_over patient1 patient2 rules initialBestScore.

(** [Array.prototype.sort] with the comparator
    [b.score.totalScore - a.score.totalScore]: a stable sort,
    descending in [totalScore]. *)
Fixpoint insert_desc (x : FHIRPatient * MatchScore)
         (l : list (FHIRPatient * MatchScore))
  : list (FHIRPatient * MatchScore) :=
  match l with
  | [] => [x]
  | y :: l' =>
      if Qgt_bool (totalScore (snd x)) (totalScore (snd y))
      then x :: l
      else y :: insert_desc x l'
  end.

Definition sort_desc (l : list (FHIRPatient * MatchScore))
  : list (FHIRPatient * MatchScore) :=
  fold_left (fun acc x => insert_desc x acc) l [].

Fixpoint collect_matches (rules : list MatchingRule) (patient : FHIRPatient)
         (candidates : list FHIRPatient)
  : option (list (FHIRPatient * MatchScore)) :=
  match candidates with
  | [] => Some []
  | candidate :: rest =>
      match calculateBestMatchScore rules patient candidate with
      | None => None
      | Some bestScore =>
          match collect_matches rules patient rest with
          | None => None
          | Some matches =>
              Some (if MatchLevel_eqb (matchLevel bestScore) no_match
                    then matches
                    else (candidate, bestScore) :: matches)
          end
      end
  end.

(** [searchResults.entry.map((entry) => entry.resource)], as far as
    the filter that follows gets: it reads [p.resourceType] of every
    element and throws a [TypeError] at an element that is
    [undefined].  [None] stands for that. *)
Fixpoint resources (entries : list BundleEntry)
  : option (list FHIRPatient) :=
  match entries with
  | [] => Some []
  | e :: rest =>
      match resource e, resources rest with
      | Some p, Some ps => Some (p :: ps)
      | _, _ => None
      end
  end.

(** What a call of [findPotentialDuplicates] ends in: the list it
    returns, or the [TypeError] of reading [resourceType] of an entry
    without a resource. *)
Inductive Search :=
| Found (matches : list (FHIRPatient * MatchScore))
| TypeError.

(** [None] stands for a call that does not return. *)
Definition findPotentialDuplicates (rules : list MatchingRule)
           (patient : FHIRPatient) (searchResults : FHIRBundle)
  : option Search :=
  match entry searchResults with
  | None => Some (Found [])
  | Some [] => Some (Found [])
  | Some entries =>
      match resources entries with
      | None => Some TypeError
      | Some all =>
          let candidates :=
            filter (fun p => String.eqb (resourceType p) "Patient") all in
          option_map (fun matches => Found (sort_desc matches))
                     (collect_matches rules patient candidates)
      end
  end.

End DuplicateDetection.

(* ================================================================== *)
(** ** missing-data-handler.ts and the merge step of adapter-service.ts *)
(* ================================================================== *)

Module MissingData.
Import JS Fhir Rules.

Definition set_identifier (p : FHIRPatient) (v : option (list Identifier))
  : FHIRPatient :=
  {| resourceType := resourceType p; id := id p; identifier := v;
     active := active p; name := name p; gender := gender p;
     birthDate := birthDate p |}.

Definition set_birthDate (p : FHIRPatient) (v : option string) : FHIRPatient :=
  {| resourceType := resourceType p; id := id p;
     identifier := identifier p; active := active p; name := name p;
     gender := gender p; birthDate := v |}.

Definition set_gender (p : FHIRPatient) (v : option string) : FHIRPatient :=
  {| resourceType := resourceType p; id := id p;
     identifier := identifier p; active := active p; name := name p;
     gender := v; birthDate := birthDate p |}.

Definition set_name (p : FHIRPatient) (v : option (list HumanName))
  : FHIRPatient :=
  {| resourceType := resourceType p; id := id p;
     identifier := identifier p; active := active p; name := v;
     gender := gender p; birthDate := birthDate p |}.

Definition set_id (p : FHIRPatient) (v : option string) : FHIRPatient :=
  {| resourceType := resourceType p; id := v;
     identifier := identifier p; active := active p; name := name p;
     gender := gender p; birthDate := birthDate p |}.

(** [!l || l.length === 0] *)
Definition no_items {A} (l : option (list A)) : bool :=
  match l with
  | None | Some [] => true
  | Some (_ :: _) => false
  end.

(** [!merged.name || merged.name.length === 0 || !merged.name[0].family] *)
Definition name_incomplete (l : option (list HumanName)) : bool :=
  match l with
  | None | Some [] => true
  | Some (first :: _) => missing (family first)
  end.

Definition mergePatientData (newPatient existingPatient : FHIRPatient)
  : FHIRPatient :=
  let merged := newPatient in
  (* Merge identifiers *)
  let merged :=
    if no_items (identifier merged)
    then set_identifier merged (identifier existingPatient)
    else merged in
  (* Merge birthDate *)
  let merged :=
    if missing (birthDate merged) && negb (missing (birthDate existingPatient))
    then set_birthDate merged (birthDate existingPatient)
    else merged in
  (* Merge gender *)
  let merged :=
    if missing (gender merged) && negb (missing (gender existingPatient))
    then set_gender merged (gender existingPatient)
    else merged in
  (* Merge name *)
  let merged :=
    if name_incomplete (name merged)
    then if negb (no_items (name existingPatient))
         then set_name merged (name existingPatient)
         else merged
    else merged in
  merged.

(** The branch of [AdapterService.processEntry] that consumes the
    result of [findPotentialDuplicates]: the patient that is sent
    on, and [isUpdate]. *)
Definition resolveDuplicates (patient : FHIRPatient)
           (duplicates : list (FHIRPatient * MatchScore))
  : FHIRPatient * bool :=
  match duplicates with
  | [] => (patient, false)
  | (matched, score) :: _ =>
      match matchLevel score with
      | auto_match =>
          (set_id (mergePatientData patient matched) (id matched), true)
      | potential_match => (patient, false)
      | no_match => (patient, false)
      end
  end.

End MissingData.

(* ================================================================== *)
(** ** JSON values ([Record<string, unknown>], JSONB columns) *)
(* ================================================================== *)

Module Json.

Local Unset Elimination Schemes.

(** Numbers are restricted to integers. *)
Inductive json :=
| JNull
| JBool (b : bool)
| JNumber (n : Z)
| JString (s : string)
| JArray (items : list json)
| JObject (members : list (string * json)).

Local Set Elimination Schemes.

(** [!v] *)
Definition falsy (v : json) : bool :=
  match v with
  | JNull => true
  | JBool b => negb b
  | JNumber n => (n =? 0)%Z
  | JString s => JS.falsy s
  | JArray _ | JObject _ => false
  end.

(** [typeof v === 'object'] *)
Definition is_object (v : json) : bool :=
  match v with
  | JNull | JArray _ | JObject _ => true
  | JBool _ | JNumber _ | JString _ => false
  end.

Fixpoint lookup (k : string) (members : list (string * json))
  : option json :=
  match members with
  | [] => None
  | (k', v) :: rest => if String.eqb k k' then Some v else lookup k rest
  end.

(** [obj[k] = v]: an existing member keeps its place, a new one is
    added last. *)
Fixpoint assign (k : string) (v : json) (members : list (string * json))
  : list (string * json) :=
  match members with
  | [] => [(k, v)]
  | (k', v') :: rest =>
      if String.eqb k k' then (k, v) :: rest
      else (k', v') :: assign k v rest
  end.

Definition quote : ascii := ascii_of_nat 34.
Definition backslash : ascii := ascii_of_nat 92.

Definition hex_digit (n : nat) : ascii :=
  if (n <? 10)%nat then ascii_of_nat (48 + n) else ascii_of_nat (87 + n).

(** The escapes of [JSON.stringify] for one character. *)
Definition escape_char (c : ascii) : list ascii :=
  let n := nat_of_ascii c in
  if (n =? 34)%nat then [backslash; quote]
  else if (n =? 92)%nat then [backslash; backslash]
  else if (n =? 8)%nat then [backslash; "b"%char]
  else if (n =? 12)%nat then [backslash; "f"%char]
  else if (n =? 10)%nat then [backslash; "n"%char]
  else if (n =? 13)%nat then [backslash; "r"%char]
  else if (n =? 9)%nat then [backslash; "t"%char]
  else if (n <? 32)%nat then
    [backslash; "u"%char; "0"%char; "0"%char;
     hex_digit (n / 16); hex_digit (n mod 16)]
  else [c].

Definition quoted (s : string) : list ascii :=
  quote :: flat_map escape_char (JS.chars s) ++ [quote].

Fixpoint digits (fuel : nat) (n : N) (acc : list ascii) : list ascii :=
  match fuel with
  | O => acc
  | S fuel' =>
      let acc' := ascii_of_N (48 + n mod 10) :: acc in
      if (n / 10 =? 0)%N then acc' else digits fuel' (n / 10)%N acc'
  end.

Definition decimal (z : Z) : list ascii :=
  let n := Z.abs_N z in
  (if (z <? 0)%Z then ["-"%char] else []) ++ digits (S (N.size_nat n)) n [].

Definition comma_join (parts : list (list ascii)) : list ascii :=
  match parts with
  | [] => []
  | p :: ps => p ++ flat_map (fun q => ","%char :: q) ps
  end.

Fixpoint stringify_chars (v : json) : list ascii :=
  match v with
  | JNull => JS.chars "null"
  | JBool true => JS.chars "true"
  | JBool false => JS.chars "false"
  | JNumber n => decimal n
  | JString s => quoted s
  | JArray items =>
      "["%char :: comma_join (map stringify_chars items) ++ ["]"%char]
  | JObject members =>
      "{"%char
        :: comma_join
             (map (fun kv => quoted (fst kv) ++ ":"%char
                                    :: stringify_chars (snd kv))
                  members)
        ++ ["}"%char]
  end.

(** [JSON.stringify(v)] *)
Definition stringify (v : json) : string :=
  string_of_list_ascii (stringify_chars v).

End Json.

(* ================================================================== *)
(** ** sync-service.ts: the codec *)
(* ================================================================== *)

Module Codec.
Import JS.

Definition alphabet : list ascii :=
  chars "ABCDEFGHIJKLMNOPQRSTUVWXYZabcdefghijklmnopqrstuvwxyz0123456789+/".

Definition pad : ascii := "="%char.

Definition b64_digit (n : N) : ascii := nth (N.to_nat n) alphabet pad.

(** [buffer.toString('base64')] *)
Fixpoint base64 (bytes : list ascii) : list ascii :=
  match bytes with
  | [] => []
  | [a] =>
      let n := N_of_ascii a in
      [b64_digit (n / 4); b64_digit (n mod 4 * 16); pad; pad]%N
  | [a; b] =>
      let n := (N_of_ascii a * 256 + N_of_ascii b)%N in
      [b64_digit (n / 1024); b64_digit (n / 16 mod 64);
       b64_digit (n mod 16 * 4); pad]%N
  | a :: b :: c :: rest =>
      let n := (N_of_ascii a * 65536 + N_of_ascii b * 256
                + N_of_ascii c)%N in
      b64_digit (n / 262144)%N :: b64_digit (n / 4096 mod 64)%N
        :: b64_digit (n / 64 mod 64)%N :: b64_digit (n mod 64)%N
        :: base64 rest
  end.

Record EncryptedData := {
  encryptedValue : string;
  iv : string;
  format : string
}.

Section WithCipher.

(** AES-256-CBC of Node's [crypto] module ([createCipheriv],
    [update], [final]): key, initialisation vector and plaintext
    bytes to ciphertext bytes. *)
Variable aes_256_cbc : list ascii -> list ascii -> list ascii -> list ascii.

(** [encryptData(plaintext)] with the key of the class and the
    bytes [ivBytes] drawn by [crypto.randomBytes(16)]. *)
Definition encryptData (encryptionKey ivBytes : list ascii)
           (plaintext : string) : EncryptedData :=
  let encrypted := aes_256_cbc encryptionKey ivBytes (chars plaintext) in
  let ivB64 := base64 ivBytes in
  let encryptedB64 := base64 encrypted in
  {| encryptedValue :=
       string_of_list_ascii (ivB64 ++ ":"%char :: encryptedB64);
     iv := string_of_list_ascii ivB64;
     format := "iv:encrypted" |}.

End WithCipher.

(** A value in the format [base64(iv):base64(encrypted_data)]. *)
Definition iv_cipher_format (s : string) : Prop :=
  exists ivBytes encrypted : list ascii,
    chars s = base64 ivBytes ++ ":"%char :: base64 encrypted.

End Codec.

(* ================================================================== *)
(** ** setup-cdc.sql and cdc-service.ts *)
(* ================================================================== *)

Module Cdc.
Import Json.

(** *** Tables.  A [TIMESTAMP] is a number of microseconds, the
    resolution of PostgreSQL. *)

(** Whether a text is the canonical form of a [UUID], which is how
    the driver delivers a [UUID] column and what such a column takes:
    32 lower-case hexadecimal digits in groups of 8, 4, 4, 4 and
    12. *)
Definition is_hex (c : ascii) : bool :=
  let n := nat_of_ascii c in
  ((48 <=? n)%nat && (n <=? 57)%nat) || ((97 <=? n)%nat && (n <=? 102)%nat).

Definition is_uuid (s : string) : bool :=
  let cs := JS.chars s in
  (List.length cs =? 36)%nat
  && forallb (fun ic =>
                if existsb (Nat.eqb (fst ic)) [8; 13; 18; 23]
                then Ascii.eqb (snd ic) "-"%char
                else is_hex (snd ic))
             (combine (seq 0 36) cs).

(** A row of the source table (written by the Neotree system);
    [s_impilo_uid] is a [UUID] column. *)
Record Session := {
  s_id : Z;
  s_ingested_at : Z;
  s_time : Z;
  s_impilo_uid : option string;
  s_data : json
}.

Record WatermarkRow := {
  table_name : string;
  last_ingested_at : Z;
  last_processed_id : option Z;
  records_processed : Z;
  last_error : option string;
  updated_at : Z
}.

Record FailedRow := {
  f_id : Z;
  f_session_id : Z;
  f_ingested_at : Z;
  f_attempt_count : Z;
  f_last_error : option string;
  f_last_attempt_at : option Z;
  f_created_at : Z;
  f_impilo_uid : option string;
  f_impilo_id : option string;
  f_data : string;
  f_synced : bool
}.

(** The tables owned by the adapter, and the sequence behind
    [cdc_failed_records.id SERIAL]. *)
Record Database := {
  cdc_watermark : list WatermarkRow;
  cdc_failed_records : list FailedRow;
  cdc_failed_records_id_seq : Z
}.

(** The state after the [CREATE TABLE] statements and the initial
    [INSERT INTO cdc_watermark]. *)
Definition setup (source_table : string) (watermark_start : Z) : Database :=
  {| cdc_watermark :=
       [{| table_name := source_table;
           last_ingested_at := watermark_start;
           last_processed_id := None;
           records_processed := 0;
           last_error := None;
           updated_at := 0 |}];
     cdc_failed_records := [];
     cdc_failed_records_id_seq := 1 |}.

Inductive result (A : Type) :=
| Ok (value : A)
| Throw (message : string).
Arguments Ok {A} value.
Arguments Throw {A} message.

(** A row of [get_new_sessions] as the service holds it
    ([CDCRecord]): [ingested_at] and [time] are [Date]s; [impilo_id]
    is declared by the interface but is not among the columns the
    function returns. *)
Record CDCRecord := {
  id : Z;
  ingested_at : Z;
  time : Z;
  impilo_uid : option string;
  impilo_id : option string;
  data : json
}.

(** *** SQL functions *)

(** [ORDER BY s.ingested_at ASC, s.id ASC] *)
Definition session_leb (a b : Session) : bool :=
  (s_ingested_at a <? s_ingested_at b)%Z
  || ((s_ingested_at a =? s_ingested_at b)%Z && (s_id a <=? s_id b)%Z).

Fixpoint insert_session (x : Session) (l : list Session) : list Session :=
  match l with
  | [] => [x]
  | y :: l' => if session_leb x y then x :: l else y :: insert_session x l'
  end.

Fixpoint order_sessions (l : list Session) : list Session :=
  match l with
  | [] => []
  | x :: l' => insert_session x (order_sessions l')
  end.

(** [get_new_sessions(batch_size)]: the rows of its result table,
    which has the columns of [Session].  [source] gives the rows of
    the table of a given name, when there is one.  The watermark is
    the first row of [cdc_watermark]. *)
Definition get_new_sessions (source : string -> option (list Session))
           (db : Database) (batch_size : nat) : result (list Session) :=
  match cdc_watermark db with
  | [] => Throw "No watermark found in cdc_watermark table"
  | w :: _ =>
      match source (table_name w) with
      | None => Throw "relation does not exist"
      | Some rows =>
          let fresh :=
            filter (fun s => (last_ingested_at w <? s_ingested_at s)%Z)
                   rows in
          Ok (firstn batch_size (order_sessions fresh))
      end
  end.

(** *** The driver *)

(** The [Date] that node-postgres builds for a [TIMESTAMP]: a [Date]
    counts whole milliseconds, so the microseconds below the
    millisecond are cut off.  The value is kept in microseconds; it
    is also the [TIMESTAMP] the database gets when the [Date] is
    passed back as a statement parameter.  Time zones are not
    represented. *)
Definition to_date (timestamp : Z) : Z := (timestamp / 1000 * 1000)%Z.

(** A result row of [get_new_sessions] as [pool.query<CDCRecord>]
    hands it to the service. *)
Definition to_record (s : Session) : CDCRecord :=
  {| id := s_id s;
     ingested_at := to_date (s_ingested_at s);
     time := to_date (s_time s);
     impilo_uid := s_impilo_uid s;
     impilo_id := None;
     data := s_data s |}.

Definition set_watermarks (db : Database) (rows : list WatermarkRow)
  : Database :=
  {| cdc_watermark := rows;
     cdc_failed_records := cdc_failed_records db;
     cdc_failed_records_id_seq := cdc_failed_records_id_seq db |}.

(** [update_watermark(p_table_name, p_last_ingested_at,
    p_last_processed_id, p_records_count)] at time [now]. *)
Definition update_watermark (p_table_name : string) (p_last_ingested_at : Z)
           (p_last_processed_id : Z) (p_records_count : Z) (now : Z)
           (db : Database) : Database :=
  set_watermarks db
    (map (fun w =>
            if String.eqb (table_name w) p_table_name
            then {| table_name := table_name w;
                    last_ingested_at := p_last_ingested_at;
                    last_processed_id := Some p_last_processed_id;
                    records_processed :=
                      (records_processed w + p_records_count)%Z;
                    last_error := None;
                    updated_at := now |}
            else w)
         (cdc_watermark db)).

(** [reset_watermark(p_table_name, p_timestamp)] *)
Definition reset_watermark (p_table_name : string) (p_timestamp : Z)
           (now : Z) (db : Database) : Database :=
  set_watermarks db
    (map (fun w =>
            if String.eqb (table_name w) p_table_name
            then {| table_name := table_name w;
                    last_ingested_at := p_timestamp;
                    last_processed_id := None;
                    records_processed := records_processed w;
                    last_error := last_error w;
                    updated_at := now |}
            else w)
         (cdc_watermark db)).

Definition has_session (session_id : Z) (rows : list FailedRow) : bool :=
  existsb (fun f => (f_session_id f =? session_id)%Z) rows.

(** [INSERT ... ON CONFLICT (session_id) DO UPDATE SET ...]: when a
    row with the session id exists, [on_conflict] is applied to it;
    otherwise the proposed row is added.  The sequence value of the
    proposed row is drawn in both cases. *)
Definition upsert (proposed : FailedRow)
           (on_conflict : FailedRow -> FailedRow) (db : Database)
  : Database :=
  let rows := cdc_failed_records db in
  {| cdc_watermark := cdc_watermark db;
     cdc_failed_records :=
       if has_session (f_session_id proposed) rows
       then map (fun f =>
                   if (f_session_id f =? f_session_id proposed)%Z
                   then on_conflict f else f)
                rows
       else rows ++ [proposed];
     cdc_failed_records_id_seq := (cdc_failed_records_id_seq db + 1)%Z |}.

(** The statement issued by [CDCService.recordFailure]. *)
Definition insert_failed_record (session_id : Z) (p_ingested_at : Z)
           (p_last_error : string) (p_data : string)
           (p_impilo_uid p_impilo_id : option string) (now : Z)
           (db : Database) : Database :=
  upsert
    {| f_id := cdc_failed_records_id_seq db;
       f_session_id := session_id;
       f_ingested_at := p_ingested_at;
       f_attempt_count := 1;
       f_last_error := Some p_last_error;
       f_last_attempt_at := Some now;
       f_created_at := now;
       f_impilo_uid := p_impilo_uid;
       f_impilo_id := p_impilo_id;
       f_data := p_data;
       f_synced := false |}
    (fun f =>
       {| f_id := f_id f;
          f_session_id := f_session_id f;
          f_ingested_at := f_ingested_at f;
          f_attempt_count := (f_attempt_count f + 1)%Z;
          f_last_error := Some p_last_error;
          f_last_attempt_at := Some now;
          f_created_at := f_created_at f;
          f_impilo_uid := f_impilo_uid f;
          f_impilo_id := f_impilo_id f;
          f_data := f_data f;
          f_synced := f_synced f |})
    db.

(** [record_failed_session(p_session_id, p_ingested_at, p_error,
    p_impilo_id, p_data, p_synced)] *)
Definition record_failed_session (p_session_id : Z) (p_ingested_at : Z)
           (p_error : option string) (p_impilo_id : option string)
           (p_data : string) (p_synced : bool) (now : Z) (db : Database)
  : Database :=
  upsert
    {| f_id := cdc_failed_records_id_seq db;
       f_session_id := p_session_id;
       f_ingested_at := p_ingested_at;
       f_attempt_count := 1;
       f_last_error := p_error;
       f_last_attempt_at := Some now;
       f_created_at := now;
       f_impilo_uid := None;
       f_impilo_id := p_impilo_id;
       f_data := p_data;
       f_synced := p_synced |}
    (fun f =>
       {| f_id := f_id f;
          f_session_id := f_session_id f;
          f_ingested_at := f_ingested_at f;
          f_attempt_count := (f_attempt_count f + 1)%Z;
          f_last_error := p_error;
          f_last_attempt_at := Some now;
          f_created_at := f_created_at f;
          f_impilo_uid := f_impilo_uid f;
          f_impilo_id := f_impilo_id f;
          f_data := f_data f;
          f_synced := p_synced |})
    db.

Definition set_failed (db : Database) (rows : list FailedRow) : Database :=
  {| cdc_watermark := cdc_watermark db;
     cdc_failed_records := rows;
     cdc_failed_records_id_seq := cdc_failed_records_id_seq db |}.

(** [remove_failed_session(p_id)] *)
Definition remove_failed_session (p_id : Z) (db : Database) : Database :=
  set_failed db
    (filter (fun f => negb (f_id f =? p_id)%Z) (cdc_failed_records db)).

(** [update_failed_session_retry(p_id, p_error, p_synced)] *)
Definition update_failed_session_retry (p_id : Z) (p_error : option string)
           (p_synced : bool) (now : Z) (db : Database) : Database :=
  set_failed db
    (map (fun f =>
            if (f_id f =? p_id)%Z
            then {| f_id := f_id f;
                    f_session_id := f_session_id f;
                    f_ingested_at := f_ingested_at f;
                    f_attempt_count := (f_attempt_count f + 1)%Z;
                    f_last_error := p_error;
                    f_last_attempt_at := Some now;
                    f_created_at := f_created_at f;
                    f_impilo_uid := f_impilo_uid f;
                    f_impilo_id := f_impilo_id f;
                    f_data := f_data f;
                    f_synced := p_synced |}
            else f)
         (cdc_failed_records db)).

(** The [UPDATE cdc_failed_records SET impilo_id = $1, synced = true,
    last_error = NULL WHERE id = $2] of
    [AdapterService.processSyncedEntry]. *)
Definition mark_synced (hashedImpiloId : string) (p_id : Z) (db : Database)
  : Database :=
  set_failed db
    (map (fun f =>
            if (f_id f =? p_id)%Z
            then {| f_id := f_id f;
                    f_session_id := f_session_id f;
                    f_ingested_at := f_ingested_at f;
                    f_attempt_count := f_attempt_count f;
                    f_last_error := None;
                    f_last_attempt_at := f_last_attempt_at f;
                    f_created_at := f_created_at f;
                    f_impilo_uid := f_impilo_uid f;
                    f_impilo_id := Some hashedImpiloId;
                    f_data := f_data f;
                    f_synced := true |}
            else f)
         (cdc_failed_records db)).

(** Every statement that writes [cdc_failed_records]. *)
Inductive LedgerWrite :=
| WInsertFailed (session_id p_ingested_at : Z) (p_last_error p_data : string)
                (p_impilo_uid p_impilo_id : option string)
| WRecordFailedSession (p_session_id p_ingested_at : Z)
                       (p_error p_impilo_id : option string)
                       (p_data : string) (p_synced : bool)
| WRemove (p_id : Z)
| WUpdateRetry (p_id : Z) (p_error : option string) (p_synced : bool)
| WMarkSynced (hashedImpiloId : string) (p_id : Z).

Definition ledger_write (now : Z) (w : LedgerWrite) (db : Database)
  : Database :=
  match w with
  | WInsertFailed sid ts err d uid iid =>
      insert_failed_record sid ts err d uid iid now db
  | WRecordFailedSession sid ts err iid d synced =>
      record_failed_session sid ts err iid d synced now db
  | WRemove p_id => remove_failed_session p_id db
  | WUpdateRetry p_id err synced =>
      update_failed_session_retry p_id err synced now db
  | WMarkSynced h p_id => mark_synced h p_id db
  end.

(** A history of ledger writes, each with the time it ran at. *)
Definition ledger_history (writes : list (Z * LedgerWrite)) (db : Database)
  : Database :=
  fold_left (fun d w => ledger_write (fst w) (snd w) d) writes db.

(** *** The service *)

(** [convertToNeotreeEntry(data, impilo_uid)].  The entry is the
    payload object itself, so setting [entry.impilo_uid] changes
    [record.data]: the second component is [data] after the call.
    (On an array the assignment adds a property that is not an
    element; it is not represented.) *)
Definition convertToNeotreeEntry (data : json) (impilo_uid : option string)
  : result json * json :=
  if falsy data || negb (is_object data)
  then (Throw "Invalid session data", data)
  else
    let inner :=
      match data with
      | JObject members =>
          match lookup "data" members with
          | Some JNull | None => None
          | Some v => Some v
          end
      | _ => None
      end in
    let payload := match inner with Some v => v | None => data end in
    if falsy payload || negb (is_object payload)
    then (Throw "Invalid session payload", data)
    else
      match impilo_uid with
      | Some uid =>
          if JS.falsy uid then (Ok payload, data)
          else
            let entry :=
              match payload with
              | JObject members =>
                  JObject (assign "impilo_uid" (JString uid) members)
              | other => other
              end in
            let data' :=
              match inner, data with
              | Some _, JObject members =>
                  JObject (assign "data" entry members)
              | _, _ => entry
              end in
            (Ok entry, data')
      | None => (Ok payload, data)
      end.

(** The statements the service sends through [pool.query]. *)
Inductive Query :=
| SelectNewSessions
| InsertFailedRecord (record : CDCRecord)
| UpdateWatermark.

(** What one poll cycle meets outside the adapter's own tables. *)
Record Env := {
  (** the source tables at the time of the [SELECT] *)
  source : string -> option (list Session);
  (** [adapterService.processEntry(entry)]: [None] when the promise
      resolves, the error message when it rejects *)
  processEntry : json -> option string;
  (** whether [pool.query] rejects for a statement (connection
      lost, statement refused) *)
  rejects : Query -> bool;
  (** [NOW()] when the failure of a record is written *)
  now_at : CDCRecord -> Z;
  (** [NOW()] when the watermark is written *)
  now_end : Z
}.

Record Config := {
  sourceTable : string
}.

Definition batchSize : nat := 100.

Definition with_data (record : CDCRecord) (d : json) : CDCRecord :=
  {| id := id record;
     ingested_at := ingested_at record;
     time := time record;
     impilo_uid := impilo_uid record;
     impilo_id := impilo_id record;
     data := d |}.

(** The [try] block of the loop body of [processBatch]: [None] when
    the record went through, the message of the caught error
    otherwise; and the record as the [catch] block sees it. *)
Definition attempt (env : Env) (record : CDCRecord)
  : option string * CDCRecord :=
  match convertToNeotreeEntry (data record) (impilo_uid record) with
  | (Throw message, d) => (Some message, with_data record d)
  | (Ok entry, d) => (processEntry env entry, with_data record d)
  end.

(** [s || null] *)
Definition or_null := JS.or_null.

(** [recordFailure(record, error)]: a rejected statement is caught
    and logged. *)
Definition recordFailure (env : Env) (record : CDCRecord)
           (errorMessage : string) (db : Database) : Database :=
  if rejects env (InsertFailedRecord record) then db
  else
    insert_failed_record (id record) (time record) errorMessage
                         (stringify (data record))
                         (or_null (impilo_uid record))
                         (or_null (impilo_id record))
                         (now_at env record) db.

(** [updateWatermark(ingestedAt, sessionId, count)]: a rejected
    statement is caught and logged.  [ingestedAt] is the [Date] of
    the last record, so the timestamp stored is in whole
    milliseconds. *)
Definition updateWatermark (cfg : Config) (env : Env) (ingestedAt : Z)
           (sessionId : Z) (count : nat) (db : Database) : Database :=
  if rejects env UpdateWatermark then db
  else update_watermark (sourceTable cfg) ingestedAt sessionId
                        (Z.of_nat count) (now_end env) db.

(** The [for (const record of records)] loop of [processBatch]. *)
Fixpoint process_records (env : Env) (records : list CDCRecord)
         (db : Database) (successCount failureCount : nat)
  : Database * nat * nat :=
  match records with
  | [] => (db, successCount, failureCount)
  | record :: rest =>
      match attempt env record with
      | (None, _) =>
          process_records env rest db (S successCount) failureCount
      | (Some message, record') =>
          process_records env rest (recordFailure env record' message db)
                          successCount (S failureCount)
      end
  end.

(** [processBatch(records)]; also returns the two counters that are
    logged. *)
Definition processBatch (cfg : Config) (env : Env)
           (records : list CDCRecord) (db : Database)
  : Database * nat * nat :=
  let '(db1, successCount, failureCount) :=
    process_records env records db 0 0 in
  match nth_error records (List.length records - 1) with
  | Some lastRecord =>
      (updateWatermark cfg env (ingested_at lastRecord) (id lastRecord)
                       (List.length records) db1,
       successCount, failureCount)
  | None => (db1, successCount, failureCount)
  end.

(** The rows [pool.query('SELECT * FROM get_new_sessions($1)')]
    resolves to. *)
Definition fetch (env : Env) (db : Database) : result (list CDCRecord) :=
  if rejects env SelectNewSessions then Throw "query failed"
  else
    match get_new_sessions (source env) db batchSize with
    | Ok selected => Ok (map to_record selected)
    | Throw message => Throw message
    end.

(** [pollForNewSessions()] for a started service. *)
Definition pollForNewSessions (cfg : Config) (env : Env) (db : Database)
  : Database :=
  match fetch env db with
  | Throw _ => db
  | Ok [] => db
  | Ok rows => fst (fst (processBatch cfg env rows db))
  end.

(** Poll cycles that run one after the other, each to its end
    before the next one starts; one environment per cycle.  (Cycles
    that overlap are in [Interleaving] below.) *)
Definition poll_cycles (cfg : Config) (envs : list Env) (db : Database)
  : Database :=
  fold_left (fun d env => pollForNewSessions cfg env d) envs db.

(** [watermark.lastPosition]: the timestamp and row id of the
    watermark row that [get_new_sessions] reads. *)
Definition lastPosition (db : Database) : option (Z * option Z) :=
  match cdc_watermark db with
  | [] => None
  | w :: _ => Some (last_ingested_at w, last_processed_id w)
  end.

(** Lexicographic order on positions: timestamp, then row id (no
    row id before any row id). *)
Definition position_le (p q : Z * option Z) : Prop :=
  (fst p < fst q)%Z
  \/ (fst p = fst q
      /\ match snd p, snd q with
         | None, _ => True
         | Some a, Some b => (a <= b)%Z
         | Some _, None => False
         end).

Definition position_of (record : CDCRecord) : Z * option Z :=
  (ingested_at record, Some (id record)).

End Cdc.

(* ================================================================== *)
(** ** cdc-service.ts: poll cycles that overlap *)
(* ================================================================== *)

(** [pollForNewSessions] has no guard against a tick that fires
    while an earlier cycle is still in [processBatch].  Here a cycle
    is taken in two steps, its [SELECT] and its [processBatch], and
    the steps of different cycles interleave.  (The statements inside
    one [processBatch] can interleave with other cycles as well;
    that is not represented.) *)
Module Interleaving.
Import Cdc.

Record Running := {
  store : Database;
  (** the batches fetched by cycles that have not yet processed them,
      oldest first *)
  fetched : list (list CDCRecord)
}.

Inductive Step :=
| Select (env : Env)               (* a tick: the cycle's [SELECT] *)
| Process (n : nat) (env : Env).   (* cycle [n] in flight runs [processBatch] *)

Fixpoint without (n : nat) (batches : list (list CDCRecord))
  : list (list CDCRecord) :=
  match n, batches with
  | _, [] => []
  | O, _ :: rest => rest
  | S n', b :: rest => b :: without n' rest
  end.

Definition step (cfg : Config) (r : Running) (e : Step) : Running :=
  match e with
  | Select env =>
      match fetch env (store r) with
      | Ok (row :: rows) =>
          {| store := store r; fetched := fetched r ++ [row :: rows] |}
      | _ => r
      end
  | Process n env =>
      match nth_error (fetched r) n with
      | Some rows =>
          {| store := fst (fst (processBatch cfg env rows (store r)));
             fetched := without n (fetched r) |}
      | None => r
      end
  end.

Definition run (cfg : Config) (steps : list Step) (db : Database)
  : Running :=
  fold_left (step cfg) steps {| store := db; fetched := [] |}.

End Interleaving.

(* ================================================================== *)
(** ** adapter-service.ts: the first check of processEntry *)
(* ================================================================== *)

Module Adapter.
Import Json.

(** [entry[k]]; [None] for a missing member and for anything that is
    not an object. *)
Definition property (k : string) (entry : json) : option json :=
  match entry with
  | JObject members => lookup k members
  | _ => None
  end.

(** [String(v)], which is how a template literal renders [v]. *)
Fixpoint text_of (v : json) : list ascii :=
  match v with
  | JNull => JS.chars "null"
  | JBool true => JS.chars "true"
  | JBool false => JS.chars "false"
  | JNumber n => decimal n
  | JString s => JS.chars s
  | JArray items =>
      comma_join (map (fun item => match item with
                                   | JNull => []
                                   | _ => text_of item
                                   end) items)
  | JObject _ => JS.chars "[object Object]"
  end.

Definition template (v : option json) : string :=
  match v with
  | None => "undefined"
  | Some v' => string_of_list_ascii (text_of v')
  end.

(** [processEntry(entry)] up to its first check: an entry without
    script data is rejected with the message below ([handleError]
    keeps the message).  What happens to an entry with script data
    depends on the mapper, the validation and OpenHIM; it is given by
    [pipeline].  [None] stands for a promise that resolves. *)
Definition processEntry (pipeline : json -> option string) (entry : json)
  : option string :=
  let no_script :=
    match property "script" entry with
    | None => true
    | Some v => falsy v
    end in
  if no_script
  then Some ("Missing script data for entry "
             ++ template (property "uid" entry))%string
  else pipeline entry.

End Adapter.

(* ================================================================== *)
(** ** cdc-service.ts: start, stop and the two cron schedules *)
(* ================================================================== *)

Module Scheduler.

(** The fields of [CDCService] that the schedules read and write,
    and the number of [pollForNewSessions] / [retryFailedSessions]
    calls that have passed their guard and are suspended at an
    [await]. *)
Record Service := {
  isPolling : bool;
  pollTask : bool;      (* [pollTask !== null] *)
  retryTask : bool;     (* [retryTask !== null] *)
  pollsRunning : nat;
  retriesRunning : nat
}.

Definition initial : Service :=
  {| isPolling := false; pollTask := false; retryTask := false;
     pollsRunning := 0; retriesRunning := 0 |}.

(** What the event loop can run next. *)
Inductive Event :=
| CallStart (db_ok : bool)   (* [start()]; [db_ok]: [SELECT 1] resolves *)
| CallStop                   (* [stop()] *)
| PollTick                   (* the 30-second schedule fires *)
| PollSettled                (* a suspended poll cycle runs to its end *)
| RetryTick                  (* the 5-minute schedule fires *)
| RetrySettled.

Definition step (s : Service) (e : Event) : Service :=
  match e with
  | CallStart db_ok =>
      if isPolling s then s
      else if db_ok
           then {| isPolling := true; pollTask := true; retryTask := true;
                   pollsRunning := pollsRunning s;
                   retriesRunning := retriesRunning s |}
           else {| isPolling := true; pollTask := pollTask s;
                   retryTask := retryTask s;
                   pollsRunning := pollsRunning s;
                   retriesRunning := retriesRunning s |}
  | CallStop =>
      {| isPolling := false; pollTask := false; retryTask := false;
         pollsRunning := pollsRunning s;
         retriesRunning := retriesRunning s |}
  | PollTick =>
      (* the callback runs only while the task is scheduled;
         [pollForNewSessions] returns at once unless [isPolling] *)
      if pollTask s && isPolling s
      then {| isPolling := isPolling s; pollTask := pollTask s;
              retryTask := retryTask s;
              pollsRunning := S (pollsRunning s);
              retriesRunning := retriesRunning s |}
      else s
  | PollSettled =>
      {| isPolling := isPolling s; pollTask := pollTask s;
         retryTask := retryTask s;
         pollsRunning := pred (pollsRunning s);
         retriesRunning := retriesRunning s |}
  | RetryTick =>
      if retryTask s && isPolling s
      then {| isPolling := isPolling s; pollTask := pollTask s;
              retryTask := retryTask s;
              pollsRunning := pollsRunning s;
              retriesRunning := S (retriesRunning s) |}
      else s
  | RetrySettled =>
      {| isPolling := isPolling s; pollTask := pollTask s;
         retryTask := retryTask s;
         pollsRunning := pollsRunning s;
         retriesRunning := pred (retriesRunning s) |}
  end.

Definition run (events : list Event) (s : Service) : Service :=
  fold_left step events s.

(** A poll tick starts a cycle when it moves [pollsRunning] up. *)
Definition starts_cycle (s : Service) : bool :=
  (pollsRunning s <? pollsRunning (step s PollTick))%nat.

End Scheduler.

(* ================================================================== *)
(** ** Notions used in the statements *)
(* ================================================================== *)

Module Notions.
Import JS.

Definition count_true (flags : list bool) : nat :=
  List.length (filter (fun b => b) flags).

(** Length of the longest common prefix of two character sequences. *)
Fixpoint common_prefix_length (a b : list ascii) : nat :=
  match a, b with
  | x :: a', y :: b' =>
      if Ascii.eqb x y then S (common_prefix_length a' b') else 0
  | _, _ => 0
  end.

(** The common case-normalised prefix of two strings, capped at 4
    characters. *)
Definition capped_prefix (str1 str2 : string) : nat :=
  Nat.min 4 (common_prefix_length (toLowerCase str1) (toLowerCase str2)).

Definition sumQ (l : list Q) : Q := fold_right Qplus 0%Q l.

(** The Jaro similarity [jaro] with the prefix bonus
    [0.1 * p * (1 - jaro)] added. *)
Definition with_prefix_bonus (jaro : Q) (str1 str2 : string) : Q :=
  (jaro + 0.1 * num (capped_prefix str1 str2) * (1 - jaro))%Q.

(** A member of [fieldScores] holds the name of a configured field
    and the result of [compareFields] on the two extracted values. *)
Definition field_scored (patient1 patient2 : Fhir.FHIRPatient)
           (configured : string * Rules.FieldRule) (scored : string * Q)
  : Prop :=
  fst scored = fst configured
  /\ DuplicateDetection.compareFields
       (DuplicateDetection.extractFieldValue patient1 (snd configured))
       (DuplicateDetection.extractFieldValue patient2 (snd configured))
       (snd configured)
     = Some (snd scored).

(** *** Poller and ledger *)

Import Cdc.

(** The order (timestamp, then row id) on the records of a batch,
    by their [Date]s. *)
Definition record_le (a b : CDCRecord) : Prop :=
  position_le (position_of a) (position_of b).

(** The order of [get_new_sessions] on the rows it returns. *)
Definition session_le (a b : Session) : Prop :=
  position_le (s_ingested_at a, Some (s_id a))
              (s_ingested_at b, Some (s_id b)).

(** The timestamp has no part below the millisecond. *)
Definition whole_ms (timestamp : Z) : Prop := (timestamp mod 1000 = 0)%Z.

(** Every row of every source table was ingested at a whole
    millisecond. *)
Definition whole_ms_source (env : Env) : Prop :=
  forall table rows s,
    source env table = Some rows -> In s rows -> whole_ms (s_ingested_at s).

Definition position_le_opt (p q : option (Z * option Z)) : Prop :=
  match p, q with
  | Some p', Some q' => position_le p' q'
  | None, None => True
  | _, _ => False
  end.

(** The source row is at or before the watermark position. *)
Definition covered (s : Session) (db : Database) : Prop :=
  exists p, lastPosition db = Some p
            /\ position_le (s_ingested_at s, Some (s_id s)) p.

(** The failure ledger has an entry for the source row. *)
Definition in_ledger (session_id : Z) (db : Database) : Prop :=
  exists row, In row (cdc_failed_records db)
              /\ f_session_id row = session_id.

(** At most one ledger entry per source row. *)
Definition ledger_unique (db : Database) : Prop :=
  NoDup (map f_session_id (cdc_failed_records db)).

(** The watermark row the poller reads is the one of the configured
    source table. *)
Definition watermark_configured (cfg : Config) (db : Database) : Prop :=
  exists w rest, cdc_watermark db = w :: rest
                 /\ table_name w = sourceTable cfg.

(** Whether processing of a fetched row failed in this cycle. *)
Definition failed (env : Env) (record : CDCRecord) : Prop :=
  fst (attempt env record) <> None.

(** Every row fetched by the cycle is accounted for afterwards. *)
Definition accounted_for (cfg : Config) (env : Env) (db : Database)
  : Prop :=
  forall selected s,
    rejects env SelectNewSessions = false ->
    get_new_sessions (source env) db batchSize = Ok selected ->
    In s selected ->
    (~ failed env (to_record s) ->
     covered s (pollForNewSessions cfg env db))
    /\ (failed env (to_record s) ->
        in_ledger (s_id s) (pollForNewSessions cfg env db)).

(** The columns of a ledger row that a repeated failure leaves as
    they are. *)
Definition same_entry_otherwise (a b : FailedRow) : Prop :=
  f_id a = f_id b
  /\ f_session_id a = f_session_id b
  /\ f_ingested_at a = f_ingested_at b
  /\ f_created_at a = f_created_at b
  /\ f_impilo_uid a = f_impilo_uid b
  /\ f_impilo_id a = f_impilo_id b
  /\ f_data a = f_data b
  /\ f_synced a = f_synced b.

(** No poll tick starts a cycle while an earlier one is running. *)
Definition never_overlaps : Prop :=
  forall events,
    let s := Scheduler.run events Scheduler.initial in
    0 < Scheduler.pollsRunning s -> Scheduler.starts_cycle s = false.

End Notions.

(** *** The matching boundary scenario *)

Module Scenario.
Import Fhir Rules.

Definition exact_rule (path : string) (one_missing both_missing : NullHandling)
  : FieldRule :=
  {| algorithm := exact; threshold := None; fhirpath := path;
     weight := 10; null_handling := one_missing;
     null_handling_both := both_missing; espath := path;
     description := path |}.

(** [{family: exact weight 10 / null_handling moderate, birthDate:
    exact weight 10 / null_handling conservative}], thresholds 15
    and 8; the both-missing tiers are left open. *)
Definition boundary_rule (both1 both2 : NullHandling) : MatchingRule :=
  {| matchingType := deterministic;
     rule_description := "boundary";
     fields := [("family", exact_rule "family" moderate both1);
                ("birthDate", exact_rule "birthDate" conservative both2)];
     autoMatchThreshold := 15;
     potentialMatchThreshold := 8 |}.

Definition patient (ident : string) (fam : string) (born : option string)
  : FHIRPatient :=
  {| resourceType := "Patient"; id := Some ident; identifier := None;
     active := None;
     name := Some [{| name_use := None; name_text := None;
                      family := Some fam; given := None |}];
     gender := None; birthDate := born |}.

Definition incoming : FHIRPatient :=
  patient "new" "Moyo" (Some "2024-03-01").
Definition candidateA : FHIRPatient := patient "A" "Moyo" None.
Definition candidateB : FHIRPatient :=
  patient "B" "Moyo" (Some "2024-03-01").
Definition candidateC : FHIRPatient :=
  patient "C" "Banda" (Some "2023-12-25").

(** The bundle that the search for [incoming] returns. *)
Definition searchResults : FHIRBundle :=
  {| entry := Some [{| resource := Some candidateA |};
                    {| resource := Some candidateB |};
                    {| resource := Some candidateC |}] |}.

(** A bundle with an entry that carries no resource. *)
Definition outcome_only : FHIRBundle :=
  {| entry := Some [{| resource := Some candidateB |};
                    {| resource := None |}] |}.

Definition smith_rule : FieldRule :=
  exact_rule "family" conservative conservative.

Definition nameless : FHIRPatient := patient "E" EmptyString None.

Definition family_rule : FieldRule := exact_rule "family" moderate greedy.

Definition given_rule : FieldRule := exact_rule "given" moderate greedy.

(** A baby registered with a first name only, as [buildNames]
    produces it, and the registry entry it auto-matches. *)
Definition first_name_only : FHIRPatient :=
  {| resourceType := "Patient"; id := None;
     identifier := Some [{| id_use := None;
                            id_system := Some "urn:impilo:uid";
                            id_value := Some "uid-1" |}];
     active := Some true;
     name := Some [{| name_use := Some "official"; name_text := None;
                      family := None; given := Some ["Tariro"] |}];
     gender := Some "female"; birthDate := Some "2024-03-01" |}.

Definition registered : FHIRPatient :=
  {| resourceType := "Patient"; id := Some "opencr-7";
     identifier := Some [{| id_use := None;
                            id_system := Some "urn:impilo:uid";
                            id_value := Some "uid-0" |}];
     active := Some true;
     name := Some [{| name_use := Some "official"; name_text := None;
                      family := Some "Moyo"; given := Some ["Rudo"] |}];
     gender := Some "male"; birthDate := Some "2024-02-29" |}.


(** *** A poll cycle *)

Import Json Cdc.

Definition cfg : Config := {| sourceTable := "sessions" |}.

(** Sessions without script data: [processEntry] rejects them at
    its first check. *)
Definition first_visit : json :=
  JObject [("uid", JString "baby-1");
           ("patientName", JString "Farai Dube")].

Definition incomplete : json :=
  JObject [("uid", JString "baby-7");
           ("patientName", JString "Tariro Moyo")].

Definition uuid7 : string := "5b2f0c1e-7a44-4d3b-9e61-0c8f2a7d9b13".

(** Timestamps are in microseconds: session 1 was ingested 100 ms
    and session 7 200 ms after the start of the watermark. *)
Definition session1 : Session :=
  {| s_id := 1; s_ingested_at := 100000; s_time := 90000;
     s_impilo_uid := None; s_data := first_visit |}.

Definition session7 : Session :=
  {| s_id := 7; s_ingested_at := 200000; s_time := 190000;
     s_impilo_uid := Some uuid7; s_data := incomplete |}.

Definition sessions : string -> option (list Session) :=
  fun table => if String.eqb table "sessions"
               then Some [session7; session1] else None.

(** The remainder of [processEntry].  No row of the scenarios has
    script data, so it is never reached. *)
Definition pipeline : json -> option string := fun _ => None.

Definition is_ledger_insert (q : Query) : bool :=
  match q with
  | InsertFailedRecord _ => true
  | _ => false
  end.

(** A cycle in which every statement is accepted. *)
Definition healthy : Env :=
  {| source := sessions;
     processEntry := Adapter.processEntry pipeline;
     rejects := fun _ => false;
     now_at := fun _ => 1000000%Z;
     now_end := 1001000 |}.

(** A cycle in which the ledger insert is rejected. *)
Definition ledger_down : Env :=
  {| source := sessions;
     processEntry := Adapter.processEntry pipeline;
     rejects := is_ledger_insert;
     now_at := fun _ => 1000000%Z;
     now_end := 1001000 |}.

(** A later cycle that meets session 7 again. *)
Definition replayed : Env :=
  {| source := sessions;
     processEntry := Adapter.processEntry pipeline;
     rejects := fun _ => false;
     now_at := fun _ => 2000000%Z;
     now_end := 2001000 |}.

Definition fresh : Database := setup "sessions" 0.

Definition record1 : CDCRecord := to_record session1.

Definition record7 : CDCRecord := to_record session7.

(** The state after the healthy cycle, and the ledger entries it
    holds (for session 7, the payload with [impilo_uid] set on
    it). *)
Definition recorded : Database := pollForNewSessions cfg healthy fresh.

Definition incomplete_sent : json :=
  JObject [("uid", JString "baby-7");
           ("patientName", JString "Tariro Moyo");
           ("impilo_uid", JString uuid7)].

Definition entry1 : FailedRow :=
  {| f_id := 1; f_session_id := 1; f_ingested_at := 90000;
     f_attempt_count := 1;
     f_last_error := Some "Missing script data for entry baby-1";
     f_last_attempt_at := Some 1000000%Z; f_created_at := 1000000;
     f_impilo_uid := None; f_impilo_id := None;
     f_data := stringify first_visit; f_synced := false |}.

Definition entry7 : FailedRow :=
  {| f_id := 2; f_session_id := 7; f_ingested_at := 190000;
     f_attempt_count := 1;
     f_last_error := Some "Missing script data for entry baby-7";
     f_last_attempt_at := Some 1000000%Z; f_created_at := 1000000;
     f_impilo_uid := Some uuid7; f_impilo_id := None;
     f_data := stringify incomplete_sent; f_synced := false |}.

(** A session that is ingested after the healthy cycle, and the
    cycle that meets it. *)
Definition session9 : Session :=
  {| s_id := 9; s_ingested_at := 300000; s_time := 290000;
     s_impilo_uid := None;
     s_data := JObject [("uid", JString "baby-9")] |}.

Definition follow_up : Env :=
  {| source := fun table =>
                 if String.eqb table "sessions"
                 then Some [session9; session7; session1] else None;
     processEntry := Adapter.processEntry pipeline;
     rejects := fun _ => false;
     now_at := fun _ => 2000000%Z;
     now_end := 2001000 |}.

End Scenario.

(** *** Edit distance by its recurrence *)

Module EditDistance.

Definition subst_cost (x y : ascii) : nat :=
  if Ascii.eqb x y then 0 else 1.

(** The recurrence of the dynamic programme, on two prefixes written
    last character first: [d(0, j) = j], [d(i, 0) = i] and
    [d(i, j) = min(d(i-1, j) + 1, d(i, j-1) + 1, d(i-1, j-1) + cost)]. *)
Fixpoint distance (a b : list ascii) {struct a} : nat :=
  match a with
  | [] => List.length b
  | x :: a' =>
      (fix along (b : list ascii) : nat :=
         match b with
         | [] => S (List.length a')
         | y :: b' =>
             Nat.min (Nat.min (distance a' b + 1) (along b' + 1))
                     (distance a' b' + subst_cost x y)
         end) b
  end.

(** Row [i] of the matrix from column [j] on: [a] is the prefix of
    length [i], [b] the prefix of length [j], [rest] what follows
    [b] in the second string. *)
Fixpoint matrix_row (a b rest : list ascii) : list nat :=
  distance a b ::
  match rest with
  | [] => []
  | y :: rest' => matrix_row a (y :: b) rest'
  end.

End EditDistance.

(** *** Orders and sums used for the matching results *)

Module Ranking.
Import Fhir Rules.



(** [a] is listed before [b]: its total score is at least that of [b]. *)
Definition ranked_before (a b : FHIRPatient * MatchScore) : Prop :=
  (totalScore (snd b) <= totalScore (snd a))%Q.

End Ranking.

(** *** missing-data-handler.ts: [analyzeMissingData] *)

Module MissingReport.
Import JS Fhir Rules.

Record MissingDataReport := {
  uid : string;
  missingFields : list string;
  criticalFieldsMissing : list string;
  canProceed : bool;
  warnings : list string
}.

(** [allFields.has(fieldName)] *)
Definition has_field (fieldName : string)
           (allFields : list (string * FieldRule)) : bool :=
  existsb (fun known => String.eqb (fst known) fieldName) allFields.

(** The inner loop that fills the [Map] [allFields]: a name that is
    already a key is skipped, a new one is added last. *)
Fixpoint add_fields (entries : list (string * FieldRule))
         (allFields : list (string * FieldRule))
  : list (string * FieldRule) :=
  match entries with
  | [] => allFields
  | (fieldName, fieldRule) :: rest =>
      add_fields rest
                 (if has_field fieldName allFields then allFields
                  else allFields ++ [(fieldName, fieldRule)])
  end.

(** The outer loop over [this.rules]. *)
Fixpoint collect_fields (rules : list MatchingRule)
         (allFields : list (string * FieldRule))
  : list (string * FieldRule) :=
  match rules with
  | [] => allFields
  | rule :: rest => collect_fields rest (add_fields (fields rule) allFields)
  end.

(** [isCriticalField(fieldRule)] *)
Definition isCriticalField (fieldRule : FieldRule) : bool :=
  Qge_bool (weight fieldRule) 7
  || match null_handling fieldRule with
     | conservative => true
     | _ => false
     end.

Definition handling_label (handling : NullHandling) : string :=
  match handling with
  | conservative => "conservative"
  | moderate => "moderate"
  | greedy => "greedy"
  | other_handling label => label
  end.

Section WithNumberFormat.

(** The text of a number inside a template literal. *)
Variable show_number : Q -> string.

(** The loop over [allFields.entries()], threading [missingFields],
    [criticalFieldsMissing] and [warnings].  The private
    [extractFieldValue] of this class has the same text as the one of
    the duplicate-detection service. *)
Fixpoint check_fields (patient : FHIRPatient)
         (allFields : list (string * FieldRule))
         (missing critical warned : list string)
  : list string * list string * list string :=
  match allFields with
  | [] => (missing, critical, warned)
  | (fieldName, fieldRule) :: rest =>
      match DuplicateDetection.extractFieldValue patient fieldRule with
      | None =>
          check_fields patient rest
            (missing ++ [fieldName])
            (if isCriticalField fieldRule
             then critical ++ [fieldName] else critical)
            (warned
               ++ [(fieldName ++ " (weight: "
                    ++ show_number (weight fieldRule) ++ ", handling: "
                    ++ handling_label (null_handling fieldRule) ++ ")")
                     %string])
      | Some _ => check_fields patient rest missing critical warned
      end
  end.

Definition analyzeMissingData (rules : list MatchingRule)
           (patient : FHIRPatient) (uid : string) : MissingDataReport :=
  let allFields := collect_fields rules [] in
  let '(missingFields, criticalFieldsMissing, warnings) :=
    check_fields patient allFields [] [] [] in
  {| uid := uid;
     missingFields := missingFields;
     criticalFieldsMissing := criticalFieldsMissing;
     canProceed := (List.length criticalFieldsMissing =? 0)%nat;
     warnings := warnings |}.

End WithNumberFormat.

(** The first [FieldRule] configured under a name, over all rules in
    order. *)
Definition first_configured (rules : list MatchingRule) (fieldName : string)
  : option FieldRule :=
  option_map snd
    (find (fun configured => String.eqb (fst configured) fieldName)
          (flat_map fields rules)).

End MissingReport.

(** *** setup-cdc.sql and cdc-service.ts: the retry lane *)

Module Retry.
Import Json Cdc.

(** [INTERVAL '5 minutes'] in microseconds. *)
Definition cooldown : Z := 300000000.

(** The [WHERE] clause of [get_failed_sessions_for_retry] at time
    [now]. *)
Definition retry_ready (now : Z) (f : FailedRow) : bool :=
  negb (f_synced f)
  && match f_last_attempt_at f with
     | None => true
     | Some attempted => (attempted <? now - cooldown)%Z
     end.

(** [ORDER BY f.created_at ASC]; rows created at the same time keep
    their table order (SQL leaves their order open). *)
Fixpoint insert_by_created (x : FailedRow) (l : list FailedRow)
  : list FailedRow :=
  match l with
  | [] => [x]
  | y :: l' =>
      if (f_created_at x <=? f_created_at y)%Z then x :: l
      else y :: insert_by_created x l'
  end.

Fixpoint order_by_created (l : list FailedRow) : list FailedRow :=
  match l with
  | [] => []
  | x :: l' => insert_by_created x (order_by_created l')
  end.

(** [get_failed_sessions_for_retry(batch_size)] at time [now]; a row
    stands for the columns the function selects from it. *)
Definition get_failed_sessions_for_retry (db : Database) (now : Z)
           (batch_size : nat) : list FailedRow :=
  firstn batch_size
         (order_by_created (filter (retry_ready now) (cdc_failed_records db))).

(** The statements the retry lane sends through [pool.query]. *)
Inductive RetryQuery :=
| SelectForRetry
| RemoveFailedSession (p_id : Z)
| UpdateFailedSessionRetry (p_id : Z).

(** What one retry cycle meets outside the adapter's own tables. *)
Record RetryEnv := {
  (** [adapterService.processEntry(entry)]: [None] when the promise
      resolves, the error message when it rejects *)
  retry_processEntry : json -> option string;
  (** the error message with which [pool.query] rejects a statement,
      if it does *)
  retry_rejects : RetryQuery -> option string;
  (** [NOW()] when the [SELECT] runs *)
  select_now : Z;
  (** [NOW()] when the outcome of a record is written *)
  retry_now_at : FailedRow -> Z
}.

(** The [try] block of the loop body of [retryBatch]: the database
    after it, and the message of the error it threw, if any.  The
    [data] column is TEXT, so [record.data] is a string. *)
Definition retry_attempt (env : RetryEnv) (record : FailedRow)
           (db : Database) : Database * option string :=
  match convertToNeotreeEntry (JString (f_data record))
                              (f_impilo_uid record) with
  | (Throw message, _) => (db, Some message)
  | (Ok entry, _) =>
      match retry_processEntry env entry with
      | Some message => (db, Some message)
      | None =>
          match retry_rejects env (RemoveFailedSession (f_id record)) with
          | Some message => (db, Some message)
          | None => (remove_failed_session (f_id record) db, None)
          end
      end
  end.

(** [retryBatch(records)]: the database when the loop ends, and the
    error that ended it when the statement of a [catch] block is
    rejected. *)
Fixpoint retryBatch (env : RetryEnv) (records : list FailedRow)
         (db : Database) : Database * option string :=
  match records with
  | [] => (db, None)
  | record :: rest =>
      match retry_attempt env record db with
      | (db1, None) => retryBatch env rest db1
      | (db1, Some errorMessage) =>
          match retry_rejects env (UpdateFailedSessionRetry (f_id record))
          with
          | Some message => (db1, Some message)
          | None =>
              retryBatch env rest
                (update_failed_session_retry (f_id record)
                                             (Some errorMessage) false
                                             (retry_now_at env record) db1)
          end
      end
  end.

(** [retryFailedSessions()] for a started service; an error is caught
    and logged. *)
Definition retryFailedSessions (env : RetryEnv) (db : Database) : Database :=
  match retry_rejects env SelectForRetry with
  | Some _ => db
  | None =>
      match get_failed_sessions_for_retry db (select_now env) 50 with
      | [] => db
      | rows => fst (retryBatch env rows db)
      end
  end.

(** A ledger row after a failed retry at time [now]. *)
Definition retried (now : Z) (before after : FailedRow) : Prop :=
  f_id after = f_id before
  /\ f_session_id after = f_session_id before
  /\ f_data after = f_data before
  /\ f_impilo_id after = f_impilo_id before
  /\ f_created_at after = f_created_at before
  /\ f_attempt_count after = (f_attempt_count before + 1)%Z
  /\ f_last_error after = Some "Invalid session data"
  /\ f_last_attempt_at after = Some now
  /\ f_synced after = false.

End Retry.

(** *** A retry cycle *)

Module RetryScenario.
Import Json Cdc Retry.

(** A retry cycle six minutes after the failure, every statement
    accepted, and a callback that would accept any entry. *)
Definition late : RetryEnv :=
  {| retry_processEntry := fun _ => None;
     retry_rejects := fun _ => None;
     select_now := 360001000;
     retry_now_at := fun _ => 360002000%Z |}.

End RetryScenario.

(** *** A row that arrives with the timestamp of the last batch *)

Module TieScenario.
Import Json Cdc.

(** Session 8 has the ingestion timestamp of session 7 and becomes
    visible in the source table after the healthy cycle. *)
Definition session8 : Session :=
  {| s_id := 8; s_ingested_at := 200000; s_time := 195000;
     s_impilo_uid := Some "0d9a6c52-3f1b-4e88-a7c4-5e2b1f6d8c30";
     s_data := JObject [("uid", JString "baby-8")] |}.

Definition late_arrival : Env :=
  {| source := fun table =>
                 if String.eqb table "sessions"
                 then Some [session8; Scenario.session7; Scenario.session1]
                 else None;
     processEntry := Adapter.processEntry Scenario.pipeline;
     rejects := fun _ => false;
     now_at := fun _ => 3000000%Z;
     now_end := 3001000 |}.

End TieScenario.

(** *** Rows ingested within one millisecond *)

Module DateScenario.
Import Json Cdc.

(** Session 5 is ingested 0.7 ms and session 3 0.9 ms after the start
    of the watermark. *)
Definition session5 : Session :=
  {| s_id := 5; s_ingested_at := 700; s_time := 650;
     s_impilo_uid := None;
     s_data := JObject [("uid", JString "baby-5")] |}.

Definition session3 : Session :=
  {| s_id := 3; s_ingested_at := 900; s_time := 880;
     s_impilo_uid := None;
     s_data := JObject [("uid", JString "baby-3")] |}.

Definition table (rows : list Session) (now : Z) : Env :=
  {| source := fun name =>
                 if String.eqb name "sessions" then Some rows else None;
     processEntry := Adapter.processEntry Scenario.pipeline;
     rejects := fun _ => false;
     now_at := fun _ => now;
     now_end := (now + 1000)%Z |}.

(** The cycle that finds session 5, and the next one, by which
    session 3 has been ingested. *)
Definition first : Env := table [session5] 1000000.

Definition second : Env := table [session3; session5] 31000000.

End DateScenario.

(** *** Two cycles that overlap *)

Module OverlapScenario.
Import Json Cdc Interleaving.

(** The first tick finds session 1 only; session 7 is ingested
    before the second tick, which fires while the first cycle is
    still busy.  The second cycle ends first. *)
Definition early : Env :=
  {| source := fun name =>
                 if String.eqb name "sessions"
                 then Some [Scenario.session1] else None;
     processEntry := Adapter.processEntry Scenario.pipeline;
     rejects := fun _ => false;
     now_at := fun _ => 40000000%Z;
     now_end := 40001000 |}.

Definition quick : Env :=
  {| source := Scenario.sessions;
     processEntry := Adapter.processEntry Scenario.pipeline;
     rejects := fun _ => false;
     now_at := fun _ => 35000000%Z;
     now_end := 35001000 |}.

Definition second_ends_first : list Step :=
  [Select early; Select quick; Process 1 quick].

Definition first_ends_last : list Step :=
  second_ends_first ++ [Process 0 early].

End OverlapScenario.

(* ================================================================== *)
(** ** cdc-service.ts: the entry handed to the callback *)
(* ================================================================== *)

Module Entry.
Import Json Cdc.

(** An object or an array: what passes [!v] and [typeof v]. *)
Definition is_container (v : json) : bool :=
  match v with
  | JObject _ | JArray _ => true
  | _ => false
  end.

(** [data.data ?? data] *)
Definition payload_of (data : json) : json :=
  match data with
  | JObject members =>
      match lookup "data" members with
      | Some JNull | None => data
      | Some v => v
      end
  | _ => data
  end.

(** [entry[k]] of an entry object; [None] for a missing member and
    for anything that is not an object. *)
Definition member (k : string) (entry : json) : option json :=
  match entry with
  | JObject members => lookup k members
  | _ => None
  end.

(** [entry.impilo_uid = impilo_uid] *)
Definition with_uid (uid : string) (entry : json) : json :=
  match entry with
  | JObject members => JObject (assign "impilo_uid" (JString uid) members)
  | other => other
  end.

(** What [data] is once the entry, which is [data.data] or [data]
    itself, has been written to. *)
Definition written_through (entry data : json) : json :=
  match data with
  | JObject members =>
      match lookup "data" members with
      | Some JNull | None => entry
      | Some _ => JObject (assign "data" entry members)
      end
  | _ => entry
  end.

End Entry.

(** *** States of the scheduler *)

Module SchedulerStates.
Import Scheduler.

(** A task is scheduled only while [isPolling] is set. *)
Definition tasks_imply_polling (s : Service) : Prop :=
  (pollTask s = true -> isPolling s = true)
  /\ (retryTask s = true -> isPolling s = true).

(** [isPolling] is set and nothing is scheduled. *)
Definition wedged (s : Service) : Prop :=
  isPolling s = true /\ pollTask s = false /\ retryTask s = false.

End SchedulerStates.

(* ================================================================== *)
(** ** sync-service.ts: decryptData *)
(* ================================================================== *)

Module Decrypt.
Import JS Codec Cdc.

(** [s.split(sep)] for a one-character separator. *)
Fixpoint split (sep : ascii) (s : list ascii) : list (list ascii) :=
  match s with
  | [] => [[]]
  | c :: rest =>
      if Ascii.eqb c sep then [] :: split sep rest
      else match split sep rest with
           | part :: parts => (c :: part) :: parts
           | [] => [[c]]
           end
  end.

(** [!part] for an element of the destructured array: a missing
    element and the empty string are falsy. *)
Definition missing (part : option (list ascii)) : bool :=
  match part with
  | None | Some [] => true
  | Some (_ :: _) => false
  end.

Definition format_error : string :=
  "Invalid encrypted data format. Expected: base64(iv):base64(encrypted_data)".

Section WithLibrary.

(** [Buffer.from(text, 'base64')] *)
Variable from_base64 : list ascii -> list ascii.

(** [createDecipheriv('aes-256-cbc', key, iv)], [update] and
    [final]: key, initialisation vector and ciphertext bytes to
    plaintext bytes, or the message of the error thrown. *)
Variable decipher :
  list ascii -> list ascii -> list ascii -> result (list ascii).

(** [buffer.toString('utf8')] *)
Variable utf8_string : list ascii -> string.

(** [decryptData(encryptedText)] with the key of the class. *)
Definition decryptData (encryptionKey : list ascii) (encryptedText : string)
  : result string :=
  let parts := split ":"%char (chars encryptedText) in
  let ivB64 := nth_error parts 0 in
  let encryptedB64 := nth_error parts 1 in
  match ivB64, encryptedB64 with
  | Some ivText, Some encryptedText' =>
      if missing ivB64 || missing encryptedB64
      then Throw ("Failed to decrypt data: " ++ format_error)
      else
        match decipher encryptionKey (from_base64 ivText)
                       (from_base64 encryptedText') with
        | Ok decrypted => Ok (utf8_string decrypted)
        | Throw message => Throw ("Failed to decrypt data: " ++ message)
        end
  | _, _ => Throw ("Failed to decrypt data: " ++ format_error)
  end.

End WithLibrary.

End Decrypt.

(** *** A token and stand-ins for the library calls *)

Module CodecScenario.
Import JS Codec Cdc Decrypt.

Fixpoint index_of (c : ascii) (l : list ascii) (i : N) : option N :=
  match l with
  | [] => None
  | x :: rest => if Ascii.eqb c x then Some i else index_of c rest (i + 1)%N
  end.

Definition b64_value (c : ascii) : option N := index_of c alphabet 0%N.

Definition byte (n : N) : ascii := ascii_of_N (n mod 256).

(** A decoder for padded base64 text. *)
Fixpoint from_base64 (text : list ascii) : list ascii :=
  match text with
  | a :: b :: c :: d :: rest =>
      match b64_value a, b64_value b, b64_value c, b64_value d with
      | Some x, Some y, Some z, Some w =>
          byte (x * 4 + y / 16) :: byte (y mod 16 * 16 + z / 4)
               :: byte (z mod 4 * 64 + w) :: from_base64 rest
      | Some x, Some y, Some z, None =>
          [byte (x * 4 + y / 16); byte (y mod 16 * 16 + z / 4)]
      | Some x, Some y, None, _ => [byte (x * 4 + y / 16)]
      | _, _, _, _ => []
      end%N
  | _ => []
  end.

(** A stand-in cipher that adds one byte of padding, and its
    inverse. *)
Definition cipher (key ivBytes plaintext : list ascii) : list ascii :=
  plaintext ++ [ascii_of_nat 1].

Definition decipher (key ivBytes encrypted : list ascii)
  : result (list ascii) :=
  match encrypted with
  | [] => Throw "bad decrypt"
  | _ => Ok (removelast encrypted)
  end.

Definition key : list ascii := chars "0123456789abcdef0123456789abcdef".

Definition ivBytes : list ascii := chars "sixteen byte iv!".

Definition plaintext : string := "impilo-123".

End CodecScenario.

(** *** The entry a first failure leaves in the ledger *)

Module LedgerEntries.
Import Json Cdc.

(** The row that the [INSERT] of [recordFailure] proposes for
    [record] (the row as the [catch] block sees it), apart from its
    sequence number. *)
Definition first_failure_entry (record : CDCRecord) (message : string)
           (now : Z) (e : FailedRow) : Prop :=
  f_session_id e = id record
  /\ f_ingested_at e = time record
  /\ f_attempt_count e = 1%Z
  /\ f_last_error e = Some message
  /\ f_last_attempt_at e = Some now
  /\ f_created_at e = now
  /\ f_impilo_uid e = or_null (impilo_uid record)
  /\ f_impilo_id e = or_null (impilo_id record)
  /\ f_data e = stringify (data record)
  /\ f_synced e = false.

End LedgerEntries.

(* ================================================================== *)
(** * Properties *)
(* ================================================================== *)

Import JS StringMatching Notions.

(** ** Jaro and Jaro-Winkler *)

Section JaroTermination.

Lemma count_true_cons b l :
  count_true (b :: l) = (if b then 1 else 0) + count_true l.
Proof. unfold count_true; simpl; destruct b; reflexivity. Qed.

Lemma count_true_repeat_false n : count_true (repeat false n) = 0.
Proof. induction n; simpl; auto. Qed.

Lemma scan_window_flags c s2 : forall m j start stop m',
    scan_window c s2 m j start stop = Some m' ->
    List.length m' = List.length m /\ count_true m' = S (count_true m).
Proof.
  induction s2 as [|c2 s2 IH]; intros m j start stop m' H; simpl in H.
  - discriminate.
  - destruct m as [|b ms]; [discriminate|].
    destruct ((start <=? j)%Z && (j <? stop)%Z && negb b && Ascii.eqb c c2)
             eqn:E.
    + inversion H; subst; clear H.
      apply andb_prop in E; destruct E as [E _].
      apply andb_prop in E; destruct E as [_ E].
      destruct b; [discriminate|].
      rewrite !count_true_cons; simpl; auto.
    + destruct (scan_window c s2 ms (j + 1) start stop) as [ms'|] eqn:E';
        [|discriminate].
      inversion H; subst; clear H.
      destruct (IH _ _ _ _ _ E') as [L C].
      rewrite !count_true_cons, C; simpl; split; lia.
Qed.

Lemma match_loop_flags s2 len2 w : forall s1 i m m1 m2 n,
    match_loop s1 i w s2 len2 m = (m1, m2, n) ->
    List.length m1 = List.length s1
    /\ List.length m2 = List.length m
    /\ count_true m1 = n
    /\ count_true m2 = count_true m + n.
Proof.
  induction s1 as [|c s1 IH]; intros i m m1 m2 n H; simpl in H.
  - inversion H; subst; simpl; repeat split; auto.
  - destruct (scan_window c s2 m 0 (Z.max 0 (i - w))
                          (Z.min (i + w + 1) len2)) as [m'|] eqn:E.
    + destruct (match_loop s1 (i + 1) w s2 len2 m') as [[a b] k] eqn:R.
      inversion H; subst; clear H.
      destruct (IH _ _ _ _ _ R) as (L1 & L2 & C1 & C2).
      destruct (scan_window_flags _ _ _ _ _ _ E) as [L C].
      rewrite count_true_cons; simpl. repeat split; lia.
    + destruct (match_loop s1 (i + 1) w s2 len2 m) as [[a b] k] eqn:R.
      inversion H; subst; clear H.
      destruct (IH _ _ _ _ _ R) as (L1 & L2 & C1 & C2).
      rewrite count_true_cons; simpl. repeat split; lia.
Qed.

Lemma skip_unmatched_some : forall rest,
    0 < count_true (map snd rest) ->
    exists c rest',
      skip_unmatched rest = Some (c, rest')
      /\ S (count_true (map snd rest')) = count_true (map snd rest).
Proof.
  induction rest as [|[c b] rest IH]; simpl; intros H.
  - inversion H.
  - rewrite count_true_cons in *; destruct b; simpl in *.
    + exists c, rest; auto.
    + apply IH; exact H.
Qed.

Lemma count_transpositions_returns : forall s1 rest,
    count_true (map snd s1) <= count_true (map snd rest) ->
    exists t, count_transpositions s1 rest = Some t.
Proof.
  induction s1 as [|[c b] s1 IH]; simpl; intros rest H.
  - eauto.
  - rewrite count_true_cons in H; destruct b; simpl in H.
    + destruct (skip_unmatched_some rest) as (c2 & rest' & E & C); [lia|].
      rewrite E. destruct (IH rest') as [t Ht]; [lia|].
      rewrite Ht; simpl; eauto.
    + apply IH; exact H.
Qed.

Lemma map_snd_combine {A B} : forall (l : list A) (l' : list B),
    List.length l = List.length l' -> map snd (combine l l') = l'.
Proof.
  induction l; destruct l'; simpl; intros H; try discriminate; auto.
  f_equal; apply IHl; lia.
Qed.

(** [jaroSimilarity] returns for every pair of strings. *)
Lemma jaroSimilarity_returns str1 str2 :
  exists jaro, jaroSimilarity str1 str2 = Some jaro.
Proof.
  unfold jaroSimilarity.
  destruct (falsy str1 || falsy str2); [eauto|].
  destruct (String.eqb str1 str2); [eauto|].
  set (s1 := toLowerCase str1); set (s2 := toLowerCase str2).
  destruct (match_loop s1 0 _ s2 _ (repeat false (List.length s2)))
    as [[m1 m2] n] eqn:R.
  destruct (match_loop_flags _ _ _ _ _ _ R) as (L1 & L2 & C1 & C2).
  rewrite repeat_length in L2. rewrite count_true_repeat_false in C2.
  destruct (n =? 0); [eauto|].
  destruct (count_transpositions_returns (combine s1 m1) (combine s2 m2))
    as [t Ht].
  - rewrite !map_snd_combine by lia. lia.
  - rewrite Ht; eauto.
Qed.

Lemma jaroWinklerSimilarity_returns str1 str2 :
  exists similarity, jaroWinklerSimilarity str1 str2 = Some similarity.
Proof.
  unfold jaroWinklerSimilarity.
  destruct (jaroSimilarity_returns str1 str2) as [j ->].
  destruct (Qlt_bool j 0.7); eauto.
Qed.

End JaroTermination.

Section WinklerPrefix.

Lemma prefix_loop_common : forall remaining s1 s2 a b i prefix,
    List.length a = i -> List.length b = i ->
    remaining <= Nat.min (List.length s1) (List.length s2) ->
    prefix_loop (a ++ s1) (b ++ s2) i remaining prefix
    = prefix + Nat.min remaining (common_prefix_length s1 s2).
Proof.
  induction remaining as [|r IH]; intros s1 s2 a b i prefix La Lb Hr; simpl.
  - lia.
  - destruct s1 as [|x s1]; [simpl in Hr; lia|].
    destruct s2 as [|y s2]; [simpl in Hr; lia|].
    rewrite !nth_error_app2 by lia.
    rewrite La, Lb, Nat.sub_diag; simpl.
    destruct (Ascii.eqb x y); [|lia].
    replace (a ++ x :: s1) with ((a ++ [x]) ++ s1)
      by (rewrite <- app_assoc; reflexivity).
    replace (b ++ y :: s2) with ((b ++ [y]) ++ s2)
      by (rewrite <- app_assoc; reflexivity).
    rewrite IH.
    + lia.
    + rewrite length_app; simpl; lia.
    + rewrite length_app; simpl; lia.
    + simpl in Hr; lia.
Qed.

Lemma common_prefix_length_le : forall a b,
    common_prefix_length a b <= Nat.min (List.length a) (List.length b).
Proof.
  induction a as [|x a IH]; destruct b as [|y b]; simpl; try lia.
  destruct (Ascii.eqb x y); [specialize (IH b)|]; lia.
Qed.

(** The loop of [jaroWinklerSimilarity] computes the common
    lower-cased prefix, capped at 4. *)
Lemma winkler_prefix_capped str1 str2 :
  winkler_prefix str1 str2 = capped_prefix str1 str2.
Proof.
  unfold winkler_prefix, capped_prefix.
  pose proof (common_prefix_length_le (toLowerCase str1) (toLowerCase str2)).
  rewrite (@prefix_loop_common _ (toLowerCase str1) (toLowerCase str2)
                               [] [] 0 0 eq_refl eq_refl) by lia.
  lia.
Qed.

End WinklerPrefix.

(** [Qlt_bool], [Qge_bool] and [Qgt_bool] decide the order of the
    rationals. *)
Lemma Qlt_bool_iff a b : Qlt_bool a b = true <-> (a < b)%Q.
Proof.
  unfold Qlt_bool. rewrite negb_true_iff.
  split; intros H.
  - apply Qnot_le_lt. intros L. apply Qle_bool_iff in L. congruence.
  - destruct (Qle_bool b a) eqn:E; auto.
    apply Qle_bool_iff in E. exfalso; eapply Qlt_not_le; eauto.
Qed.

Lemma Qlt_bool_false_iff a b : Qlt_bool a b = false <-> (b <= a)%Q.
Proof.
  unfold Qlt_bool. rewrite negb_false_iff. apply Qle_bool_iff.
Qed.

Lemma Qge_bool_iff a b : Qge_bool a b = true <-> (b <= a)%Q.
Proof. unfold Qge_bool. apply Qle_bool_iff. Qed.

Lemma Qge_bool_false_iff a b : Qge_bool a b = false <-> ~ (b <= a)%Q.
Proof.
  unfold Qge_bool. rewrite <- Qle_bool_iff.
  destruct (Qle_bool b a); split; intros; congruence.
Qed.

(** Reference values of the two string measures. *)
Example levenshtein_reference :
  levenshteinDistance "kitten" "sitting" = 3
  /\ levenshteinDistance EmptyString "abc" = 3
  /\ levenshteinDistance "Smith" "SMITH" = 0.
Proof. repeat split. Qed.

Example jaro_winkler_reference :
  option_map Qred (jaroWinklerSimilarity "MARTHA" "MARHTA")
  = Some (173 # 180)%Q
  /\ option_map Qred (jaroWinklerSimilarity "DWAYNE" "DUANE")
     = Some (21 # 25)%Q
  /\ option_map Qred (jaroWinklerSimilarity "DIXON" "DICKSONX")
     = Some (61 # 75)%Q.
Proof. repeat split; vm_compute; reflexivity. Qed.

(** C6, as amended.  For every pair of strings [jaroSimilarity]
    returns a value [jaro]; [jaroWinklerSimilarity] returns [jaro]
    itself when [jaro < 0.7], and [jaro + 0.1 * p * (1 - jaro)] when
    [jaro >= 0.7], where [p] is the length of the common lower-cased
    prefix capped at 4.  The similarity of MARTHA and MARHTA is within
    0.01 of 0.961. *)
Theorem jaro_winkler_bonus_above_threshold :
  (forall str1 str2,
      exists jaro,
        jaroSimilarity str1 str2 = Some jaro
        /\ ((jaro < 0.7)%Q ->
            jaroWinklerSimilarity str1 str2 = Some jaro)
        /\ ((0.7 <= jaro)%Q ->
            exists r, jaroWinklerSimilarity str1 str2 = Some r
                      /\ (r == with_prefix_bonus jaro str1 str2)%Q))
  /\ (exists r, jaroWinklerSimilarity "MARTHA" "MARHTA" = Some r
                /\ (Qabs (r - 0.961) <= 0.01)%Q).
Proof.
  split.
  - intros str1 str2.
    destruct (jaroSimilarity_returns str1 str2) as [jaro E].
    exists jaro. unfold jaroWinklerSimilarity. rewrite E.
    split; [reflexivity|]. split; intros H.
    + apply Qlt_bool_iff in H. rewrite H. reflexivity.
    + apply Qlt_bool_false_iff in H. rewrite H.
      eexists; split; [reflexivity|].
      unfold with_prefix_bonus. rewrite winkler_prefix_capped. ring.
  - eexists; split; [vm_compute; reflexivity|].
    vm_compute. discriminate.
Qed.

(** C6 as stated fails: "ab" and "ac" share the prefix "a" and have
    Jaro similarity 2/3; the result is 2/3, not 2/3 + 0.1 * 1 * 1/3. *)
Lemma jaro_winkler_bonus_counterexample :
  exists jaro r,
    jaroSimilarity "ab" "ac" = Some jaro
    /\ jaroWinklerSimilarity "ab" "ac" = Some r
    /\ capped_prefix "ab" "ac" = 1
    /\ ~ (r == with_prefix_bonus jaro "ab" "ac")%Q.
Proof.
  eexists; eexists.
  split; [vm_compute; reflexivity|].
  split; [vm_compute; reflexivity|].
  split; [reflexivity|].
  vm_compute. discriminate.
Qed.

(** ** Entity resolution *)

Import Fhir Rules DuplicateDetection.

Section Scoring.

Variables patient1 patient2 : FHIRPatient.

Lemma compareByAlgorithm_returns v1 v2 fieldRule :
  exists score, compareByAlgorithm v1 v2 fieldRule = Some score.
Proof.
  unfold compareByAlgorithm.
  destruct (algorithm fieldRule); eauto.
  destruct (jaroWinklerSimilarity_returns v1 v2) as [r ->]; eauto.
Qed.

Lemma compareFields_returns v1 v2 fieldRule :
  exists score, compareFields v1 v2 fieldRule = Some score.
Proof.
  destruct v1, v2; simpl; eauto using compareByAlgorithm_returns.
Qed.

Lemma sumQ_app l1 l2 : (sumQ (l1 ++ l2) == sumQ l1 + sumQ l2)%Q.
Proof.
  induction l1 as [|x l1 IH]; simpl.
  - ring.
  - rewrite IH. ring.
Qed.

Lemma score_fields_spec : forall entries acc total,
    exists scores total',
      score_fields patient1 patient2 entries acc total
      = Some (acc ++ scores, total')
      /\ Forall2 (field_scored patient1 patient2) entries scores
      /\ (total' == total + sumQ (map snd scores))%Q.
Proof.
  induction entries as [|[fieldName fieldRule] rest IH]; intros acc total.
  - exists [], total; simpl. rewrite app_nil_r.
    repeat split; [constructor | ring].
  - simpl.
    destruct (compareFields_returns
                (extractFieldValue patient1 fieldRule)
                (extractFieldValue patient2 fieldRule) fieldRule)
      as [score E].
    rewrite E.
    destruct (IH (acc ++ [(fieldName, score)]) (total + score)%Q)
      as (scores & total' & R & F & T).
    exists ((fieldName, score) :: scores), total'.
    rewrite R, <- app_assoc; simpl.
    repeat split.
    + constructor; [split; [reflexivity | exact E] | exact F].
    + rewrite T. ring.
Qed.

End Scoring.

Lemma classify_cases total rule :
  (classify total rule = auto_match
   <-> (autoMatchThreshold rule <= total)%Q)
  /\ (classify total rule = potential_match
      <-> (~ (autoMatchThreshold rule <= total)%Q
           /\ (potentialMatchThreshold rule <= total)%Q))
  /\ (classify total rule = no_match
      <-> (~ (autoMatchThreshold rule <= total)%Q
           /\ ~ (potentialMatchThreshold rule <= total)%Q)).
Proof.
  unfold classify.
  destruct (Qge_bool total (autoMatchThreshold rule)) eqn:A;
    [apply Qge_bool_iff in A | apply Qge_bool_false_iff in A];
    (destruct (Qge_bool total (potentialMatchThreshold rule)) eqn:P;
     [apply Qge_bool_iff in P | apply Qge_bool_false_iff in P]);
    repeat split; intros; try discriminate; try tauto.
Qed.

(** C4.  For every rule and pair of entities [calculateMatchScore]
    returns a score whose [fieldScores] hold the [compareFields]
    result of each configured field, whose [totalScore] is their sum,
    and whose level is auto-match iff total >= autoMatchThreshold,
    potential-match iff not so and total >= potentialMatchThreshold,
    no-match otherwise.  Under the boundary rule, candidate A scores
    10 (potential-match), B scores 20 (auto-match), C scores 0
    (no-match) and only B and A are returned, B first. *)
Theorem match_score_sum_and_classification :
  (forall patient1 patient2 rule,
      exists score,
        calculateMatchScore patient1 patient2 rule = Some score
        /\ Forall2 (field_scored patient1 patient2)
                   (fields rule) (fieldScores score)
        /\ (totalScore score == sumQ (map snd (fieldScores score)))%Q
        /\ (matchLevel score = auto_match
            <-> (autoMatchThreshold rule <= totalScore score)%Q)
        /\ (matchLevel score = potential_match
            <-> (~ (autoMatchThreshold rule <= totalScore score)%Q
                 /\ (potentialMatchThreshold rule <= totalScore score)%Q))
        /\ (matchLevel score = no_match
            <-> (~ (autoMatchThreshold rule <= totalScore score)%Q
                 /\ ~ (potentialMatchThreshold rule
                        <= totalScore score)%Q)))
  /\ (forall both1 both2,
        let rule := Scenario.boundary_rule both1 both2 in
        let scoreA := {| totalScore := 10;
                         fieldScores := [("family", 10%Q); ("birthDate", 0%Q)];
                         matchLevel := potential_match |} in
        let scoreB := {| totalScore := 20;
                         fieldScores := [("family", 10%Q); ("birthDate", 10%Q)];
                         matchLevel := auto_match |} in
        let scoreC := {| totalScore := 0;
                         fieldScores := [("family", 0%Q); ("birthDate", 0%Q)];
                         matchLevel := no_match |} in
        calculateMatchScore Scenario.incoming Scenario.candidateA rule
        = Some scoreA
        /\ calculateMatchScore Scenario.incoming Scenario.candidateB rule
           = Some scoreB
        /\ calculateMatchScore Scenario.incoming Scenario.candidateC rule
           = Some scoreC
        /\ findPotentialDuplicates
             [rule] Scenario.incoming Scenario.searchResults
           = Some (Found [(Scenario.candidateB, scoreB);
                          (Scenario.candidateA, scoreA)])).
Proof.
  split.
  - intros patient1 patient2 rule.
    unfold calculateMatchScore.
    destruct (score_fields_spec patient1 patient2 (fields rule) [] 0%Q)
      as (scores & total & R & F & T).
    rewrite R; simpl.
    eexists; split; [reflexivity|]; simpl.
    split; [exact F|].
    split; [rewrite T; ring|].
    apply classify_cases.
  - intros both1 both2; repeat split; vm_compute; reflexivity.
Qed.

(** C5, as amended.  For a field rule with algorithm [exact] and two
    non-null values, the score is the full weight when the two strings
    are identical (character by character, case included) and 0
    otherwise. *)
Theorem exact_compares_strings_as_they_are fieldRule value1 value2 :
  algorithm fieldRule = exact ->
  (value1 = value2 ->
   compareFields (Some value1) (Some value2) fieldRule
   = Some (weight fieldRule))
  /\ (value1 <> value2 ->
      compareFields (Some value1) (Some value2) fieldRule = Some 0%Q).
Proof.
  intros A. simpl. unfold compareByAlgorithm. rewrite A.
  split; intros H.
  - apply String.eqb_eq in H. rewrite H. reflexivity.
  - apply String.eqb_neq in H. rewrite H. reflexivity.
Qed.

Lemma exact_compares_strings_as_they_are_witness :
  compareFields (Some "Smith") (Some "Smith") Scenario.smith_rule
  = Some (weight Scenario.smith_rule).
Proof.
  exact (proj1 (exact_compares_strings_as_they_are
                  Scenario.smith_rule "Smith" "Smith" eq_refl) eq_refl).
Defined.

(** C5 as stated fails: "Smith" and "SMITH" are equal after case
    normalisation, yet an [exact] rule of weight 10 scores them 0. *)
Lemma exact_case_counterexample :
  algorithm Scenario.smith_rule = exact
  /\ toLowerCase "Smith" = toLowerCase "SMITH"
  /\ compareFields (Some "Smith") (Some "SMITH") Scenario.smith_rule
     = Some 0%Q
  /\ ~ (weight Scenario.smith_rule == 0)%Q.
Proof.
  repeat split; try reflexivity. vm_compute. discriminate.
Qed.

(** C10.  [extractFieldValue] never yields the empty string, so the
    algorithm switch is never reached with one; when the value found
    on either entity is the empty string, the field score is the
    null-handling score of the rule: the both-missing tier when the
    other value is missing too, the one-missing tier otherwise; and
    the tiers are conservative -> 0, moderate -> half the weight,
    greedy -> the weight. *)
Theorem empty_value_is_missing :
  (forall patient fieldRule,
      extractFieldValue patient fieldRule <> Some EmptyString)
  /\ (forall patient1 patient2 fieldRule,
        rawFieldValue patient1 fieldRule = Some EmptyString
        \/ rawFieldValue patient2 fieldRule = Some EmptyString ->
        compareFields (extractFieldValue patient1 fieldRule)
                      (extractFieldValue patient2 fieldRule) fieldRule
        = Some (getNullScore
                  (match extractFieldValue patient1 fieldRule,
                         extractFieldValue patient2 fieldRule with
                   | None, None => null_handling_both fieldRule
                   | _, _ => null_handling fieldRule
                   end)
                  (weight fieldRule)))
  /\ (forall w,
        getNullScore conservative w = 0%Q
        /\ (getNullScore moderate w == w / 2)%Q
        /\ getNullScore greedy w = w).
Proof.
  split; [|split].
  - intros patient fieldRule. unfold extractFieldValue, or_null.
    destruct (rawFieldValue patient fieldRule) as [[|c s]|]; simpl;
      discriminate.
  - intros patient1 patient2 fieldRule H.
    unfold extractFieldValue.
    destruct H as [H|H]; rewrite H; simpl.
    + destruct (or_null (rawFieldValue patient2 fieldRule)); reflexivity.
    + destruct (or_null (rawFieldValue patient1 fieldRule)); reflexivity.
  - intros w; repeat split; simpl. field.
Qed.

Lemma match_score_sum_and_classification_witness :
  exists score,
    calculateMatchScore Scenario.incoming Scenario.candidateA
                        (Scenario.boundary_rule conservative conservative)
    = Some score
    /\ matchLevel score = potential_match.
Proof.
  destruct (proj1 match_score_sum_and_classification
                  Scenario.incoming Scenario.candidateA
                  (Scenario.boundary_rule conservative conservative))
    as (score & E & _ & _ & _ & [_ P] & _).
  exists score. split; [exact E|].
  apply P. vm_compute in E. inversion E; subst; clear E. simpl.
  split; vm_compute; congruence.
Defined.

Lemma jaro_winkler_bonus_above_threshold_witness :
  exists jaro r,
    jaroSimilarity "MARTHA" "MARHTA" = Some jaro
    /\ jaroWinklerSimilarity "MARTHA" "MARHTA" = Some r
    /\ (r == with_prefix_bonus jaro "MARTHA" "MARHTA")%Q.
Proof.
  destruct (proj1 jaro_winkler_bonus_above_threshold "MARTHA" "MARHTA")
    as (jaro & E & _ & H).
  destruct H as (r & R & B).
  - vm_compute in E. inversion E; subst; clear E. vm_compute. discriminate.
  - exists jaro, r. auto.
Defined.

Lemma empty_value_is_missing_witness :
  compareFields (extractFieldValue Scenario.nameless Scenario.family_rule)
                (extractFieldValue Scenario.incoming Scenario.family_rule)
                Scenario.family_rule
  = Some (getNullScore moderate 10).
Proof.
  exact (proj1 (proj2 empty_value_is_missing)
               Scenario.nameless Scenario.incoming Scenario.family_rule
               (or_introl eq_refl)).
Defined.

(** ** Merging into an auto-matched entity *)

Import MissingData.

Section MergeProjections.

Variables newPatient existingPatient : FHIRPatient.

Ltac merge_cases :=
  unfold mergePatientData;
  destruct (no_items (identifier newPatient)); simpl;
  destruct (missing (birthDate newPatient)); simpl;
  destruct (missing (birthDate existingPatient)); simpl;
  destruct (missing (gender newPatient)); simpl;
  destruct (missing (gender existingPatient)); simpl;
  destruct (name_incomplete (name newPatient)); simpl;
  destruct (no_items (name existingPatient)); simpl;
  auto.

Lemma merge_identifier :
  identifier (mergePatientData newPatient existingPatient)
  = if no_items (identifier newPatient)
    then identifier existingPatient else identifier newPatient.
Proof. merge_cases. Qed.

Lemma merge_birthDate :
  birthDate (mergePatientData newPatient existingPatient)
  = if missing (birthDate newPatient)
    then if missing (birthDate existingPatient)
         then birthDate newPatient else birthDate existingPatient
    else birthDate newPatient.
Proof. merge_cases. Qed.

Lemma merge_gender :
  gender (mergePatientData newPatient existingPatient)
  = if missing (gender newPatient)
    then if missing (gender existingPatient)
         then gender newPatient else gender existingPatient
    else gender newPatient.
Proof. merge_cases. Qed.

Lemma merge_name :
  name (mergePatientData newPatient existingPatient)
  = if name_incomplete (name newPatient)
    then if no_items (name existingPatient)
         then name newPatient else name existingPatient
    else name newPatient.
Proof. merge_cases. Qed.

Lemma merge_frame :
  resourceType (mergePatientData newPatient existingPatient)
  = resourceType newPatient
  /\ active (mergePatientData newPatient existingPatient)
     = active newPatient
  /\ id (mergePatientData newPatient existingPatient) = id newPatient.
Proof. merge_cases. Qed.

End MergeProjections.

(** C9, as amended.  In [mergePatientData(newPatient, existingPatient)]
    a non-empty identifier list, a non-empty birth date and a
    non-empty gender of the new patient are unchanged, and so is its
    name list when the first name entry has a family name; an
    identifier list, birth date or gender that is missing is taken
    from the existing patient; a name list that is missing, empty or
    whose first entry has no family name is replaced as a whole by
    the non-empty name list of the existing patient.  Nothing else
    changes, apart from [id], which [processEntry] sets to the
    existing patient's. *)
Theorem merge_keeps_present_fields newPatient existingPatient :
  let merged := mergePatientData newPatient existingPatient in
  (no_items (identifier newPatient) = false ->
   identifier merged = identifier newPatient)
  /\ (missing (birthDate newPatient) = false ->
      birthDate merged = birthDate newPatient)
  /\ (missing (gender newPatient) = false ->
      gender merged = gender newPatient)
  /\ (name_incomplete (name newPatient) = false ->
      name merged = name newPatient)
  /\ (no_items (identifier newPatient) = true ->
      identifier merged = identifier existingPatient)
  /\ (missing (birthDate newPatient) = true ->
      missing (birthDate existingPatient) = false ->
      birthDate merged = birthDate existingPatient)
  /\ (missing (gender newPatient) = true ->
      missing (gender existingPatient) = false ->
      gender merged = gender existingPatient)
  /\ (name_incomplete (name newPatient) = true ->
      no_items (name existingPatient) = false ->
      name merged = name existingPatient)
  /\ resourceType merged = resourceType newPatient
  /\ active merged = active newPatient
  /\ id merged = id newPatient
  /\ (forall score rest,
        matchLevel score = auto_match ->
        resolveDuplicates newPatient ((existingPatient, score) :: rest)
        = (set_id merged (id existingPatient), true)).
Proof.
  pose proof (merge_identifier newPatient existingPatient) as I.
  pose proof (merge_birthDate newPatient existingPatient) as B.
  pose proof (merge_gender newPatient existingPatient) as G.
  pose proof (merge_name newPatient existingPatient) as N.
  pose proof (merge_frame newPatient existingPatient) as (F1 & F2 & F3).
  cbv zeta.
  repeat split; intros; auto.
  - rewrite I, H; reflexivity.
  - rewrite B, H; reflexivity.
  - rewrite G, H; reflexivity.
  - rewrite N, H; reflexivity.
  - rewrite I, H; reflexivity.
  - rewrite B, H, H0; reflexivity.
  - rewrite G, H, H0; reflexivity.
  - rewrite N, H, H0; reflexivity.
  - simpl. rewrite H. reflexivity.
Qed.

Lemma merge_keeps_present_fields_witness :
  identifier (mergePatientData Scenario.first_name_only Scenario.registered)
  = identifier Scenario.first_name_only
  /\ birthDate (mergePatientData Scenario.first_name_only Scenario.registered)
     = birthDate Scenario.first_name_only
  /\ gender (mergePatientData Scenario.first_name_only Scenario.registered)
     = gender Scenario.first_name_only
  /\ name (mergePatientData Scenario.first_name_only Scenario.registered)
     = name Scenario.registered.
Proof.
  pose proof (merge_keeps_present_fields
                Scenario.first_name_only Scenario.registered)
    as (I & B & G & _ & _ & _ & _ & N & _).
  split; [|split; [|split]].
  - apply I; reflexivity.
  - apply B; reflexivity.
  - apply G; reflexivity.
  - apply N; reflexivity.
Defined.

(** C9 as stated fails: the new patient has the given name "Tariro"
    (and no family name); after the merge both its name list and the
    given name read from it are the existing patient's. *)
Lemma merge_name_counterexample :
  extractFieldValue Scenario.first_name_only Scenario.given_rule
  = Some "Tariro"
  /\ name (mergePatientData Scenario.first_name_only Scenario.registered)
     = name Scenario.registered
  /\ name Scenario.registered <> name Scenario.first_name_only
  /\ extractFieldValue
       (mergePatientData Scenario.first_name_only Scenario.registered)
       Scenario.given_rule
     = Some "Rudo".
Proof.
  repeat split; try reflexivity. discriminate.
Qed.

(** ** The poller *)

Import Json Cdc.

Section FetchOrder.

Lemma session_leb_total a b :
  session_leb a b = true \/ session_leb b a = true.
Proof.
  unfold session_leb.
  destruct (Z.ltb_spec (s_ingested_at a) (s_ingested_at b)); auto.
  destruct (Z.ltb_spec (s_ingested_at b) (s_ingested_at a)); auto.
  destruct (Z.eqb_spec (s_ingested_at a) (s_ingested_at b)); [|lia].
  destruct (Z.eqb_spec (s_ingested_at b) (s_ingested_at a)); [|lia].
  destruct (Z.leb_spec (s_id a) (s_id b)); auto.
  destruct (Z.leb_spec (s_id b) (s_id a)); auto. lia.
Qed.

Lemma session_leb_position a b :
  session_leb a b = true <-> session_le a b.
Proof.
  unfold session_leb, session_le, position_le; simpl.
  rewrite orb_true_iff, andb_true_iff, Z.ltb_lt, Z.eqb_eq, Z.leb_le.
  tauto.
Qed.

Lemma session_le_trans a b c :
  session_le a b -> session_le b c -> session_le a c.
Proof.
  unfold session_le, position_le; simpl. lia.
Qed.

Lemma session_le_refl a : session_le a a.
Proof. unfold session_le, position_le; simpl. lia. Qed.

(** The [Date] of a timestamp: at or before it, by less than a
    millisecond, monotone, and the timestamp itself when that is a
    whole millisecond. *)
Lemma to_date_le t : (to_date t <= t)%Z.
Proof. unfold to_date. pose proof (Z.mul_div_le t 1000). lia. Qed.

Lemma to_date_near t : (t < to_date t + 1000)%Z.
Proof.
  unfold to_date. pose proof (Z.div_mod t 1000).
  pose proof (Z.mod_pos_bound t 1000). lia.
Qed.

Lemma to_date_mono a b : (a <= b)%Z -> (to_date a <= to_date b)%Z.
Proof.
  intros H. unfold to_date.
  pose proof (Z.div_le_mono a b 1000). lia.
Qed.

Lemma to_date_whole t : whole_ms t -> to_date t = t.
Proof.
  unfold whole_ms, to_date. intros H.
  pose proof (Z.div_mod t 1000). lia.
Qed.

Lemma to_date_is_whole t : whole_ms (to_date t).
Proof. unfold whole_ms, to_date. apply Z.mod_mul. lia. Qed.

(** A timestamp past a whole millisecond has its [Date] at or after
    it. *)
Lemma to_date_past_whole w t :
  whole_ms w -> (w < t)%Z -> (w <= to_date t)%Z.
Proof.
  intros H L. rewrite <- (to_date_whole H). apply to_date_mono. lia.
Qed.

(** On rows ingested at whole milliseconds the records are in the
    order of the rows. *)
Lemma to_record_le a b :
  whole_ms (s_ingested_at a) -> whole_ms (s_ingested_at b) ->
  session_le a b -> record_le (to_record a) (to_record b).
Proof.
  intros Ha Hb. unfold session_le, record_le, position_of; simpl.
  rewrite (to_date_whole Ha), (to_date_whole Hb). tauto.
Qed.

Lemma record_le_trans a b c :
  record_le a b -> record_le b c -> record_le a c.
Proof.
  unfold record_le, position_le, position_of; simpl. lia.
Qed.

Lemma record_le_refl a : record_le a a.
Proof. unfold record_le, position_le, position_of; simpl. lia. Qed.

Lemma insert_session_In x y : forall l,
    In y (insert_session x l) <-> y = x \/ In y l.
Proof.
  induction l as [|z l IH]; simpl.
  - intuition.
  - destruct (session_leb x z); simpl; rewrite ?IH; intuition.
Qed.

Lemma order_sessions_In y : forall l, In y (order_sessions l) <-> In y l.
Proof.
  induction l as [|x l IH]; simpl.
  - tauto.
  - rewrite insert_session_In, IH. intuition.
Qed.

Lemma In_firstn_In {A} (x : A) : forall n l, In x (firstn n l) -> In x l.
Proof.
  induction n; destruct l; simpl; intros H; try tauto.
  destruct H; auto.
Qed.

Let sorted := StronglySorted (fun a b => session_leb a b = true).

Lemma insert_session_sorted x : forall l,
    sorted l -> sorted (insert_session x l).
Proof.
  induction l as [|z l IH]; simpl; intros S.
  - constructor; [constructor | constructor].
  - inversion S as [|? ? S' F]; subst.
    destruct (session_leb x z) eqn:E.
    + constructor; [exact S|].
      constructor; [exact E|].
      eapply Forall_impl; [|exact F].
      intros c Hc. apply session_leb_position.
      eapply session_le_trans; apply session_leb_position; eauto.
    + constructor; [apply IH; exact S'|].
      apply Forall_forall. intros c Hc.
      apply insert_session_In in Hc. destruct Hc as [->|Hc].
      * destruct (session_leb_total x z); congruence.
      * rewrite Forall_forall in F. auto.
Qed.

Lemma order_sessions_sorted : forall l, sorted (order_sessions l).
Proof.
  induction l; simpl.
  - constructor.
  - apply insert_session_sorted; assumption.
Qed.

Lemma firstn_sorted {A} (R : A -> A -> Prop) : forall n l,
    StronglySorted R l -> StronglySorted R (firstn n l).
Proof.
  induction n; intros l S; simpl.
  - constructor.
  - destruct l; [constructor|].
    inversion S; subst. constructor; auto.
    apply Forall_forall. intros y Hy.
    match goal with H : Forall _ _ |- _ => rewrite Forall_forall in H;
                                           apply H end.
    eapply In_firstn_In; exact Hy.
Qed.

Lemma sorted_by_position : forall l,
    sorted l -> StronglySorted session_le l.
Proof.
  induction l as [|x l IH]; intros S.
  - constructor.
  - inversion S as [|? ? S' F]; subst. constructor; [apply IH; exact S'|].
    eapply Forall_impl; [|exact F].
    intros y Hy. apply session_leb_position; exact Hy.
Qed.

Lemma map_sorted : forall l,
    (forall s, In s l -> whole_ms (s_ingested_at s)) ->
    StronglySorted session_le l ->
    StronglySorted record_le (map to_record l).
Proof.
  induction l as [|x l IH]; simpl; intros W S.
  - constructor.
  - inversion S as [|? ? S' F]; subst. constructor; [apply IH; auto|].
    apply Forall_forall. intros y Hy.
    apply in_map_iff in Hy. destruct Hy as (z & <- & Hz).
    rewrite Forall_forall in F.
    apply to_record_le; auto.
Qed.

(** What [get_new_sessions] returns: rows of the source table
    strictly after the watermark timestamp, in ascending order of
    (timestamp, id), at most [batch_size] of them. *)
Lemma get_new_sessions_spec source db batch_size selected :
  get_new_sessions source db batch_size = Ok selected ->
  exists w rest table,
    cdc_watermark db = w :: rest
    /\ source (table_name w) = Some table
    /\ (forall s, In s selected ->
                  (last_ingested_at w < s_ingested_at s)%Z
                  /\ In s table)
    /\ StronglySorted session_le selected
    /\ List.length selected <= batch_size.
Proof.
  unfold get_new_sessions.
  destruct (cdc_watermark db) as [|w rest]; [discriminate|].
  destruct (source (table_name w)) as [table|] eqn:E; [|discriminate].
  intros H; inversion H; subst; clear H.
  exists w, rest, table.
  split; [reflexivity|]. split; [exact E|].
  split; [|split].
  - intros s Hs.
    apply In_firstn_In in Hs. rewrite order_sessions_In in Hs.
    apply filter_In in Hs. destruct Hs as [Hin Hs].
    apply Z.ltb_lt in Hs. auto.
  - apply sorted_by_position, firstn_sorted, order_sessions_sorted.
  - apply firstn_le_length.
Qed.

Lemma last_is_greatest {A} (R : A -> A -> Prop) :
  (forall a, R a a) ->
  forall init (final : A),
    StronglySorted R (init ++ [final]) ->
    forall r, In r (init ++ [final]) -> R r final.
Proof.
  intros Refl.
  induction init as [|x init IH]; simpl; intros final S r Hr.
  - destruct Hr as [<-|[]]. apply Refl.
  - inversion S as [|? ? S' F]; subst.
    destruct Hr as [<-|Hr].
    + rewrite Forall_forall in F. apply F.
      apply in_or_app; right; left; reflexivity.
    + eapply IH; eauto.
Qed.

Lemma sorted_last_is_max : forall init (final : CDCRecord),
    StronglySorted record_le (init ++ [final]) ->
    forall r, In r (init ++ [final]) -> record_le r final.
Proof. apply last_is_greatest. apply record_le_refl. Qed.

Lemma last_record {A} (l : list A) :
  l <> [] ->
  exists init final,
    l = init ++ [final]
    /\ nth_error l (List.length l - 1) = Some final.
Proof.
  intros H. destruct (exists_last H) as (init & final & ->).
  exists init, final. split; [reflexivity|].
  rewrite length_app; simpl.
  rewrite nth_error_app2 by lia.
  replace (List.length init + 1 - 1 - List.length init) with 0 by lia.
  reflexivity.
Qed.

End FetchOrder.

(** ** The failure ledger *)

Section Ledger.

Lemma has_session_In session_id rows :
  has_session session_id rows = true
  <-> exists f, In f rows /\ f_session_id f = session_id.
Proof.
  unfold has_session. rewrite existsb_exists.
  split; intros (f & I & E); exists f; split; auto.
  - apply Z.eqb_eq; exact E.
  - apply Z.eqb_eq; exact E.
Qed.

Lemma has_session_ids session_id rows :
  has_session session_id rows = true
  <-> In session_id (map f_session_id rows).
Proof.
  rewrite has_session_In, in_map_iff.
  split; intros (f & A & B); exists f; auto.
Qed.

Lemma map_preserves_ids (g : FailedRow -> FailedRow) rows :
  (forall f, f_session_id (g f) = f_session_id f) ->
  map f_session_id (map g rows) = map f_session_id rows.
Proof.
  intros H. rewrite map_map. apply map_ext. exact H.
Qed.

Lemma filter_keeps_unique (keep : FailedRow -> bool) : forall rows,
    NoDup (map f_session_id rows) ->
    NoDup (map f_session_id (filter keep rows)).
Proof.
  induction rows as [|f rows IH]; simpl; intros N; [constructor|].
  inversion N as [|? ? Hn N']; subst.
  destruct (keep f); simpl; auto.
  constructor; auto.
  intros Hin. apply Hn.
  apply in_map_iff in Hin. destruct Hin as (x & E & Hx).
  apply filter_In in Hx. apply in_map_iff. exists x; tauto.
Qed.

Lemma unique_entry : forall rows (a b : FailedRow),
    NoDup (map f_session_id rows) ->
    In a rows -> In b rows -> f_session_id a = f_session_id b -> a = b.
Proof.
  induction rows as [|f rows IH]; simpl; intros a b N A B E; [tauto|].
  inversion N as [|? ? Hn N']; subst.
  destruct A as [<-|A], B as [<-|B]; auto.
  - exfalso. apply Hn. rewrite E. apply in_map; exact B.
  - exfalso. apply Hn. rewrite <- E. apply in_map; exact A.
Qed.

Variable proposed : FailedRow.
Variable on_conflict : FailedRow -> FailedRow.
Hypothesis keeps_session :
  forall f, f_session_id (on_conflict f) = f_session_id f.

Let touch (f : FailedRow) : FailedRow :=
  if (f_session_id f =? f_session_id proposed)%Z then on_conflict f else f.

Lemma touch_session f : f_session_id (touch f) = f_session_id f.
Proof.
  unfold touch. destruct (f_session_id f =? f_session_id proposed)%Z; auto.
Qed.

Lemma upsert_unique db :
  ledger_unique db -> ledger_unique (upsert proposed on_conflict db).
Proof.
  unfold ledger_unique, upsert; simpl. intros N.
  destruct (has_session (f_session_id proposed) (cdc_failed_records db))
           eqn:E.
  - fold touch. rewrite map_preserves_ids; auto using touch_session.
  - rewrite map_app; simpl. apply NoDup_app; auto.
    + constructor; [simpl; tauto | constructor].
    + intros a Ha [<-|[]].
      apply has_session_ids in Ha. congruence.
Qed.

Lemma upsert_watermark db :
  cdc_watermark (upsert proposed on_conflict db) = cdc_watermark db.
Proof. reflexivity. Qed.

(** An upsert never removes the entry of a session. *)
Lemma upsert_keeps session_id db :
  in_ledger session_id db ->
  in_ledger session_id (upsert proposed on_conflict db).
Proof.
  unfold in_ledger, upsert; simpl. intros (row & I & E).
  destruct (has_session (f_session_id proposed) (cdc_failed_records db)).
  - exists (touch row). split.
    + apply in_map; exact I.
    + rewrite touch_session; exact E.
  - exists row. split; auto. apply in_or_app; auto.
Qed.

(** After an upsert the session of the proposed row has an entry. *)
Lemma upsert_records db :
  in_ledger (f_session_id proposed) (upsert proposed on_conflict db).
Proof.
  unfold in_ledger, upsert; simpl.
  destruct (has_session (f_session_id proposed) (cdc_failed_records db))
           eqn:E.
  - apply has_session_In in E. destruct E as (f & I & E).
    exists (touch f). split.
    + apply in_map; exact I.
    + rewrite touch_session; exact E.
  - exists proposed. split; auto. apply in_or_app; right; left; auto.
Qed.

(** The conflict branch: the one existing entry is rewritten by
    [on_conflict], every other row stays, no row is added. *)
Lemma upsert_existing db existing :
  ledger_unique db ->
  In existing (cdc_failed_records db) ->
  f_session_id existing = f_session_id proposed ->
  let rows' := cdc_failed_records (upsert proposed on_conflict db) in
  List.length rows' = List.length (cdc_failed_records db)
  /\ In (on_conflict existing) rows'
  /\ (forall other, In other rows' ->
                    f_session_id other = f_session_id proposed ->
                    other = on_conflict existing)
  /\ (forall other, f_session_id other <> f_session_id proposed ->
                    (In other rows' <-> In other (cdc_failed_records db))).
Proof.
  intros N I E. unfold upsert; simpl.
  assert (H : has_session (f_session_id proposed) (cdc_failed_records db)
              = true)
    by (apply has_session_In; eauto).
  rewrite H. fold touch.
  assert (T : touch existing = on_conflict existing)
    by (unfold touch; rewrite E, Z.eqb_refl; reflexivity).
  split; [apply length_map|]. split; [|split].
  - rewrite <- T. apply in_map; exact I.
  - intros other Ho Eo.
    apply in_map_iff in Ho. destruct Ho as (x & <- & Hx).
    rewrite touch_session in Eo.
    rewrite (unique_entry _ x existing N Hx I) by congruence.
    exact T.
  - intros other Ho. rewrite in_map_iff. split.
    + intros (x & <- & Hx). rewrite touch_session in Ho.
      unfold touch. apply Z.eqb_neq in Ho. rewrite Ho. exact Hx.
    + intros Hin. exists other. split; auto.
      unfold touch. apply Z.eqb_neq in Ho. rewrite Ho. reflexivity.
Qed.

End Ledger.

Lemma ledger_write_unique now w db :
  ledger_unique db -> ledger_unique (ledger_write now w db).
Proof.
  intros N. destruct w; simpl.
  - apply upsert_unique; auto.
  - apply upsert_unique; auto.
  - unfold ledger_unique, remove_failed_session; simpl.
    apply filter_keeps_unique; exact N.
  - unfold ledger_unique, update_failed_session_retry; simpl.
    rewrite map_preserves_ids; auto.
    intros f; destruct (f_id f =? p_id)%Z; reflexivity.
  - unfold ledger_unique, mark_synced; simpl.
    rewrite map_preserves_ids; auto.
    intros f; destruct (f_id f =? p_id)%Z; reflexivity.
Qed.

Lemma ledger_history_unique : forall writes db,
    ledger_unique db -> ledger_unique (ledger_history writes db).
Proof.
  unfold ledger_history.
  induction writes as [|w writes IH]; simpl; intros db N; auto.
  apply IH, ledger_write_unique, N.
Qed.

(** C8.  From the empty ledger on, after any history of ledger writes
    no two entries share a session id.  When [recordFailure] (or the
    SQL function [record_failed_session]) records a failure for a
    session that already has an entry, no row is added: the one entry
    of the session gets the new error, the current time as last
    attempt and its attempt count plus 1, its other columns are kept
    (the SQL function also stores the passed [synced] flag), and the
    other entries are the same as before. *)
Theorem one_ledger_entry_per_session :
  (forall source_table watermark_start writes,
      ledger_unique
        (ledger_history writes (setup source_table watermark_start)))
  /\ (forall db existing env record message,
        ledger_unique db ->
        In existing (cdc_failed_records db) ->
        f_session_id existing = id record ->
        rejects env (InsertFailedRecord record) = false ->
        let rows' :=
          cdc_failed_records (recordFailure env record message db) in
        List.length rows' = List.length (cdc_failed_records db)
        /\ exists updated,
            In updated rows'
            /\ f_last_error updated = Some message
            /\ f_last_attempt_at updated = Some (now_at env record)
            /\ f_attempt_count updated = (f_attempt_count existing + 1)%Z
            /\ same_entry_otherwise updated existing
            /\ (forall other, In other rows' ->
                              f_session_id other = id record ->
                              other = updated)
            /\ (forall other, f_session_id other <> id record ->
                              (In other rows'
                               <-> In other (cdc_failed_records db))))
  /\ (forall db existing p_session_id p_ingested_at p_error p_impilo_id
             p_data p_synced now,
        ledger_unique db ->
        In existing (cdc_failed_records db) ->
        f_session_id existing = p_session_id ->
        let rows' :=
          cdc_failed_records
            (record_failed_session p_session_id p_ingested_at p_error
                                   p_impilo_id p_data p_synced now db) in
        List.length rows' = List.length (cdc_failed_records db)
        /\ exists updated,
            In updated rows'
            /\ f_last_error updated = p_error
            /\ f_last_attempt_at updated = Some now
            /\ f_attempt_count updated = (f_attempt_count existing + 1)%Z
            /\ f_synced updated = p_synced
            /\ (forall other, In other rows' ->
                              f_session_id other = p_session_id ->
                              other = updated)).
Proof.
  split; [|split].
  - intros. apply ledger_history_unique.
    unfold ledger_unique; simpl. constructor.
  - intros db existing env record message N I E R.
    unfold recordFailure. rewrite R. unfold insert_failed_record.
    match goal with
    | |- context [upsert ?p ?oc db] =>
        destruct (@upsert_existing p oc (fun f => eq_refl) db existing N I E)
        as (L & In' & U & O)
    end.
    cbv zeta. split; [exact L|].
    eexists. split; [exact In'|]. simpl.
    repeat (split; [reflexivity|]).
    split; [|split].
    + unfold same_entry_otherwise; simpl. tauto.
    + exact U.
    + exact O.
  - intros db existing sid ts err iid d synced now N I E.
    unfold record_failed_session.
    match goal with
    | |- context [upsert ?p ?oc db] =>
        destruct (@upsert_existing p oc (fun f => eq_refl) db existing N I E)
        as (L & In' & U & O)
    end.
    cbv zeta. split; [exact L|].
    eexists. split; [exact In'|]. simpl.
    repeat (split; [reflexivity|]).
    exact U.
Qed.

Lemma one_ledger_entry_per_session_witness :
  List.length
    (cdc_failed_records
       (recordFailure Scenario.replayed Scenario.record7 "again"
                      Scenario.recorded)) = 2
  /\ exists updated,
      In updated
         (cdc_failed_records
            (recordFailure Scenario.replayed Scenario.record7 "again"
                           Scenario.recorded))
      /\ f_attempt_count updated = 2%Z
      /\ f_last_error updated = Some "again".
Proof.
  assert (N : ledger_unique Scenario.recorded).
  { unfold ledger_unique. vm_compute.
    repeat (constructor; [simpl; intuition discriminate|]). constructor. }
  assert (I : In Scenario.entry7 (cdc_failed_records Scenario.recorded)).
  { right. left. vm_compute. reflexivity. }
  destruct (proj1 (proj2 one_ledger_entry_per_session)
                  Scenario.recorded Scenario.entry7 Scenario.replayed
                  Scenario.record7 "again" N I eq_refl eq_refl)
    as (L & updated & U & E & _ & A & _).
  split; [exact L|].
  exists updated. auto.
Defined.

(** ** Poll cycles *)

Section PollCycle.

Variable cfg : Config.
Variable env : Env.

Lemma recordFailure_watermark record message db :
  cdc_watermark (recordFailure env record message db) = cdc_watermark db.
Proof.
  unfold recordFailure.
  destruct (rejects env (InsertFailedRecord record)); reflexivity.
Qed.

Lemma recordFailure_keeps session_id record message db :
  in_ledger session_id db ->
  in_ledger session_id (recordFailure env record message db).
Proof.
  unfold recordFailure. intros H.
  destruct (rejects env (InsertFailedRecord record)); auto.
  apply upsert_keeps; auto.
Qed.

Lemma recordFailure_records record message db :
  rejects env (InsertFailedRecord record) = false ->
  in_ledger (id record) (recordFailure env record message db).
Proof.
  unfold recordFailure. intros ->.
  unfold insert_failed_record.
  match goal with
  | |- context [upsert ?p ?oc db] =>
      exact (@upsert_records p oc (fun f => eq_refl) db)
  end.
Qed.

Lemma recordFailure_unique record message db :
  ledger_unique db -> ledger_unique (recordFailure env record message db).
Proof.
  unfold recordFailure. intros H.
  destruct (rejects env (InsertFailedRecord record)); auto.
  apply upsert_unique; auto.
Qed.

Lemma attempt_id record : id (snd (attempt env record)) = id record.
Proof.
  unfold attempt.
  destruct (convertToNeotreeEntry (data record) (impilo_uid record))
    as [[entry|message] d]; reflexivity.
Qed.

Lemma process_records_watermark : forall records db sc fc,
    cdc_watermark (fst (fst (process_records env records db sc fc)))
    = cdc_watermark db.
Proof.
  induction records as [|r records IH]; intros db sc fc; simpl; auto.
  destruct (attempt env r) as [[message|] r'];
    rewrite IH; auto using recordFailure_watermark.
Qed.

Lemma process_records_keeps session_id : forall records db sc fc,
    in_ledger session_id db ->
    in_ledger session_id (fst (fst (process_records env records db sc fc))).
Proof.
  induction records as [|r records IH]; intros db sc fc H; simpl; auto.
  destruct (attempt env r) as [[message|] r'];
    apply IH; auto using recordFailure_keeps.
Qed.

Lemma process_records_unique : forall records db sc fc,
    ledger_unique db ->
    ledger_unique (fst (fst (process_records env records db sc fc))).
Proof.
  induction records as [|r records IH]; intros db sc fc H; simpl; auto.
  destruct (attempt env r) as [[message|] r'];
    apply IH; auto using recordFailure_unique.
Qed.

(** A row whose processing failed and whose ledger write was
    accepted has an entry when the loop ends. *)
Lemma process_records_records record : forall records db sc fc,
    In record records ->
    failed env record ->
    rejects env (InsertFailedRecord (snd (attempt env record))) = false ->
    in_ledger (id record)
              (fst (fst (process_records env records db sc fc))).
Proof.
  unfold failed.
  induction records as [|r records IH]; intros db sc fc I F R; simpl.
  - destruct I.
  - destruct I as [->|I].
    + pose proof (attempt_id record) as Eid.
      destruct (attempt env record) as [[message|] r'] eqn:A; simpl in *;
        [|congruence].
      apply process_records_keeps. rewrite <- Eid.
      apply recordFailure_records; exact R.
    + destruct (attempt env r) as [[message|] r']; apply IH; auto.
Qed.

(** The two counters add up to the number of rows. *)
Lemma process_records_counts : forall records db sc fc,
    let '(_, sc', fc') := process_records env records db sc fc in
    sc' + fc' = sc + fc + List.length records.
Proof.
  induction records as [|r records IH]; intros db sc fc; simpl.
  - lia.
  - destruct (attempt env r) as [[message|] r'].
    + specialize (IH (recordFailure env r' message db) sc (S fc)).
      destruct (process_records env records _ sc (S fc)) as [[d a] b]. lia.
    + specialize (IH db (S sc) fc).
      destruct (process_records env records db (S sc) fc) as [[d a] b].
      lia.
Qed.

Lemma updateWatermark_ledger ts session_id count db :
  cdc_failed_records (updateWatermark cfg env ts session_id count db)
  = cdc_failed_records db.
Proof.
  unfold updateWatermark.
  destruct (rejects env UpdateWatermark); reflexivity.
Qed.

(** A cycle that fetched rows runs the loop and then writes the
    position of the last row. *)
Lemma poll_with_rows db rows :
  fetch env db = Ok rows ->
  rows <> [] ->
  exists init final,
    rows = init ++ [final]
    /\ pollForNewSessions cfg env db
       = updateWatermark cfg env (ingested_at final) (id final)
                         (List.length rows)
                         (fst (fst (process_records env rows db 0 0))).
Proof.
  intros F N. destruct (last_record N) as (init & final & E & L).
  exists init, final. split; [exact E|].
  unfold pollForNewSessions. rewrite F.
  destruct rows as [|r rows']; [congruence|].
  unfold processBatch.
  destruct (process_records env (r :: rows') db 0 0) as [[db1 sc] fc].
  rewrite L. reflexivity.
Qed.

Lemma fetch_spec db rows :
  fetch env db = Ok rows ->
  exists selected w rest,
    get_new_sessions (source env) db batchSize = Ok selected
    /\ rows = map to_record selected
    /\ cdc_watermark db = w :: rest
    /\ (forall s, In s selected ->
                  (last_ingested_at w < s_ingested_at s)%Z)
    /\ StronglySorted session_le selected
    /\ List.length rows <= batchSize.
Proof.
  unfold fetch. destruct (rejects env SelectNewSessions); [discriminate|].
  destruct (get_new_sessions (source env) db batchSize)
    as [selected|message] eqn:G; [|discriminate].
  intros H; inversion H; subst rows; clear H.
  destruct (get_new_sessions_spec _ _ _ G)
    as (w & rest & table & W & _ & A & S & L).
  exists selected, w, rest. repeat split; auto.
  - intros s Hs. apply A; exact Hs.
  - rewrite length_map. exact L.
Qed.

(** The rows of a fetch are rows of the table that the watermark
    names. *)
Lemma fetch_source db rows :
  fetch env db = Ok rows ->
  exists selected w rest table,
    rows = map to_record selected
    /\ cdc_watermark db = w :: rest
    /\ source env (table_name w) = Some table
    /\ forall s, In s selected -> In s table.
Proof.
  unfold fetch. destruct (rejects env SelectNewSessions); [discriminate|].
  destruct (get_new_sessions (source env) db batchSize)
    as [selected|message] eqn:G; [|discriminate].
  intros H; inversion H; subst rows; clear H.
  destruct (get_new_sessions_spec _ _ _ G)
    as (w & rest & table & W & T & A & _).
  exists selected, w, rest, table. repeat split; auto.
  intros s Hs. apply A; exact Hs.
Qed.

Lemma position_le_refl p : position_le p p.
Proof.
  unfold position_le. right. split; auto. destruct (snd p); auto. lia.
Qed.

Lemma position_le_opt_refl p : position_le_opt p p.
Proof. destruct p; simpl; auto using position_le_refl. Qed.

Lemma lastPosition_update p_table ts session_id count now db w rest :
  cdc_watermark db = w :: rest ->
  lastPosition (update_watermark p_table ts session_id count now db)
  = if String.eqb (table_name w) p_table
    then Some (ts, Some session_id)
    else lastPosition db.
Proof.
  unfold lastPosition, update_watermark; simpl. intros ->; simpl.
  destruct (String.eqb (table_name w) p_table); reflexivity.
Qed.

(** A cycle that fetched rows: the last record is the record of the
    last row that [get_new_sessions] returned. *)
Lemma poll_with_sessions db rows :
  fetch env db = Ok rows ->
  rows <> [] ->
  exists init final,
    get_new_sessions (source env) db batchSize = Ok (init ++ [final])
    /\ rows = map to_record (init ++ [final])
    /\ pollForNewSessions cfg env db
       = updateWatermark cfg env (to_date (s_ingested_at final)) (s_id final)
                         (List.length rows)
                         (fst (fst (process_records env rows db 0 0))).
Proof.
  intros F N.
  destruct (poll_with_rows db F N) as (initr & finalr & E & P).
  destruct (fetch_spec db F) as (selected & w & rest & G & M & _).
  assert (Ns : selected <> []) by (intros ->; apply N; exact M).
  destruct (last_record Ns) as (init & final & Es & _). subst selected.
  exists init, final. split; [exact G|]. split; [exact M|].
  rewrite M, map_app in E. simpl in E.
  apply app_inj_tail in E. destruct E as [_ <-].
  exact P.
Qed.

(** What one cycle does to the watermark position: nothing, or it
    sets it to the [Date] and id of the last row fetched, which was
    ingested after the watermark timestamp. *)
Lemma poll_position db :
  lastPosition (pollForNewSessions cfg env db) = lastPosition db
  \/ exists w rest table final,
      cdc_watermark db = w :: rest
      /\ source env (table_name w) = Some table
      /\ In final table
      /\ (last_ingested_at w < s_ingested_at final)%Z
      /\ lastPosition (pollForNewSessions cfg env db)
         = Some (to_date (s_ingested_at final), Some (s_id final)).
Proof.
  destruct (fetch env db) as [rows|message] eqn:F.
  - destruct rows as [|r rows'].
    + left. unfold pollForNewSessions. rewrite F. reflexivity.
    + destruct (poll_with_sessions db F) as (init & final & G & _ & P);
        [discriminate|].
      rewrite P. clear P.
      destruct (get_new_sessions_spec _ _ _ G)
        as (w & rest & table & W & T & A & _).
      destruct (A final) as [Past Member];
        [apply in_or_app; right; left; reflexivity|].
      unfold updateWatermark.
      destruct (rejects env UpdateWatermark).
      * left. unfold lastPosition. rewrite process_records_watermark.
        reflexivity.
      * rewrite lastPosition_update with (w := w) (rest := rest)
          by (rewrite process_records_watermark; exact W).
        destruct (String.eqb (table_name w) (sourceTable cfg)).
        -- right. exists w, rest, table, final. auto.
        -- left. unfold lastPosition. rewrite process_records_watermark.
           reflexivity.
  - left. unfold pollForNewSessions. rewrite F. reflexivity.
Qed.

(** Over rows ingested at whole milliseconds one cycle never moves
    the watermark back. *)
Lemma poll_monotone db :
  whole_ms_source env ->
  position_le_opt (lastPosition db)
                  (lastPosition (pollForNewSessions cfg env db)).
Proof.
  intros Whole.
  destruct (poll_position db)
    as [-> | (w & rest & table & final & W & T & I & Past & ->)].
  - apply position_le_opt_refl.
  - unfold lastPosition. rewrite W. simpl. left. simpl.
    rewrite (to_date_whole (Whole _ _ _ T I)). exact Past.
Qed.

(** Whatever the rows, the millisecond of the watermark timestamp
    never goes back in one cycle. *)
Lemma poll_date_monotone db w rest :
  cdc_watermark db = w :: rest ->
  exists w' rest',
    cdc_watermark (pollForNewSessions cfg env db) = w' :: rest'
    /\ (to_date (last_ingested_at w) <= to_date (last_ingested_at w'))%Z.
Proof.
  intros W.
  destruct (poll_position db)
    as [E | (w0 & rest0 & table & final & W0 & T & I & Past & E)];
    unfold lastPosition in E; rewrite ?W in E;
    destruct (cdc_watermark (pollForNewSessions cfg env db))
      as [|w' rest']; try discriminate;
    exists w', rest'; (split; [reflexivity|]);
    inversion E as [[Ets Eid]].
  - lia.
  - rewrite W in W0. inversion W0; subst w0 rest0.
    rewrite Ets, (to_date_whole (to_date_is_whole _)).
    apply to_date_mono. lia.
Qed.

(** A cycle whose watermark write is accepted leaves the watermark
    at the last record; over rows ingested at whole milliseconds
    that is the greatest record of the batch. *)
Lemma poll_advances db rows :
  fetch env db = Ok rows ->
  rows <> [] ->
  watermark_configured cfg db ->
  rejects env UpdateWatermark = false ->
  exists final,
    In final rows
    /\ lastPosition (pollForNewSessions cfg env db)
       = Some (position_of final)
    /\ (whole_ms_source env -> forall r, In r rows -> record_le r final).
Proof.
  intros F N (w & rest & W & T) R.
  destruct (poll_with_sessions db F N) as (init & final & G & M & P).
  exists (to_record final). split; [|split].
  - rewrite M. apply in_map. apply in_or_app; right; left; reflexivity.
  - rewrite P. unfold updateWatermark. rewrite R.
    rewrite lastPosition_update with (w := w) (rest := rest)
      by (rewrite process_records_watermark; exact W).
    rewrite T, String.eqb_refl. reflexivity.
  - intros Whole.
    destruct (get_new_sessions_spec _ _ _ G)
      as (w' & rest' & table & W' & T' & A & S & _).
    assert (Ws : forall s, In s (init ++ [final]) ->
                           whole_ms (s_ingested_at s)).
    { intros s Hs. apply (Whole _ _ _ T'). apply A; exact Hs. }
    pose proof (map_sorted Ws S) as Sr.
    rewrite map_app in Sr. simpl in Sr.
    rewrite M, map_app. simpl.
    apply sorted_last_is_max; exact Sr.
Qed.

End PollCycle.

(** Whether every row of the scenario tables was ingested at a whole
    millisecond is decided by evaluation. *)
Ltac whole_ms_table :=
  let table := fresh "table" in
  let rows := fresh "rows" in
  let s := fresh "s" in
  let T := fresh "T" in
  let I := fresh "I" in
  unfold whole_ms_source; intros table rows s T I;
  cbv beta iota delta -[String.eqb] in T;
  match type of T with
  | context [String.eqb ?a ?b] => destruct (String.eqb a b)
  end; [|discriminate];
  inversion T; subst rows; simpl in I;
  repeat (destruct I as [<-|I]; [reflexivity|]); destruct I.

(** A cycle that runs without another one in between is the two
    steps one after the other. *)
Lemma cycle_in_two_steps cfg env db :
  Interleaving.run cfg [Interleaving.Select env; Interleaving.Process 0 env]
                   db
  = {| Interleaving.store := pollForNewSessions cfg env db;
       Interleaving.fetched := [] |}.
Proof.
  unfold Interleaving.run, pollForNewSessions. simpl.
  destruct (fetch env db) as [[|r rows]|message]; reflexivity.
Qed.

(** C2, as amended.  Over poll cycles that run one after the other,
    a cycle over rows ingested at whole milliseconds leaves the
    watermark position at or after the position before it, in the
    order (timestamp, then row id).  A cycle that fetches no row
    leaves the state as it is.  A cycle that fetches rows gets rows
    ingested strictly after the watermark timestamp, in ascending
    order of (timestamp, id); a rejected watermark statement leaves
    the position as it is; and when the statement is accepted on the
    row of the configured table, over rows ingested at whole
    milliseconds, the new position is that of a fetched row that is
    at or after every row of the batch. *)
Theorem sequential_watermark_never_moves_back :
  (forall cfg envs env db,
      whole_ms_source env ->
      position_le_opt
        (lastPosition (poll_cycles cfg envs db))
        (lastPosition (poll_cycles cfg (envs ++ [env]) db)))
  /\ (forall cfg env db,
        fetch env db = Ok [] -> pollForNewSessions cfg env db = db)
  /\ (forall cfg env db rows,
        fetch env db = Ok rows ->
        rows <> [] ->
        (exists selected w rest,
            rows = map to_record selected
            /\ cdc_watermark db = w :: rest
            /\ (forall s, In s selected ->
                          (last_ingested_at w < s_ingested_at s)%Z)
            /\ StronglySorted session_le selected)
        /\ (rejects env UpdateWatermark = true ->
            lastPosition (pollForNewSessions cfg env db) = lastPosition db)
        /\ (watermark_configured cfg db ->
            rejects env UpdateWatermark = false ->
            whole_ms_source env ->
            exists final,
              In final rows
              /\ lastPosition (pollForNewSessions cfg env db)
                 = Some (position_of final)
              /\ forall r, In r rows -> record_le r final)).
Proof.
  split; [|split].
  - intros cfg envs env db Whole. unfold poll_cycles.
    rewrite fold_left_app; simpl. apply poll_monotone; exact Whole.
  - intros cfg env db F. unfold pollForNewSessions. rewrite F. reflexivity.
  - intros cfg env db rows F N.
    destruct (fetch_spec env db F) as (selected & w & rest & _ & M & W & A & S & _).
    split; [exists selected, w, rest; auto|].
    split.
    + intros R.
      destruct (poll_with_rows cfg env db F N) as (init & final & _ & P).
      rewrite P. unfold updateWatermark. rewrite R.
      unfold lastPosition. rewrite process_records_watermark. reflexivity.
    + intros C R Whole.
      destruct (@poll_advances cfg env db rows F N C R)
        as (final & I & P & Max).
      exists final. auto.
Qed.

Lemma sequential_watermark_never_moves_back_witness :
  exists final,
    In final [Scenario.record1; Scenario.record7]
    /\ lastPosition
         (pollForNewSessions Scenario.cfg Scenario.healthy Scenario.fresh)
       = Some (position_of final)
    /\ forall r,
        In r [Scenario.record1; Scenario.record7] -> record_le r final.
Proof.
  refine (proj2 (proj2 (proj2 (proj2 sequential_watermark_never_moves_back)
                              Scenario.cfg Scenario.healthy Scenario.fresh
                              [Scenario.record1; Scenario.record7]
                              eq_refl _))
                _ eq_refl _).
  - discriminate.
  - eexists; eexists; split; reflexivity.
  - whole_ms_table.
Defined.

(** C2 as stated fails, in two ways.  Rows ingested within one
    millisecond: after the cycle that finds session 5 the position is
    (0, 5); the next cycle fetches sessions 5 and 3, ingested 0.7 ms
    and 0.9 ms after the watermark timestamp 0, and leaves the
    position at (0, 3), which is before (0, 5) and is not the greatest
    position of the batch.  Cycles that overlap: the cycle that
    fetched sessions 1 and 7 ends first and leaves the position at
    (200 ms, 7); the cycle that fetched session 1 alone then ends and
    sets it to (100 ms, 1). *)
Lemma watermark_moves_back_counterexample :
  (lastPosition (poll_cycles Scenario.cfg [DateScenario.first]
                             Scenario.fresh)
   = Some (0%Z, Some 5%Z)
   /\ fetch DateScenario.second
            (poll_cycles Scenario.cfg [DateScenario.first] Scenario.fresh)
      = Ok [to_record DateScenario.session5;
            to_record DateScenario.session3]
   /\ lastPosition (poll_cycles Scenario.cfg
                                ([DateScenario.first]
                                   ++ [DateScenario.second])
                                Scenario.fresh)
      = Some (0%Z, Some 3%Z)
   /\ ~ position_le_opt
          (lastPosition (poll_cycles Scenario.cfg [DateScenario.first]
                                     Scenario.fresh))
          (lastPosition (poll_cycles Scenario.cfg
                                     ([DateScenario.first]
                                        ++ [DateScenario.second])
                                     Scenario.fresh)))
  /\ (lastPosition
        (Interleaving.store
           (Interleaving.run Scenario.cfg OverlapScenario.second_ends_first
                             Scenario.fresh))
      = Some (200000%Z, Some 7%Z)
      /\ lastPosition
           (Interleaving.store
              (Interleaving.run Scenario.cfg OverlapScenario.first_ends_last
                                Scenario.fresh))
         = Some (100000%Z, Some 1%Z)).
Proof.
  split; [split; [|split; [|split]] | split].
  - vm_compute. reflexivity.
  - vm_compute. reflexivity.
  - vm_compute. reflexivity.
  - intros H.
    assert (E1 : lastPosition (poll_cycles Scenario.cfg [DateScenario.first]
                                           Scenario.fresh)
                 = Some (0%Z, Some 5%Z)) by (vm_compute; reflexivity).
    assert (E2 : lastPosition (poll_cycles Scenario.cfg
                                           ([DateScenario.first]
                                              ++ [DateScenario.second])
                                           Scenario.fresh)
                 = Some (0%Z, Some 3%Z)) by (vm_compute; reflexivity).
    rewrite E1, E2 in H. unfold position_le_opt, position_le in H.
    simpl in H. lia.
  - vm_compute. reflexivity.
  - vm_compute. reflexivity.
Qed.

(** ** A failure that is not recorded *)

Section LostRow.

Variable cfg : Config.

(** When no row of the table is past the watermark timestamp, a
    cycle changes nothing. *)
Lemma poll_idle env db w rest table :
  cdc_watermark db = w :: rest ->
  source env (table_name w) = Some table ->
  (forall s, In s table -> (s_ingested_at s <= last_ingested_at w)%Z) ->
  pollForNewSessions cfg env db = db
  /\ (fetch env db = Ok [] \/ exists message, fetch env db = Throw message).
Proof.
  intros W T Old.
  assert (G : get_new_sessions (source env) db batchSize = Ok []).
  { unfold get_new_sessions. rewrite W, T.
    replace (filter (fun s => (last_ingested_at w <? s_ingested_at s)%Z)
                    table) with (@nil Session); [reflexivity|].
    symmetry. clear T. induction table as [|s table IH]; [reflexivity|].
    simpl. destruct (Z.ltb_spec (last_ingested_at w) (s_ingested_at s)).
    - specialize (Old s (or_introl eq_refl)). lia.
    - apply IH. intros x Hx. apply Old. right. exact Hx. }
  unfold pollForNewSessions, fetch. rewrite G.
  destruct (rejects env SelectNewSessions); split; eauto.
Qed.

Lemma poll_cycles_idle (table : list Session) : forall envs db w rest,
    cdc_watermark db = w :: rest ->
    (forall env, In env envs -> source env (table_name w) = Some table) ->
    (forall s, In s table -> (s_ingested_at s <= last_ingested_at w)%Z) ->
    poll_cycles cfg envs db = db.
Proof.
  induction envs as [|env envs IH]; intros db w rest W T Old;
    [reflexivity|].
  unfold poll_cycles. simpl.
  destruct (@poll_idle env db w rest table W) as [-> _]; auto.
  - apply T. left. reflexivity.
  - apply (IH db w rest W); auto.
    intros e He. apply T. right. exact He.
Qed.

End LostRow.

(** C1: what the code does at the failing input.  In a cycle where
    the ledger insert is rejected, sessions 1 and 7 are fetched and
    fail processing; afterwards the ledger has no entry, the
    watermark is at the position of session 7, and no later cycle
    over the same table fetches a row (as long as cycles do not
    overlap): the two sessions are neither in the ledger nor ever
    processed again. *)
Theorem rejected_ledger_write_loses_row :
  is_uuid Scenario.uuid7 = true
  /\ fetch Scenario.ledger_down Scenario.fresh
     = Ok [Scenario.record1; Scenario.record7]
  /\ failed Scenario.ledger_down Scenario.record1
  /\ failed Scenario.ledger_down Scenario.record7
  /\ cdc_failed_records
       (pollForNewSessions Scenario.cfg Scenario.ledger_down Scenario.fresh)
     = []
  /\ lastPosition (pollForNewSessions Scenario.cfg Scenario.ledger_down
                                      Scenario.fresh)
     = Some (200000%Z, Some 7%Z)
  /\ (forall envs env',
         (forall e, In e (envs ++ [env']) ->
                    source e "sessions"
                    = Some [Scenario.session7; Scenario.session1]) ->
         let later :=
           poll_cycles Scenario.cfg envs
                       (pollForNewSessions Scenario.cfg Scenario.ledger_down
                                           Scenario.fresh) in
         cdc_failed_records later = []
         /\ (fetch env' later = Ok []
             \/ exists message, fetch env' later = Throw message))
  /\ ~ accounted_for Scenario.cfg Scenario.ledger_down Scenario.fresh.
Proof.
  assert (F1 : failed Scenario.ledger_down Scenario.record1)
    by (unfold failed; vm_compute; discriminate).
  assert (F7 : failed Scenario.ledger_down Scenario.record7)
    by (unfold failed; vm_compute; discriminate).
  split; [vm_compute; reflexivity|].
  split; [vm_compute; reflexivity|].
  split; [exact F1|]. split; [exact F7|].
  split; [vm_compute; reflexivity|].
  split; [vm_compute; reflexivity|].
  split.
  - intros envs env' Same later.
    set (after := pollForNewSessions Scenario.cfg Scenario.ledger_down
                                     Scenario.fresh) in *.
    assert (W : exists w rest,
               cdc_watermark after = w :: rest
               /\ table_name w = "sessions"
               /\ last_ingested_at w = 200000%Z).
    { eexists. eexists. vm_compute. repeat split. }
    destruct W as (w & rest & W & Tn & Ts).
    assert (Old : forall s, In s [Scenario.session7; Scenario.session1] ->
                            (s_ingested_at s <= last_ingested_at w)%Z).
    { rewrite Ts. intros s [<-|[<-|[]]]; vm_compute; discriminate. }
    assert (Idle : later = after).
    { unfold later.
      apply (@poll_cycles_idle Scenario.cfg
               [Scenario.session7; Scenario.session1] envs after w rest W);
        [|exact Old].
      intros e He. rewrite Tn. apply Same. apply in_or_app. left. exact He. }
    rewrite Idle. split; [vm_compute; reflexivity|].
    apply (@poll_idle Scenario.cfg env' after w rest
             [Scenario.session7; Scenario.session1] W); [|exact Old].
    rewrite Tn. apply Same. apply in_or_app. right. left. reflexivity.
  - intros A.
    destruct (A [Scenario.session1; Scenario.session7] Scenario.session7
                eq_refl eq_refl)
      as [_ L].
    + right; left; reflexivity.
    + destruct (L F7) as (row & I & _). vm_compute in I. exact I.
Qed.

(** ** What the failure ledger stores *)

Import Codec.

Section TokenFormat.

Lemma b64_digit_in n : In (b64_digit n) alphabet \/ b64_digit n = pad.
Proof.
  unfold b64_digit.
  destruct (nth_in_or_default (N.to_nat n) alphabet pad); auto.
Qed.

(** A token [base64(iv):base64(data)] starts with a base64 digit,
    the padding character or the colon. *)
Lemma token_head ivBytes encrypted c tail :
  base64 ivBytes ++ ":"%char :: base64 encrypted = c :: tail ->
  In c alphabet \/ c = pad \/ c = ":"%char.
Proof.
  destruct ivBytes as [|a [|b [|c0 more]]]; cbn [base64 app]; intros H;
    inversion H; subst; auto;
    match goal with
    | |- In (b64_digit ?n) _ \/ _ => destruct (b64_digit_in n); auto
    end.
Qed.

Lemma brace_is_no_token_head :
  ~ (In "{"%char alphabet \/ "{"%char = pad \/ "{"%char = ":"%char).
Proof.
  intros [H|[H|H]]; try discriminate.
  assert (E : existsb (Ascii.eqb "{"%char) alphabet = true).
  { apply existsb_exists. exists "{"%char.
    split; [exact H | apply Ascii.eqb_refl]. }
  vm_compute in E. discriminate.
Qed.

(** The output of [encryptData] is in the token format. *)
Lemma encryptData_format aes key ivBytes plaintext :
  iv_cipher_format (encryptedValue (encryptData aes key ivBytes plaintext)).
Proof.
  unfold iv_cipher_format, encryptData; simpl.
  exists ivBytes, (aes key ivBytes (JS.chars plaintext)).
  unfold JS.chars. apply list_ascii_of_string_of_list_ascii.
Qed.

End TokenFormat.

(** C3: what the code does at the failing input.  The source rows
    are sessions 1 and 7, session 7 with a well-formed [impilo_uid];
    both lack script data, so [processEntry] rejects them, and every
    statement is accepted.  After the poll cycle the ledger holds one
    entry for each.  The [data] column of the entry of session 7 is
    the JSON text of the payload (with [impilo_uid] set on it), its
    [impilo_id] column is NULL; the [data] value is not in the format
    [ivBase64:cipherBase64] and is not the output of [encryptData]
    for any cipher, key, IV or plaintext.  Whatever the environment
    and the record, the row that [recordFailure] inserts for a
    session without an entry holds [JSON.stringify(record.data)] and
    [record.impilo_id || null] as they are. *)
Theorem failure_ledger_holds_plaintext :
  is_uuid Scenario.uuid7 = true
  /\ cdc_failed_records
       (pollForNewSessions Scenario.cfg Scenario.healthy Scenario.fresh)
     = [Scenario.entry1; Scenario.entry7]
  /\ f_data Scenario.entry7 = stringify Scenario.incomplete_sent
  /\ f_impilo_id Scenario.entry7 = None
  /\ ~ iv_cipher_format (f_data Scenario.entry7)
  /\ (forall aes key ivBytes plaintext,
        encryptedValue (encryptData aes key ivBytes plaintext)
        <> f_data Scenario.entry7)
  /\ (forall env record message db,
        rejects env (InsertFailedRecord record) = false ->
        ~ in_ledger (id record) db ->
        exists e,
          In e (cdc_failed_records (recordFailure env record message db))
          /\ f_session_id e = id record
          /\ f_data e = stringify (data record)
          /\ f_impilo_id e = JS.or_null (impilo_id record)).
Proof.
  assert (N : ~ iv_cipher_format (f_data Scenario.entry7)).
  { intros (ivBytes & encrypted & H).
    vm_compute in H.
    match type of H with
    | ?c :: ?tail = _ =>
        symmetry in H; apply token_head in H;
        apply brace_is_no_token_head; exact H
    end. }
  split; [vm_compute; reflexivity|].
  split; [vm_compute; reflexivity|].
  split; [reflexivity|]. split; [reflexivity|]. split; [exact N|].
  split.
  - intros aes key ivBytes plaintext E. apply N. rewrite <- E.
    apply encryptData_format.
  - intros env record message db R A.
    unfold recordFailure. rewrite R.
    unfold insert_failed_record, upsert. simpl.
    destruct (has_session (id record) (cdc_failed_records db)) eqn:H.
    + exfalso. apply A. apply has_session_In in H. exact H.
    + eexists. split; [apply in_or_app; right; left; reflexivity|].
      simpl. auto.
Qed.

(** ** The poll schedule *)

Import Scheduler.

(** C7, as amended.  A poll tick starts a cycle exactly when the poll
    task is scheduled and [isPolling] is set, whatever the number of
    cycles still running; it is skipped when the service is stopped
    or not started; once the service is started, each of [n]
    successive ticks starts a cycle, so [n] cycles run at once when
    none has ended. *)
Theorem poll_tick_skipped_only_when_stopped :
  (forall s, starts_cycle s = pollTask s && isPolling s)
  /\ (forall s, isPolling s = false -> step s PollTick = s)
  /\ (forall n,
        pollsRunning (run (CallStart true :: repeat PollTick n) initial) = n).
Proof.
  split; [|split].
  - intros s. unfold starts_cycle; simpl.
    destruct (pollTask s && isPolling s); simpl.
    + apply Nat.ltb_lt. lia.
    + apply Nat.ltb_irrefl.
  - intros s H. simpl. rewrite H, andb_false_r. reflexivity.
  - intros n. unfold run; simpl.
    assert (G : forall k s,
               pollTask s = true -> isPolling s = true ->
               pollsRunning (fold_left step (repeat PollTick k) s)
               = k + pollsRunning s).
    { induction k as [|k IH]; intros s T P; simpl; auto.
      rewrite T, P; simpl. rewrite IH by reflexivity. simpl. lia. }
    rewrite G by reflexivity. simpl. lia.
Qed.

Lemma poll_tick_skipped_only_when_stopped_witness :
  step (run [CallStart true; PollTick; CallStop] initial) PollTick
  = run [CallStart true; PollTick; CallStop] initial.
Proof.
  exact (proj1 (proj2 poll_tick_skipped_only_when_stopped)
               (run [CallStart true; PollTick; CallStop] initial) eq_refl).
Defined.

(** C7 as stated fails: after [start()] and one tick a cycle is
    running, and the next tick starts a second one. *)
Lemma overlapping_polls_counterexample :
  pollsRunning (run [CallStart true; PollTick] initial) = 1
  /\ starts_cycle (run [CallStart true; PollTick] initial) = true
  /\ pollsRunning (run [CallStart true; PollTick; PollTick] initial) = 2
  /\ ~ never_overlaps.
Proof.
  repeat (split; [reflexivity|]).
  intros H. specialize (H [CallStart true; PollTick]).
  simpl in H. discriminate H. lia.
Qed.

(** ** Levenshtein distance *)

Import EditDistance.

Section LevenshteinMatrix.

Lemma distance_nil_r a : distance a [] = List.length a.
Proof. destruct a; reflexivity. Qed.

Lemma distance_cons x a y b :
  distance (x :: a) (y :: b)
  = Nat.min (Nat.min (distance a (y :: b) + 1) (distance (x :: a) b + 1))
            (distance a b + subst_cost x y).
Proof. reflexivity. Qed.

Lemma matrix_row_first : forall rest b,
    matrix_row [] b rest = seq (List.length b) (S (List.length rest)).
Proof.
  induction rest as [|y rest IH]; intros b.
  - reflexivity.
  - cbn [matrix_row]. rewrite IH. reflexivity.
Qed.

(** [lev_row] turns row [i-1] into the cells of row [i] to the right
    of the given one. *)
Lemma lev_row_matrix c1 a : forall s2 b,
    matrix_row (c1 :: a) b s2
    = distance (c1 :: a) b
      :: lev_row c1 s2 (matrix_row a b s2) (distance (c1 :: a) b).
Proof.
  induction s2 as [|c2 s2 IH]; intros b.
  - reflexivity.
  - cbn [matrix_row]. rewrite (IH (c2 :: b)). f_equal.
    destruct s2; cbn [matrix_row lev_row]; rewrite distance_cons;
      reflexivity.
Qed.

Lemma lev_rows_matrix s2 : forall s1 a,
    lev_rows s1 s2 (List.length a) (matrix_row a [] s2)
    = matrix_row (rev s1 ++ a) [] s2.
Proof.
  induction s1 as [|c1 s1 IH]; intros a.
  - reflexivity.
  - cbn [lev_rows rev].
    rewrite <- app_assoc. cbn [app].
    rewrite <- IH. cbn [List.length]. f_equal.
    rewrite lev_row_matrix. rewrite distance_nil_r. reflexivity.
Qed.

Lemma matrix_row_last a : forall rest b,
    last (matrix_row a b rest) 0 = distance a (rev rest ++ b).
Proof.
  induction rest as [|y rest IH]; intros b.
  - reflexivity.
  - cbn [matrix_row rev]. rewrite <- app_assoc. cbn [app].
    rewrite <- IH.
    destruct rest; reflexivity.
Qed.

Lemma falsy_toLowerCase s : JS.falsy s = true <-> toLowerCase s = [].
Proof. destruct s; simpl; split; try reflexivity; discriminate. Qed.

End LevenshteinMatrix.

(** With an empty argument the call returns at once, with the
    lengths of the strings as they are passed. *)
Lemma levenshtein_empty str1 str2 :
  JS.falsy str1 || JS.falsy str2 = true ->
  levenshteinDistance str1 str2
  = Nat.max (String.length str1) (String.length str2).
Proof. unfold levenshteinDistance. intros ->. reflexivity. Qed.

(** Otherwise it fills the matrix over the lower-cased strings. *)
Lemma levenshtein_matrix str1 str2 :
  JS.falsy str1 = false ->
  JS.falsy str2 = false ->
  levenshteinDistance str1 str2
  = distance (rev (toLowerCase str1)) (rev (toLowerCase str2)).
Proof.
  unfold levenshteinDistance. intros -> ->. cbn [orb].
  pose proof (matrix_row_first (toLowerCase str2) []) as R.
  pose proof (lev_rows_matrix (toLowerCase str2) (toLowerCase str1) [])
    as M.
  cbn [List.length] in R, M. rewrite <- R, M.
  rewrite matrix_row_last. rewrite !app_nil_r. reflexivity.
Qed.

(** X1.  With two non-empty arguments [levenshteinDistance] returns
    the cell [d(len1, len2)] of the recurrence [d(0, j) = j],
    [d(i, 0) = i],
    [d(i, j) = min(d(i-1, j) + 1, d(i, j-1) + 1, d(i-1, j-1) + cost)]
    over the lower-cased strings; with an empty argument it returns
    the greater of the lengths of the strings as they are passed. *)
Theorem levenshtein_computes_recurrence str1 str2 :
  (JS.falsy str1 = false ->
   JS.falsy str2 = false ->
   levenshteinDistance str1 str2
   = distance (rev (toLowerCase str1)) (rev (toLowerCase str2)))
  /\ (JS.falsy str1 || JS.falsy str2 = true ->
      levenshteinDistance str1 str2
      = Nat.max (String.length str1) (String.length str2)).
Proof.
  split; [apply levenshtein_matrix | apply levenshtein_empty].
Qed.

Lemma levenshtein_computes_recurrence_witness :
  levenshteinDistance "Moyo" "MAYA"
  = distance (rev (toLowerCase "Moyo")) (rev (toLowerCase "MAYA"))
  /\ levenshteinDistance "Moyo" EmptyString = 4.
Proof.
  split.
  - apply (proj1 (levenshtein_computes_recurrence "Moyo" "MAYA"));
      reflexivity.
  - apply (proj2 (levenshtein_computes_recurrence "Moyo" EmptyString)).
    reflexivity.
Defined.

Section RecurrenceFacts.

Lemma subst_cost_sym x y : subst_cost x y = subst_cost y x.
Proof. unfold subst_cost. rewrite Ascii.eqb_sym. reflexivity. Qed.

Lemma distance_sym : forall a b, distance a b = distance b a.
Proof.
  induction a as [|x a IHa]; intros b.
  - rewrite distance_nil_r. reflexivity.
  - induction b as [|y b IHb].
    + rewrite distance_nil_r. reflexivity.
    + rewrite !distance_cons.
      rewrite (IHa (y :: b)), IHb, (IHa b), (subst_cost_sym x y). lia.
Qed.

Lemma distance_upper : forall a b,
    distance a b <= Nat.max (List.length a) (List.length b).
Proof.
  induction a as [|x a IHa]; intros b.
  - simpl. lia.
  - induction b as [|y b IHb].
    + rewrite distance_nil_r. lia.
    + rewrite distance_cons. specialize (IHa b).
      unfold subst_cost. cbn [List.length].
      destruct (Ascii.eqb x y); lia.
Qed.

Lemma distance_lower : forall a b,
    List.length a <= List.length b + distance a b
    /\ List.length b <= List.length a + distance a b.
Proof.
  induction a as [|x a IHa]; intros b.
  - simpl. lia.
  - induction b as [|y b IHb].
    + rewrite distance_nil_r. simpl. lia.
    + rewrite distance_cons.
      pose proof (IHa b). pose proof (IHa (y :: b)).
      cbn [List.length] in *. lia.
Qed.

Lemma distance_zero : forall a b, distance a b = 0 <-> a = b.
Proof.
  induction a as [|x a IHa]; intros b.
  - simpl. destruct b; simpl; split; intros H; try discriminate; auto.
  - induction b as [|y b IHb].
    + rewrite distance_nil_r. split; discriminate.
    + rewrite distance_cons. unfold subst_cost.
      destruct (Ascii.eqb_spec x y) as [->|N].
      * split; intros H.
        -- f_equal. apply IHa. lia.
        -- inversion H; subst.
           assert (distance b b = 0) by (apply IHa; reflexivity). lia.
      * split; intros H; [lia | congruence].
Qed.

End RecurrenceFacts.

(** X2.  [levenshteinDistance] is symmetric in its two arguments. *)
Theorem levenshtein_symmetric str1 str2 :
  levenshteinDistance str1 str2 = levenshteinDistance str2 str1.
Proof.
  destruct (JS.falsy str1) eqn:F1, (JS.falsy str2) eqn:F2;
    try (rewrite !levenshtein_empty by (rewrite F1, F2; reflexivity);
         apply Nat.max_comm).
  rewrite !levenshtein_matrix by assumption. apply distance_sym.
Qed.

(** X3.  With two non-empty arguments the distance is at least the
    difference of the lengths of the two lower-cased strings and at
    most the greater of them. *)
Theorem levenshtein_bounds str1 str2 :
  JS.falsy str1 = false ->
  JS.falsy str2 = false ->
  Nat.max (List.length (toLowerCase str1)) (List.length (toLowerCase str2))
  - Nat.min (List.length (toLowerCase str1))
            (List.length (toLowerCase str2))
  <= levenshteinDistance str1 str2
  <= Nat.max (List.length (toLowerCase str1))
             (List.length (toLowerCase str2)).
Proof.
  intros F1 F2. rewrite (levenshtein_matrix _ _ F1 F2).
  pose proof (distance_upper (rev (toLowerCase str1))
                             (rev (toLowerCase str2))) as U.
  pose proof (distance_lower (rev (toLowerCase str1))
                             (rev (toLowerCase str2))) as L.
  rewrite !length_rev in *. lia.
Qed.

Lemma levenshtein_bounds_witness :
  4 - 3 <= levenshteinDistance "Moyo" "MAC" <= 4.
Proof.
  apply (@levenshtein_bounds "Moyo" "MAC"); reflexivity.
Defined.

(** X4.  The distance is 0 exactly when the two strings are equal
    after lower-casing. *)
Theorem levenshtein_zero_iff_same_letters str1 str2 :
  levenshteinDistance str1 str2 = 0
  <-> toLowerCase str1 = toLowerCase str2.
Proof.
  destruct (JS.falsy str1) eqn:F1, (JS.falsy str2) eqn:F2.
  - rewrite levenshtein_empty by (rewrite F1, F2; reflexivity).
    apply falsy_toLowerCase in F1. apply falsy_toLowerCase in F2.
    rewrite F1, F2.
    destruct str1, str2; simpl in *; try discriminate. tauto.
  - rewrite levenshtein_empty by (rewrite F1, F2; reflexivity).
    apply falsy_toLowerCase in F1. rewrite F1.
    destruct str1, str2; simpl in *; try discriminate.
    split; [lia | discriminate].
  - rewrite levenshtein_empty by (rewrite F1, F2; reflexivity).
    apply falsy_toLowerCase in F2. rewrite F2.
    destruct str1, str2; simpl in *; try discriminate.
    split; [lia | discriminate].
  - rewrite (levenshtein_matrix _ _ F1 F2), distance_zero.
    split; intros H.
    + apply (f_equal (@rev ascii)) in H.
      rewrite !rev_involutive in H. exact H.
    + rewrite H. reflexivity.
Qed.

(** ** Range of the Jaro measures *)

Section JaroRange.

Lemma count_true_le_length : forall flags,
    count_true flags <= List.length flags.
Proof.
  induction flags as [|b flags IH]; simpl; auto.
  rewrite count_true_cons. destruct b; simpl; lia.
Qed.

Lemma count_transpositions_le : forall s1 rest t,
    count_transpositions s1 rest = Some t ->
    t <= count_true (map snd s1).
Proof.
  induction s1 as [|[c b] s1 IH]; simpl; intros rest t H.
  - inversion H; lia.
  - rewrite count_true_cons. destruct b; simpl.
    + destruct (skip_unmatched rest) as [[c2 rest']|]; [|discriminate].
      destruct (count_transpositions s1 rest') as [t'|] eqn:E;
        [|discriminate].
      apply IH in E. simpl in H. inversion H; subst.
      destruct (Ascii.eqb c c2); lia.
    + eapply IH; eauto.
Qed.

Lemma num_le a b : a <= b -> (num a <= num b)%Q.
Proof.
  intros H. unfold num, Qle; simpl. lia.
Qed.

Lemma num_pos a : 0 < a -> (0 < num a)%Q.
Proof.
  intros H. unfold num, Qlt; simpl. lia.
Qed.

Lemma ratio_in_unit a b :
  (0 <= a)%Q -> (a <= b)%Q -> (0 < b)%Q -> (0 <= a / b /\ a / b <= 1)%Q.
Proof.
  intros A B C. split.
  - apply Qle_shift_div_l; lra.
  - apply Qle_shift_div_r; lra.
Qed.

Lemma jaroSimilarity_range str1 str2 jaro :
  jaroSimilarity str1 str2 = Some jaro -> (0 <= jaro /\ jaro <= 1)%Q.
Proof.
  unfold jaroSimilarity.
  destruct (JS.falsy str1 || JS.falsy str2);
    [intros H; inversion H; subst; lra|].
  destruct (String.eqb str1 str2); [intros H; inversion H; subst; lra|].
  set (s1 := toLowerCase str1); set (s2 := toLowerCase str2).
  destruct (match_loop s1 0 _ s2 _ (repeat false (List.length s2)))
    as [[m1 m2] n] eqn:R.
  destruct (match_loop_flags _ _ _ _ _ _ R) as (L1 & L2 & C1 & C2).
  rewrite repeat_length in L2. rewrite count_true_repeat_false in C2.
  destruct (Nat.eqb_spec n 0) as [Hz|NZ];
    [intros H; inversion H; subst; lra|].
  destruct (count_transpositions (combine s1 m1) (combine s2 m2))
    as [t|] eqn:T; [|discriminate].
  intros H; inversion H; subst jaro; clear H.
  apply count_transpositions_le in T.
  rewrite map_snd_combine in T by lia.
  pose proof (count_true_le_length m1) as B1.
  pose proof (count_true_le_length m2) as B2.
  assert (P : (0 < num n)%Q) by (apply num_pos; lia).
  assert (T' : (num t <= num n)%Q) by (apply num_le; lia).
  assert (T0 : (0 <= num t)%Q) by (apply (num_le (a := 0)); lia).
  destruct (@ratio_in_unit (num n) (num (List.length s1)))
    as [X0 X1]; [lra | apply num_le; lia | apply num_pos; lia |].
  destruct (@ratio_in_unit (num n) (num (List.length s2)))
    as [Y0 Y1]; [lra | apply num_le; lia | apply num_pos; lia |].
  destruct (@ratio_in_unit (num n - num t / 2) (num n))%Q
    as [Z0 Z1].
  - apply Qle_minus_iff.
    setoid_replace (num n - num t / 2 + - 0)%Q
      with ((2 * num n - num t) / 2)%Q by field.
    apply Qle_shift_div_l; lra.
  - apply Qle_minus_iff.
    setoid_replace (num n + - (num n - num t / 2))%Q
      with (num t / 2)%Q by field.
    apply Qle_shift_div_l; lra.
  - exact P.
  - split; [apply Qle_shift_div_l | apply Qle_shift_div_r]; lra.
Qed.

End JaroRange.

(** X5.  For every pair of strings both measures return, and
    [0 <= jaro <= jaroWinkler <= 1]: the prefix bonus never lowers
    the Jaro similarity and never takes it past 1. *)
Theorem jaro_measures_in_unit_interval str1 str2 :
  exists jaro similarity,
    jaroSimilarity str1 str2 = Some jaro
    /\ jaroWinklerSimilarity str1 str2 = Some similarity
    /\ (0 <= jaro)%Q /\ (jaro <= similarity)%Q /\ (similarity <= 1)%Q.
Proof.
  destruct (jaroSimilarity_returns str1 str2) as [jaro E].
  destruct (jaroSimilarity_range _ _ E) as [J0 J1].
  exists jaro. unfold jaroWinklerSimilarity. rewrite E.
  destruct (Qlt_bool jaro 0.7).
  - exists jaro. repeat split; auto; lra.
  - eexists. split; [reflexivity|]. split; [reflexivity|].
    assert (P4 : (num (winkler_prefix str1 str2) <= 4)%Q).
    { rewrite winkler_prefix_capped. unfold capped_prefix.
      apply (@num_le _ 4). lia. }
    assert (P0 : (0 <= num (winkler_prefix str1 str2))%Q)
      by (apply (@num_le 0); lia).
    repeat split; auto; nra.
Qed.

(** ** Jaro on strings that differ only in case *)

Section JaroSameLetters.

Lemma scan_window_first_free c : forall pre post fl j start stop,
    (start <= j + Z.of_nat (List.length pre) < stop)%Z ->
    scan_window c (pre ++ c :: post)
                (repeat true (List.length pre) ++ false :: fl)
                j start stop
    = Some (repeat true (List.length pre) ++ true :: fl).
Proof.
  induction pre as [|p pre IH]; intros post fl j start stop H.
  - cbn [List.length repeat app scan_window]. simpl in H.
    replace (start <=? j)%Z with true by (symmetry; apply Z.leb_le; lia).
    replace (j <? stop)%Z with true by (symmetry; apply Z.ltb_lt; lia).
    rewrite Ascii.eqb_refl. reflexivity.
  - cbn [List.length repeat app scan_window].
    rewrite andb_false_r. cbn [andb negb].
    rewrite IH; [reflexivity|].
    cbn [List.length] in H. lia.
Qed.

Lemma repeat_true_step i k :
  repeat true i ++ true :: repeat false k
  = repeat true (S i) ++ repeat false k.
Proof.
  induction i; simpl; [reflexivity|]. rewrite IHi. reflexivity.
Qed.

(** On two equal character sequences the matching loop pairs every
    index with itself, as soon as the window is not empty. *)
Lemma match_loop_same w : forall post pre,
    (0 <= w)%Z ->
    match_loop post (Z.of_nat (List.length pre)) w (pre ++ post)
               (Z.of_nat (List.length (pre ++ post)))
               (repeat true (List.length pre)
                ++ repeat false (List.length post))
    = (repeat true (List.length post),
       repeat true (List.length (pre ++ post)),
       List.length post).
Proof.
  induction post as [|c post IH]; intros pre W.
  - cbn [match_loop List.length repeat]. rewrite !app_nil_r. reflexivity.
  - cbn [match_loop].
    cbn [List.length repeat].
    rewrite scan_window_first_free.
    + rewrite repeat_true_step.
      specialize (IH (pre ++ [c]) W).
      rewrite <- app_assoc in IH. cbn [app] in IH.
      rewrite length_app in IH. cbn [List.length] in IH.
      rewrite Nat.add_1_r in IH.
      replace (Z.of_nat (List.length pre) + 1)%Z
        with (Z.of_nat (S (List.length pre))) by lia.
      rewrite IH. reflexivity.
    + rewrite length_app. cbn [List.length]. lia.
Qed.

Lemma combine_all_matched : forall (s : list ascii),
    combine s (repeat true (List.length s)) = map (fun c => (c, true)) s.
Proof.
  induction s; simpl; [reflexivity|]. rewrite IHs. reflexivity.
Qed.

Lemma no_transpositions : forall (s : list ascii),
    count_transpositions (map (fun c => (c, true)) s)
                         (map (fun c => (c, true)) s) = Some 0.
Proof.
  induction s as [|c s IH]; simpl; [reflexivity|].
  rewrite IH. simpl. rewrite Ascii.eqb_refl. reflexivity.
Qed.

Lemma half_window n : 2 <= n -> (0 <= Z.of_nat n / 2 - 1)%Z.
Proof.
  intros H.
  assert (1 <= Z.of_nat n / 2)%Z; [|lia].
  apply Z.div_le_lower_bound; lia.
Qed.

Lemma jaro_same_letters str1 str2 :
  toLowerCase str1 = toLowerCase str2 ->
  2 <= List.length (toLowerCase str1) ->
  exists jaro, jaroSimilarity str1 str2 = Some jaro /\ (jaro == 1)%Q.
Proof.
  intros E L. unfold jaroSimilarity.
  assert (L2 : 2 <= List.length (toLowerCase str2))
    by (rewrite <- E; exact L).
  destruct str1 as [|a1 r1]; [simpl in L; lia|].
  destruct str2 as [|a2 r2]; [simpl in L2; lia|].
  cbn [JS.falsy orb].
  destruct (String.eqb (String a1 r1) (String a2 r2));
    [exists 1%Q; split; [reflexivity | reflexivity]|].
  rewrite <- E.
  set (s := toLowerCase (String a1 r1)) in *.
  rewrite Nat.max_id.
  pose proof (@match_loop_same (Z.of_nat (List.length s) / 2 - 1) s [])
    as M.
  cbn [List.length app repeat] in M. change (Z.of_nat 0) with 0%Z in M.
  rewrite M by (apply half_window; lia).
  destruct (Nat.eqb_spec (List.length s) 0) as [Hz|NZ]; [lia|].
  rewrite combine_all_matched, no_transpositions.
  eexists; split; [reflexivity|].
  assert (P : ~ (num (List.length s) == 0)%Q).
  { assert (0 < num (List.length s))%Q by (apply num_pos; lia). lra. }
  change (num 0) with 0%Q. field. exact P.
Qed.

Lemma single_letter str :
  List.length (toLowerCase str) = 1 ->
  exists a, str = String a EmptyString.
Proof.
  destruct str as [|a [|b rest]]; simpl; intros H; try discriminate.
  exists a. reflexivity.
Qed.

Lemma jaro_single_letters str1 str2 :
  str1 <> str2 ->
  List.length (toLowerCase str1) = 1 ->
  List.length (toLowerCase str2) = 1 ->
  jaroSimilarity str1 str2 = Some 0%Q.
Proof.
  intros N L1 L2.
  destruct (single_letter _ L1) as (a & ->).
  destruct (single_letter _ L2) as (b & ->).
  unfold jaroSimilarity. cbn [JS.falsy orb].
  replace (String.eqb (String a EmptyString) (String b EmptyString))
    with false.
  - cbn. destruct (Ascii.eqb (lower_ascii a) (lower_ascii b));
      reflexivity.
  - symmetry. apply String.eqb_neq. exact N.
Qed.

End JaroSameLetters.

(** X6.  Two strings that are equal after lower-casing, with at
    least two characters then, have Jaro and Jaro-Winkler similarity
    1.  Two different strings that each have one character after
    lower-casing have similarity 0, also when they differ only in
    case (the match window is then empty). *)
Theorem jaro_on_case_variants :
  (forall str1 str2,
      toLowerCase str1 = toLowerCase str2 ->
      2 <= List.length (toLowerCase str1) ->
      exists jaro similarity,
        jaroSimilarity str1 str2 = Some jaro
        /\ jaroWinklerSimilarity str1 str2 = Some similarity
        /\ (jaro == 1)%Q /\ (similarity == 1)%Q)
  /\ (forall str1 str2,
        str1 <> str2 ->
        List.length (toLowerCase str1) = 1 ->
        List.length (toLowerCase str2) = 1 ->
        jaroSimilarity str1 str2 = Some 0%Q
        /\ jaroWinklerSimilarity str1 str2 = Some 0%Q).
Proof.
  split.
  - intros str1 str2 E L.
    destruct (jaro_same_letters str1 str2 E L) as (jaro & J & One).
    exists jaro. unfold jaroWinklerSimilarity. rewrite J.
    assert (F : Qlt_bool jaro 0.7 = false)
      by (apply Qlt_bool_false_iff; lra).
    rewrite F. eexists. split; [reflexivity|]. split; [reflexivity|].
    split; [exact One|]. rewrite One. ring.
  - intros str1 str2 N L1 L2. unfold jaroWinklerSimilarity.
    rewrite (jaro_single_letters N L1 L2). split; reflexivity.
Qed.

Lemma jaro_on_case_variants_witness :
  (exists jaro similarity,
      jaroSimilarity "Moyo" "MOYO" = Some jaro
      /\ jaroWinklerSimilarity "Moyo" "MOYO" = Some similarity
      /\ (jaro == 1)%Q /\ (similarity == 1)%Q)
  /\ jaroWinklerSimilarity "m" "M" = Some 0%Q.
Proof.
  split.
  - apply (proj1 jaro_on_case_variants "Moyo" "MOYO").
    + reflexivity.
    + simpl. lia.
  - apply (proj2 jaro_on_case_variants "m" "M").
    + discriminate.
    + reflexivity.
    + reflexivity.
Defined.

(** ** Bounds and ranking of match scores *)

Import Ranking.

Section ScoreBounds.





End ScoreBounds.



Section BestScore.

Variables patient1 patient2 : FHIRPatient.

Lemma calculateMatchScore_returns rule :
  exists score, calculateMatchScore patient1 patient2 rule = Some score.
Proof.
  unfold calculateMatchScore.
  destruct (score_fields_spec patient1 patient2 (fields rule) [] 0%Q)
    as (scores & total & R & _).
  rewrite R. eauto.
Qed.

Lemma Qgt_bool_iff a b : Qgt_bool a b = true <-> (b < a)%Q.
Proof.
  unfold Qgt_bool. rewrite negb_true_iff.
  split; intros H.
  - apply Qnot_le_lt. intros L. apply Qle_bool_iff in L. congruence.
  - destruct (Qle_bool a b) eqn:E; auto.
    apply Qle_bool_iff in E. lra.
Qed.

Lemma Qgt_bool_false_iff a b : Qgt_bool a b = false <-> (a <= b)%Q.
Proof.
  unfold Qgt_bool. rewrite negb_false_iff. apply Qle_bool_iff.
Qed.

(** The loop of [calculateBestMatchScore] from a running best
    [bestScore]: either no rule scores above it and it is returned,
    or the result is the score of the first rule that reaches the
    greatest total. *)
Lemma best_over_spec : forall rules bestScore,
    exists best,
      best_over patient1 patient2 rules bestScore = Some best
      /\ ((best = bestScore
           /\ forall rule score,
               In rule rules ->
               calculateMatchScore patient1 patient2 rule = Some score ->
               (totalScore score <= totalScore bestScore)%Q)
          \/ (exists earlier rule later,
                 rules = earlier ++ rule :: later
                 /\ calculateMatchScore patient1 patient2 rule = Some best
                 /\ (totalScore bestScore < totalScore best)%Q
                 /\ (forall r score,
                        In r earlier ->
                        calculateMatchScore patient1 patient2 r = Some score ->
                        (totalScore score < totalScore best)%Q)
                 /\ (forall r score,
                        In r later ->
                        calculateMatchScore patient1 patient2 r = Some score ->
                        (totalScore score <= totalScore best)%Q))).
Proof.
  induction rules as [|rule rules IH]; intros bestScore.
  - exists bestScore. split; [reflexivity|]. left. split; [reflexivity|].
    intros ? ? [].
  - cbn [best_over].
    destruct (calculateMatchScore_returns rule) as [score E]. rewrite E.
    destruct (Qgt_bool (totalScore score) (totalScore bestScore)) eqn:G.
    + apply Qgt_bool_iff in G.
      destruct (IH score) as (best & B & [[-> Le] | Later]).
      * exists score. split; [exact B|]. right.
        exists [], rule, rules. repeat split; auto.
        intros ? ? [].
      * destruct Later as (earlier & r & later & -> & C & Lt & Before & After).
        exists best. split; [exact B|]. right.
        exists (rule :: earlier), r, later. repeat split; auto.
        -- lra.
        -- intros r0 s0 [<- | I] C0.
           ++ rewrite E in C0. inversion C0; subst. exact Lt.
           ++ eapply Before; eauto.
    + apply Qgt_bool_false_iff in G.
      destruct (IH bestScore) as (best & B & [[-> Le] | Later]).
      * exists bestScore. split; [exact B|]. left. split; [reflexivity|].
        intros r0 s0 [<- | I] C0.
        -- rewrite E in C0. inversion C0; subst. exact G.
        -- eapply Le; eauto.
      * destruct Later as (earlier & r & later & -> & C & Lt & Before & After).
        exists best. split; [exact B|]. right.
        exists (rule :: earlier), r, later. repeat split; auto.
        intros r0 s0 [<- | I] C0.
        -- rewrite E in C0. inversion C0; subst. lra.
        -- eapply Before; eauto.
Qed.

End BestScore.

(** X8.  [calculateBestMatchScore] returns for every rule list.  When
    no rule scores above 0 the result is the initial no-match score
    of total 0, whatever the thresholds of the rules; otherwise it is
    the score of a rule that beats every earlier rule strictly and is
    not beaten by any later one: on equal totals the first rule
    wins. *)
Theorem best_score_is_first_maximum rules patient1 patient2 :
  exists best,
    calculateBestMatchScore rules patient1 patient2 = Some best
    /\ ((best = initialBestScore
         /\ forall rule score,
             In rule rules ->
             calculateMatchScore patient1 patient2 rule = Some score ->
             (totalScore score <= 0)%Q)
        \/ (exists earlier rule later,
               rules = earlier ++ rule :: later
               /\ calculateMatchScore patient1 patient2 rule = Some best
               /\ (0 < totalScore best)%Q
               /\ (forall r score,
                      In r earlier ->
                      calculateMatchScore patient1 patient2 r = Some score ->
                      (totalScore score < totalScore best)%Q)
               /\ (forall r score,
                      In r later ->
                      calculateMatchScore patient1 patient2 r = Some score ->
                      (totalScore score <= totalScore best)%Q))).
Proof.
  exact (best_over_spec patient1 patient2 rules initialBestScore).
Qed.

Lemma best_score_is_first_maximum_witness :
  exists best,
    calculateBestMatchScore
      [Scenario.boundary_rule conservative conservative;
       Scenario.boundary_rule greedy greedy]
      Scenario.incoming Scenario.candidateA = Some best
    /\ matchLevel best = potential_match.
Proof.
  destruct (best_score_is_first_maximum
              [Scenario.boundary_rule conservative conservative;
               Scenario.boundary_rule greedy greedy]
              Scenario.incoming Scenario.candidateA)
    as (best & B & _).
  exists best. split; [exact B|].
  vm_compute in B. inversion B. reflexivity.
Defined.

(** ** The list returned by [findPotentialDuplicates] *)

Section Ranked.

Lemma insert_desc_In x y : forall l,
    In y (insert_desc x l) <-> y = x \/ In y l.
Proof.
  induction l as [|z l IH]; simpl.
  - intuition.
  - destruct (Qgt_bool _ _); simpl; rewrite ?IH; intuition.
Qed.

Lemma insert_desc_sorted x : forall l,
    StronglySorted ranked_before l ->
    StronglySorted ranked_before (insert_desc x l).
Proof.
  induction l as [|z l IH]; simpl; intros S.
  - constructor; constructor.
  - inversion S as [|? ? S' F]; subst.
    destruct (Qgt_bool (totalScore (snd x)) (totalScore (snd z))) eqn:G.
    + apply Qgt_bool_iff in G.
      constructor; [exact S|].
      constructor; [unfold ranked_before; lra|].
      eapply Forall_impl; [|exact F].
      unfold ranked_before. intros c Hc. lra.
    + apply Qgt_bool_false_iff in G.
      constructor; [apply IH; exact S'|].
      apply Forall_forall. intros c Hc.
      apply insert_desc_In in Hc. destruct Hc as [->|Hc].
      * exact G.
      * rewrite Forall_forall in F. auto.
Qed.

Lemma fold_insert_desc : forall l acc,
    StronglySorted ranked_before acc ->
    StronglySorted ranked_before
                   (fold_left (fun a x => insert_desc x a) l acc)
    /\ forall y, In y (fold_left (fun a x => insert_desc x a) l acc)
                 <-> In y l \/ In y acc.
Proof.
  induction l as [|x l IH]; intros acc S; simpl.
  - split; [exact S | intuition].
  - destruct (IH (insert_desc x acc) (insert_desc_sorted x S)) as [A B].
    split; [exact A|].
    intros y. rewrite B, insert_desc_In. intuition.
Qed.

Lemma sort_desc_spec l :
  StronglySorted ranked_before (sort_desc l)
  /\ forall y, In y (sort_desc l) <-> In y l.
Proof.
  unfold sort_desc.
  destruct (@fold_insert_desc l []) as [A B]; [constructor|].
  split; [exact A|].
  intros y. rewrite B. simpl. intuition.
Qed.

Lemma calculateBestMatchScore_returns rules patient candidate :
  exists best, calculateBestMatchScore rules patient candidate = Some best.
Proof.
  destruct (best_over_spec patient candidate rules initialBestScore)
    as (best & B & _).
  exists best. exact B.
Qed.

Lemma MatchLevel_eqb_no_match level :
  MatchLevel_eqb level no_match = true <-> level = no_match.
Proof. destruct level; simpl; split; intros; congruence. Qed.

Lemma collect_matches_spec rules patient : forall candidates,
    exists matches,
      collect_matches rules patient candidates = Some matches
      /\ forall candidate score,
          In (candidate, score) matches
          <-> (In candidate candidates
               /\ calculateBestMatchScore rules patient candidate
                  = Some score
               /\ matchLevel score <> no_match).
Proof.
  induction candidates as [|c candidates IH].
  - exists []. split; [reflexivity|]. simpl. intuition.
  - cbn [collect_matches].
    destruct (calculateBestMatchScore_returns rules patient c) as [best B].
    rewrite B. destruct IH as (matches & M & Spec). rewrite M.
    eexists. split; [reflexivity|].
    intros candidate score.
    destruct (MatchLevel_eqb (matchLevel best) no_match) eqn:L.
    + apply MatchLevel_eqb_no_match in L.
      rewrite Spec. simpl. split.
      * intros (I & C & N). auto.
      * intros ([<- | I] & C & N); [|auto].
        rewrite B in C. inversion C; subst. contradiction.
    + assert (N : matchLevel best <> no_match).
      { intros H. apply MatchLevel_eqb_no_match in H. congruence. }
      simpl. rewrite Spec. split.
      * intros [H | (I & C & N')].
        -- inversion H; subst. auto.
        -- auto.
      * intros ([<- | I] & C & N').
        -- left. rewrite B in C. inversion C; subst. reflexivity.
        -- right. auto.
Qed.

End Ranked.

Lemma resources_In p : forall entries all,
    resources entries = Some all ->
    (In p all <-> In {| resource := Some p |} entries).
Proof.
  induction entries as [|[r] entries IH]; simpl; intros all H.
  - inversion H; subst. simpl. tauto.
  - destruct r as [q|]; [|discriminate].
    destruct (resources entries) as [ps|]; [|discriminate].
    inversion H; subst. simpl. rewrite (IH ps eq_refl).
    split; intros [E|I]; auto; left; congruence.
Qed.

Lemma resources_missing : forall entries,
    resources entries = None <-> In {| resource := None |} entries.
Proof.
  induction entries as [|[r] entries IH]; simpl.
  - split; [discriminate | tauto].
  - destruct r as [q|].
    + destruct (resources entries) as [ps|].
      * split; [discriminate|]. intros [E|I]; [discriminate|].
        apply IH in I. discriminate.
      * split; [|reflexivity]. intros _. right. apply IH. reflexivity.
    + split; [|reflexivity]. intros _. left. reflexivity.
Qed.

(** What a returned list holds. *)
Lemma findPotentialDuplicates_found rules patient searchResults matches :
  findPotentialDuplicates rules patient searchResults = Some (Found matches) ->
  StronglySorted ranked_before matches
  /\ (forall candidate score,
         In (candidate, score) matches
         <-> (exists entries,
                 entry searchResults = Some entries
                 /\ In {| resource := Some candidate |} entries
                 /\ resourceType candidate = "Patient"
                 /\ calculateBestMatchScore rules patient candidate
                    = Some score
                 /\ matchLevel score <> no_match))
  /\ (entry searchResults = None \/ entry searchResults = Some [] ->
      matches = []).
Proof.
  unfold findPotentialDuplicates.
  destruct (entry searchResults) as [[|e entries]|] eqn:E.
  - intros H; inversion H; subst. split; [constructor|].
    split; [|auto].
    intros c s. simpl. split; [tauto|].
    intros (l & H' & I & _). inversion H'; subst. destruct I.
  - set (given := e :: entries).
    destruct (resources given) as [all|] eqn:R; [|discriminate].
    destruct (collect_matches_spec rules patient
                (filter (fun p => String.eqb (resourceType p) "Patient") all))
      as (matches0 & M & Spec).
    rewrite M. cbn [option_map]. intros H; inversion H; subst; clear H.
    destruct (sort_desc_spec matches0) as [S I].
    split; [exact S|]. split.
    + intros c s.
      rewrite I, Spec, filter_In, String.eqb_eq, (resources_In c _ R).
      split.
      * intros ((A & B) & C & D). exists given. auto.
      * intros (l & H & A & B & C & D). inversion H; subst. auto.
    + intros [H | H]; discriminate.
  - intros H; inversion H; subst. split; [constructor|].
    split; [|auto].
    intros c s. simpl. split; [tauto|].
    intros (l & H' & _). discriminate.
Qed.

Lemma findPotentialDuplicates_returns rules patient searchResults :
  (forall entries,
      entry searchResults = Some entries ->
      ~ In {| resource := None |} entries) ->
  exists matches,
    findPotentialDuplicates rules patient searchResults = Some (Found matches).
Proof.
  intros Full. unfold findPotentialDuplicates.
  destruct (entry searchResults) as [[|e entries]|] eqn:E; eauto.
  set (given := e :: entries).
  destruct (resources given) as [all|] eqn:R.
  - destruct (collect_matches_spec rules patient
                (filter (fun p => String.eqb (resourceType p) "Patient") all))
      as (matches0 & M & _).
    rewrite M. cbn [option_map]. eauto.
  - exfalso. apply (Full given eq_refl). apply resources_missing. exact R.
Qed.

(** X9.  [findPotentialDuplicates] on a bundle whose entries all
    carry a resource returns a list; the list is in descending order
    of total score and holds exactly the entries of the bundle of
    resource type Patient whose best score is not no-match, each with
    that best score; a bundle with no entries gives the empty list.
    On a bundle with an entry that carries no resource the call
    throws a [TypeError] instead. *)
Theorem duplicates_ranked_and_filtered rules patient searchResults :
  ((forall entries,
       entry searchResults = Some entries ->
       ~ In {| resource := None |} entries) ->
   exists matches,
     findPotentialDuplicates rules patient searchResults
     = Some (Found matches)
     /\ StronglySorted ranked_before matches
     /\ (forall candidate score,
            In (candidate, score) matches
            <-> (exists entries,
                    entry searchResults = Some entries
                    /\ In {| resource := Some candidate |} entries
                    /\ resourceType candidate = "Patient"
                    /\ calculateBestMatchScore rules patient candidate
                       = Some score
                    /\ matchLevel score <> no_match))
     /\ (entry searchResults = None \/ entry searchResults = Some [] ->
         matches = []))
  /\ (forall entries,
         entry searchResults = Some entries ->
         In {| resource := None |} entries ->
         findPotentialDuplicates rules patient searchResults
         = Some TypeError).
Proof.
  split.
  - intros Full.
    destruct (findPotentialDuplicates_returns rules patient _ Full)
      as (matches & F).
    exists matches. split; [exact F|].
    apply (findPotentialDuplicates_found _ _ _ F).
  - intros entries E I. unfold findPotentialDuplicates. rewrite E.
    destruct entries as [|e entries]; [destruct I|].
    apply resources_missing in I. rewrite I. reflexivity.
Qed.

Lemma duplicates_ranked_and_filtered_witness :
  (exists matches,
      findPotentialDuplicates
        [Scenario.boundary_rule conservative conservative]
        Scenario.incoming Scenario.searchResults
      = Some (Found matches)
      /\ StronglySorted ranked_before matches
      /\ List.length matches = 2)
  /\ findPotentialDuplicates
       [Scenario.boundary_rule conservative conservative]
       Scenario.incoming Scenario.outcome_only
     = Some TypeError.
Proof.
  split.
  - destruct (proj1 (duplicates_ranked_and_filtered
                       [Scenario.boundary_rule conservative conservative]
                       Scenario.incoming Scenario.searchResults))
      as (matches & F & S & _).
    + intros entries E. inversion E; subst; clear E.
      intros [H|[H|[H|[]]]]; discriminate.
    + exists matches. split; [exact F|]. split; [exact S|].
      vm_compute in F. inversion F; subst. reflexivity.
  - apply (proj2 (duplicates_ranked_and_filtered
                    [Scenario.boundary_rule conservative conservative]
                    Scenario.incoming Scenario.outcome_only)
                 _ eq_refl).
    right. left. reflexivity.
Defined.

(** X10.  The duplicate step of [processEntry] on the result of
    [findPotentialDuplicates]: when it reports an update, the patient
    sent on is the merge with a Patient entry of the bundle whose
    best score is auto-match, carries that entry's [id], and no other
    returned candidate has a greater total score; otherwise the
    patient is sent on unchanged. *)
Theorem merge_target_is_top_candidate
        rules patient searchResults matches final isUpdate :
  findPotentialDuplicates rules patient searchResults
  = Some (Found matches) ->
  resolveDuplicates patient matches = (final, isUpdate) ->
  (isUpdate = false -> final = patient)
  /\ (isUpdate = true ->
      exists candidate score entries,
        entry searchResults = Some entries
        /\ In {| resource := Some candidate |} entries
        /\ resourceType candidate = "Patient"
        /\ calculateBestMatchScore rules patient candidate = Some score
        /\ matchLevel score = auto_match
        /\ final = set_id (mergePatientData patient candidate)
                          (Fhir.id candidate)
        /\ forall other, In other matches ->
                         (totalScore (snd other) <= totalScore score)%Q).
Proof.
  intros F R.
  destruct (findPotentialDuplicates_found _ _ _ F) as (S & Spec & _).
  destruct matches as [|[candidate score] rest]; simpl in R.
  - inversion R; subst. split; [reflexivity | discriminate].
  - destruct (matchLevel score) eqn:L; inversion R; subst;
      (split; [intros; try reflexivity; discriminate|]);
      intros U; try discriminate.
    destruct (proj1 (Spec candidate score) (or_introl eq_refl))
      as (entries & E & I & T & B & _).
    exists candidate, score, entries.
    repeat (split; [assumption || reflexivity|]).
    intros other [<- | I'].
    + simpl. lra.
    + inversion S as [|? ? _ Fa]; subst.
      rewrite Forall_forall in Fa. apply (Fa other I').
Qed.

Lemma merge_target_is_top_candidate_witness :
  exists candidate score,
    calculateBestMatchScore
      [Scenario.boundary_rule conservative conservative]
      Scenario.incoming candidate = Some score
    /\ matchLevel score = auto_match
    /\ Scenario.candidateB
       = set_id (mergePatientData Scenario.incoming candidate)
                (Fhir.id candidate).
Proof.
  destruct (@merge_target_is_top_candidate
              [Scenario.boundary_rule conservative conservative]
              Scenario.incoming Scenario.searchResults
              _ Scenario.candidateB true eq_refl eq_refl)
    as [_ U].
  destruct (U eq_refl) as (c & s & entries & _ & _ & _ & B & L & Fin & _).
  exists c, s. auto.
Defined.

(** ** Missing-data analysis *)

Import MissingReport.

Section FieldCollection.

Lemma has_field_In fieldName allFields :
  has_field fieldName allFields = true
  <-> exists fieldRule, In (fieldName, fieldRule) allFields.
Proof.
  unfold has_field. rewrite existsb_exists. split.
  - intros ([n f] & I & E). simpl in E. apply String.eqb_eq in E. subst.
    eauto.
  - intros (f & I). exists (fieldName, f). split; [exact I|].
    simpl. apply String.eqb_refl.
Qed.

Lemma has_field_false fieldName allFields fieldRule :
  has_field fieldName allFields = false ->
  ~ In (fieldName, fieldRule) allFields.
Proof.
  intros H I.
  assert (has_field fieldName allFields = true)
    by (apply has_field_In; eauto).
  congruence.
Qed.

Lemma has_field_app fieldName l1 l2 :
  has_field fieldName (l1 ++ l2)
  = has_field fieldName l1 || has_field fieldName l2.
Proof. unfold has_field. apply existsb_app. Qed.

Let first_in (fieldName : string) (entries : list (string * FieldRule)) :=
  find (fun configured => String.eqb (fst configured) fieldName) entries.

(** The keys of the map stay distinct, and a name gets the rule of
    its first occurrence. *)
Lemma add_fields_spec : forall entries allFields,
    NoDup (map fst allFields) ->
    NoDup (map fst (add_fields entries allFields))
    /\ forall fieldName fieldRule,
        In (fieldName, fieldRule) (add_fields entries allFields)
        <-> In (fieldName, fieldRule) allFields
            \/ (has_field fieldName allFields = false
                /\ first_in fieldName entries
                   = Some (fieldName, fieldRule)).
Proof.
  induction entries as [|[n f] entries IH]; intros allFields N.
  - simpl. split; [exact N|]. intros; split; [auto|].
    intros [H | [_ H]]; [exact H | discriminate].
  - cbn [add_fields].
    destruct (has_field n allFields) eqn:H.
    + destruct (IH allFields N) as [N' Spec]. split; [exact N'|].
      intros fieldName fieldRule. rewrite Spec.
      unfold first_in. cbn [find fst].
      destruct (String.eqb_spec n fieldName) as [->|Ne]; [|tauto].
      split; [|intros [A | [B _]]; [auto | congruence]].
      intros [A | [B _]]; [auto | congruence].
    + assert (N1 : NoDup (map fst (allFields ++ [(n, f)]))).
      { rewrite map_app. simpl. apply NoDup_app; auto.
        - constructor; [simpl; tauto | constructor].
        - intros a Ia [<- | []].
          apply in_map_iff in Ia. destruct Ia as ([n' f'] & E & I).
          simpl in E. subst n'.
          exact (has_field_false _ _ _ H I). }
      destruct (IH _ N1) as [N' Spec]. split; [exact N'|].
      intros fieldName fieldRule. rewrite Spec.
      rewrite in_app_iff, has_field_app.
      unfold first_in. cbn [find fst]. simpl.
      destruct (String.eqb_spec n fieldName) as [->|Ne].
      * rewrite H. simpl. split.
        -- intros [[A | [B | []]] | [B _]]; try discriminate; auto.
           inversion B; subst. auto.
        -- intros [A | [_ B]]; [auto|]. inversion B; subst. auto.
      * rewrite orb_false_r. split.
        -- intros [[A | [B | []]] | B]; auto.
           inversion B; congruence.
        -- intros [A | B]; auto.
Qed.

Lemma add_fields_app : forall l1 l2 allFields,
    add_fields (l1 ++ l2) allFields = add_fields l2 (add_fields l1 allFields).
Proof.
  induction l1 as [|[n f] l1 IH]; intros; simpl; auto.
Qed.

Lemma collect_fields_flat : forall rules allFields,
    collect_fields rules allFields
    = add_fields (flat_map fields rules) allFields.
Proof.
  induction rules as [|rule rules IH]; intros; simpl; auto.
  rewrite add_fields_app. apply IH.
Qed.

Lemma collect_fields_spec rules fieldName fieldRule :
  In (fieldName, fieldRule) (collect_fields rules [])
  <-> first_configured rules fieldName = Some fieldRule.
Proof.
  rewrite collect_fields_flat.
  destruct (@add_fields_spec (flat_map fields rules) []) as [_ Spec];
    [constructor|].
  rewrite Spec. unfold first_configured, first_in. simpl. split.
  - intros [[] | [_ F]]. rewrite F. reflexivity.
  - intros H. right. split; [reflexivity|].
    destruct (find _ _) as [[n f]|] eqn:F; [|discriminate].
    simpl in H. inversion H; subst.
    apply find_some in F. destruct F as [_ F]. simpl in F.
    apply String.eqb_eq in F. subst. reflexivity.
Qed.

End FieldCollection.

Section FieldCheck.

Variable show_number : Q -> string.
Variable patient : FHIRPatient.

Let absent (configured : string * FieldRule) : bool :=
  match extractFieldValue patient (snd configured) with
  | None => true
  | Some _ => false
  end.

Lemma check_fields_spec : forall allFields missed critical warned,
    exists added,
      check_fields show_number patient allFields missed critical warned
      = (missed ++ map fst (filter absent allFields),
         critical
           ++ map fst (filter (fun c => absent c && isCriticalField (snd c))
                              allFields),
         warned ++ added)
      /\ List.length added = List.length (filter absent allFields).
Proof.
  induction allFields as [|[n f] rest IH]; intros missed critical warned.
  - exists []. simpl. rewrite !app_nil_r. auto.
  - cbn [check_fields filter].
    replace (absent (n, f))
      with (match extractFieldValue patient f with
            | None => true
            | Some _ => false
            end) by reflexivity.
    cbn [snd].
    destruct (extractFieldValue patient f) eqn:E.
    + cbn [andb]. apply IH.
    + cbn [andb].
      destruct (IH (missed ++ [n])
                   (if isCriticalField f then critical ++ [n] else critical)
                   (warned
                      ++ [(n ++ " (weight: " ++ show_number (weight f)
                             ++ ", handling: "
                             ++ handling_label (null_handling f) ++ ")")
                            %string]))
        as (added & R & L).
      eexists (_ :: added). rewrite R. split.
      * destruct (isCriticalField f); cbn [map fst];
          rewrite <- !app_assoc; reflexivity.
      * simpl. rewrite L. reflexivity.
Qed.

End FieldCheck.

Lemma nil_iff_no_member {A} (l : list A) :
  l = [] <-> forall x, ~ In x l.
Proof.
  split.
  - intros -> x [].
  - intros H. destruct l as [|a l]; [reflexivity|].
    exfalso. apply (H a). left. reflexivity.
Qed.

Lemma isCriticalField_iff fieldRule :
  isCriticalField fieldRule = true
  <-> (7 <= weight fieldRule)%Q \/ null_handling fieldRule = conservative.
Proof.
  unfold isCriticalField. rewrite orb_true_iff, Qge_bool_iff.
  destruct (null_handling fieldRule); split; intros [H | H]; auto;
    discriminate.
Qed.

(** X11.  [analyzeMissingData] looks at every configured field name
    once, with the field rule of its first occurrence over the rules
    in order.  A name is reported missing exactly when the value
    extracted under that rule is null (absent or empty); it is
    critical when moreover the weight is at least 7 or the
    one-missing handling is conservative; [canProceed] holds exactly
    when no missing field is critical; one warning is issued per
    missing field. *)
Theorem missing_data_report_characterised show_number rules patient uid0 :
  let report := analyzeMissingData show_number rules patient uid0 in
  uid report = uid0
  /\ (forall fieldName,
         In fieldName (missingFields report)
         <-> exists fieldRule,
             first_configured rules fieldName = Some fieldRule
             /\ extractFieldValue patient fieldRule = None)
  /\ (forall fieldName,
         In fieldName (criticalFieldsMissing report)
         <-> exists fieldRule,
             first_configured rules fieldName = Some fieldRule
             /\ extractFieldValue patient fieldRule = None
             /\ ((7 <= weight fieldRule)%Q
                 \/ null_handling fieldRule = conservative))
  /\ (canProceed report = true
      <-> forall fieldName fieldRule,
          first_configured rules fieldName = Some fieldRule ->
          extractFieldValue patient fieldRule = None ->
          (weight fieldRule < 7)%Q
          /\ null_handling fieldRule <> conservative)
  /\ List.length (warnings report) = List.length (missingFields report).
Proof.
  unfold analyzeMissingData.
  destruct (check_fields_spec show_number patient (collect_fields rules [])
                              [] [] [])
    as (added & R & L).
  rewrite R. cbn zeta. cbn [uid missingFields criticalFieldsMissing
                            canProceed warnings app].
  set (absent := fun configured : string * FieldRule =>
                   match extractFieldValue patient (snd configured) with
                   | None => true
                   | Some _ => false
                   end) in *.
  assert (M : forall fieldName,
             In fieldName (map fst (filter absent (collect_fields rules [])))
             <-> exists fieldRule,
                 first_configured rules fieldName = Some fieldRule
                 /\ extractFieldValue patient fieldRule = None).
  { intros n. rewrite in_map_iff. split.
    - intros ([n' f] & E & I). simpl in E. subst n'.
      apply filter_In in I. destruct I as [I A].
      exists f. split; [apply collect_fields_spec; exact I|].
      unfold absent in A. simpl in A.
      destruct (extractFieldValue patient f); [discriminate | reflexivity].
    - intros (f & C & E). exists (n, f). split; [reflexivity|].
      apply filter_In. split; [apply collect_fields_spec; exact C|].
      unfold absent. simpl. rewrite E. reflexivity. }
  assert (C : forall fieldName,
             In fieldName
                (map fst (filter (fun c => absent c && isCriticalField (snd c))
                                 (collect_fields rules [])))
             <-> exists fieldRule,
                 first_configured rules fieldName = Some fieldRule
                 /\ extractFieldValue patient fieldRule = None
                 /\ ((7 <= weight fieldRule)%Q
                     \/ null_handling fieldRule = conservative)).
  { intros n. rewrite in_map_iff. split.
    - intros ([n' f] & E & I). simpl in E. subst n'.
      apply filter_In in I. destruct I as [I A].
      apply andb_prop in A. destruct A as [A K]. simpl in K.
      exists f. split; [apply collect_fields_spec; exact I|].
      split; [|apply isCriticalField_iff; exact K].
      unfold absent in A. simpl in A.
      destruct (extractFieldValue patient f); [discriminate | reflexivity].
    - intros (f & F & E & K). exists (n, f). split; [reflexivity|].
      apply filter_In. split; [apply collect_fields_spec; exact F|].
      unfold absent. simpl. rewrite E. simpl.
      apply isCriticalField_iff; exact K. }
  split; [reflexivity|]. split; [exact M|]. split; [exact C|]. split.
  - rewrite Nat.eqb_eq, length_zero_iff_nil, nil_iff_no_member. split.
    + intros Nil n f F E.
      assert (NC : ~ ((7 <= weight f)%Q \/ null_handling f = conservative)).
      { intros K. apply (Nil n). apply C. eauto. }
      split; [lra | tauto].
    + intros H n I. apply C in I.
      destruct I as (f & F & E & K).
      destruct (H n f F E) as [W Hn].
      destruct K; [lra | contradiction].
  - rewrite L, length_map. reflexivity.
Qed.

Lemma missing_data_report_characterised_witness :
  In "birthDate"
     (criticalFieldsMissing
        (analyzeMissingData (fun _ => "10")
                            [Scenario.boundary_rule conservative conservative]
                            Scenario.candidateA "A")).
Proof.
  apply (proj1 (proj2 (proj2
           (missing_data_report_characterised
              (fun _ => "10")
              [Scenario.boundary_rule conservative conservative]
              Scenario.candidateA "A")))).
  exists (Scenario.exact_rule "birthDate" conservative conservative).
  split; [reflexivity|]. split; [reflexivity|].
  left. vm_compute. discriminate.
Defined.

(** ** Merging twice *)

Section MergeTwice.

Lemma patient_ext (p q : FHIRPatient) :
  resourceType p = resourceType q ->
  Fhir.id p = Fhir.id q ->
  identifier p = identifier q ->
  active p = active q ->
  name p = name q ->
  gender p = gender q ->
  birthDate p = birthDate q ->
  p = q.
Proof.
  destruct p, q; simpl; intros; subst; reflexivity.
Qed.

End MergeTwice.

(** X12.  Merging is idempotent in the existing patient: merging the
    result again with the same existing patient changes nothing; and
    merging a patient with itself returns it unchanged. *)
Theorem merge_is_idempotent newPatient existingPatient :
  mergePatientData (mergePatientData newPatient existingPatient)
                   existingPatient
  = mergePatientData newPatient existingPatient
  /\ mergePatientData newPatient newPatient = newPatient.
Proof.
  split.
  - destruct (merge_frame (mergePatientData newPatient existingPatient)
                          existingPatient) as (F1 & F2 & F3).
    apply patient_ext; auto.
    + rewrite merge_identifier.
      rewrite (merge_identifier newPatient existingPatient).
      destruct (no_items (identifier newPatient)) eqn:N;
        [destruct (no_items (identifier existingPatient)) | rewrite N];
        reflexivity.
    + rewrite merge_name.
      rewrite (merge_name newPatient existingPatient).
      destruct (name_incomplete (name newPatient)) eqn:N;
        [|rewrite N; reflexivity].
      destruct (no_items (name existingPatient)) eqn:E.
      * rewrite N. reflexivity.
      * destruct (name_incomplete (name existingPatient)); reflexivity.
    + rewrite merge_gender.
      rewrite (merge_gender newPatient existingPatient).
      destruct (missing (gender newPatient)) eqn:N;
        [|rewrite N; reflexivity].
      destruct (missing (gender existingPatient)) eqn:E;
        [rewrite N | rewrite E]; reflexivity.
    + rewrite merge_birthDate.
      rewrite (merge_birthDate newPatient existingPatient).
      destruct (missing (birthDate newPatient)) eqn:N;
        [|rewrite N; reflexivity].
      destruct (missing (birthDate existingPatient)) eqn:E;
        [rewrite N | rewrite E]; reflexivity.
  - destruct (merge_frame newPatient newPatient) as (F1 & F2 & F3).
    apply patient_ext; auto.
    + rewrite merge_identifier.
      destruct (no_items (identifier newPatient)); reflexivity.
    + rewrite merge_name.
      destruct (name_incomplete (name newPatient));
        [destruct (no_items (name newPatient))|]; reflexivity.
    + rewrite merge_gender.
      destruct (missing (gender newPatient)); reflexivity.
    + rewrite merge_birthDate.
      destruct (missing (birthDate newPatient)); reflexivity.
Qed.

(** ** The retry lane *)

Import Retry.

Section RetryCandidates.

Let older (a b : FailedRow) : Prop := (f_created_at a <= f_created_at b)%Z.

Lemma insert_by_created_In x y : forall l,
    In y (insert_by_created x l) <-> y = x \/ In y l.
Proof.
  induction l as [|z l IH]; simpl.
  - intuition.
  - destruct (f_created_at x <=? f_created_at z)%Z; simpl; rewrite ?IH;
      intuition.
Qed.

Lemma order_by_created_In y : forall l,
    In y (order_by_created l) <-> In y l.
Proof.
  induction l as [|x l IH]; simpl.
  - tauto.
  - rewrite insert_by_created_In, IH. intuition.
Qed.

Lemma insert_by_created_sorted x : forall l,
    StronglySorted older l -> StronglySorted older (insert_by_created x l).
Proof.
  induction l as [|z l IH]; simpl; intros S.
  - constructor; constructor.
  - inversion S as [|? ? S' F]; subst.
    destruct (Z.leb_spec (f_created_at x) (f_created_at z)).
    + constructor; [exact S|].
      constructor; [exact H|].
      eapply Forall_impl; [|exact F].
      unfold older. intros c Hc. lia.
    + constructor; [apply IH; exact S'|].
      apply Forall_forall. intros c Hc.
      apply insert_by_created_In in Hc. destruct Hc as [->|Hc].
      * unfold older. lia.
      * rewrite Forall_forall in F. auto.
Qed.

Lemma order_by_created_sorted : forall l,
    StronglySorted older (order_by_created l).
Proof.
  induction l; simpl.
  - constructor.
  - apply insert_by_created_sorted; assumption.
Qed.

Lemma sorted_app_inv {A} (R : A -> A -> Prop) : forall l1 l2,
    StronglySorted R (l1 ++ l2) ->
    forall x y, In x l1 -> In y l2 -> R x y.
Proof.
  induction l1 as [|a l1 IH]; simpl; intros l2 S x y Hx Hy.
  - destruct Hx.
  - inversion S as [|? ? S' F]; subst.
    destruct Hx as [<-|Hx].
    + rewrite Forall_forall in F. apply F. apply in_or_app; auto.
    + eapply IH; eauto.
Qed.

(** The rows left out by a [LIMIT] on a sorted list are not before
    any row that is kept. *)
Lemma limit_keeps_first {A} (R : A -> A -> Prop) n (l : list A) x y :
  StronglySorted R l ->
  In x (firstn n l) -> In y l -> ~ In y (firstn n l) -> R x y.
Proof.
  intros S Hx Hy Hn.
  rewrite <- (firstn_skipn n l) in S, Hy.
  apply in_app_or in Hy. destruct Hy as [Hy|Hy]; [contradiction|].
  eapply sorted_app_inv; eauto.
Qed.

Lemma retry_ready_iff now f :
  retry_ready now f = true
  <-> f_synced f = false
      /\ (f_last_attempt_at f = None
          \/ exists attempted,
              f_last_attempt_at f = Some attempted
              /\ (attempted < now - cooldown)%Z).
Proof.
  unfold retry_ready. rewrite andb_true_iff, negb_true_iff.
  destruct (f_last_attempt_at f) as [t|].
  - rewrite Z.ltb_lt. split.
    + intros [A B]. split; [exact A|]. right. eauto.
    + intros [A [B | (t' & B & C)]]; [discriminate|].
      inversion B; subst. auto.
  - split; intros [A _]; auto.
Qed.

Lemma get_failed_sessions_for_retry_spec db now batch_size :
  let rows := get_failed_sessions_for_retry db now batch_size in
  List.length rows <= batch_size
  /\ StronglySorted older rows
  /\ (forall row, In row rows ->
                  In row (cdc_failed_records db)
                  /\ retry_ready now row = true)
  /\ (forall row other,
         In row rows ->
         In other (cdc_failed_records db) ->
         retry_ready now other = true ->
         ~ In other rows ->
         older row other).
Proof.
  unfold get_failed_sessions_for_retry. cbv zeta.
  set (ready := filter (retry_ready now) (cdc_failed_records db)).
  split; [apply firstn_le_length|].
  split; [apply firstn_sorted, order_by_created_sorted|].
  split.
  - intros row I. apply In_firstn_In in I.
    rewrite order_by_created_In in I. apply filter_In in I. exact I.
  - intros row other I O R N.
    eapply (limit_keeps_first (R := older)); eauto.
    + apply order_by_created_sorted.
    + rewrite order_by_created_In. apply filter_In. auto.
Qed.

End RetryCandidates.

(** X13.  [get_failed_sessions_for_retry] returns at most
    [batch_size] ledger rows, all of them unsynced and either never
    attempted or last attempted more than 5 minutes before now, in
    ascending order of [created_at]; an eligible row that is left out
    was not created before any returned row. *)
Theorem retry_candidates_oldest_first db now batch_size :
  let rows := get_failed_sessions_for_retry db now batch_size in
  List.length rows <= batch_size
  /\ StronglySorted (fun a b => (f_created_at a <= f_created_at b)%Z) rows
  /\ (forall row,
         In row rows ->
         In row (cdc_failed_records db)
         /\ f_synced row = false
         /\ (f_last_attempt_at row = None
             \/ exists attempted,
                 f_last_attempt_at row = Some attempted
                 /\ (attempted < now - cooldown)%Z))
  /\ (forall row other,
         In row rows ->
         In other (cdc_failed_records db) ->
         retry_ready now other = true ->
         ~ In other rows ->
         (f_created_at row <= f_created_at other)%Z).
Proof.
  destruct (get_failed_sessions_for_retry_spec db now batch_size)
    as (L & S & M & O).
  cbv zeta. split; [exact L|]. split; [exact S|]. split; [|exact O].
  intros row I. destruct (M row I) as [A B].
  apply retry_ready_iff in B. tauto.
Qed.

(** X14.  Retry cooldown: after [recordFailure] has written the
    failure of a record at time [t] (a new entry or a repeated
    failure), the entry of that session is not returned by
    [get_failed_sessions_for_retry] at any time [now] with
    [now - t <= 5 minutes]. *)
Theorem recorded_failure_waits_for_cooldown
        env record message db now batch_size :
  rejects env (InsertFailedRecord record) = false ->
  (now - now_at env record <= cooldown)%Z ->
  forall row,
    In row (get_failed_sessions_for_retry
              (recordFailure env record message db) now batch_size) ->
    f_session_id row <> id record.
Proof.
  intros R C row I E.
  destruct (get_failed_sessions_for_retry_spec
              (recordFailure env record message db) now batch_size)
    as (_ & _ & M & _).
  destruct (M row I) as [In' Ready]. clear M I.
  apply retry_ready_iff in Ready. destruct Ready as [_ Ready].
  assert (A : f_last_attempt_at row = Some (now_at env record)).
  { unfold recordFailure in In'. rewrite R in In'.
    unfold insert_failed_record, upsert in In'.
    cbn [cdc_failed_records f_session_id] in In'.
    destruct (has_session (id record) (cdc_failed_records db)) eqn:Hs.
    - apply in_map_iff in In'. destruct In' as (f & F & If).
      destruct (Z.eqb_spec (f_session_id f) (id record)) as [Ef|Nf];
        subst row; [reflexivity | congruence].
    - apply in_app_or in In'. destruct In' as [Old | [New | []]].
      + assert (H : has_session (id record) (cdc_failed_records db) = true)
          by (apply has_session_In; eauto).
        congruence.
      + subst row. reflexivity. }
  destruct Ready as [N | (t & T & Lt)]; [congruence|].
  rewrite A in T. inversion T; subst. lia.
Qed.

Lemma recorded_failure_waits_for_cooldown_witness :
  ~ In 7%Z
       (map f_session_id
            (get_failed_sessions_for_retry
               (recordFailure Scenario.replayed Scenario.record7 "again"
                              Scenario.recorded) 302000000 50)).
Proof.
  intros I. apply in_map_iff in I. destruct I as (row & E & I).
  apply (@recorded_failure_waits_for_cooldown
           Scenario.replayed Scenario.record7 "again" Scenario.recorded
           302000000 50 eq_refl) with (row := row).
  - vm_compute. discriminate.
  - exact I.
  - exact E.
Defined.

Section RetryNeverSucceeds.

Variable env : RetryEnv.

Lemma stored_text_is_no_entry text uid :
  fst (convertToNeotreeEntry (JString text) uid)
  = Throw "Invalid session data".
Proof.
  unfold convertToNeotreeEntry. cbn [is_object negb].
  rewrite orb_true_r. reflexivity.
Qed.

Lemma retry_attempt_fails record db :
  retry_attempt env record db = (db, Some "Invalid session data").
Proof.
  unfold retry_attempt.
  pose proof (stored_text_is_no_entry (f_data record) (f_impilo_uid record))
    as H.
  destruct (convertToNeotreeEntry (JString (f_data record))
                                  (f_impilo_uid record)) as [[entry|m] d];
    simpl in H; [discriminate|].
  inversion H; subst. reflexivity.
Qed.

(** The row a failed retry writes for the selected row [record]. *)
Let mark (record f : FailedRow) : FailedRow :=
  {| f_id := f_id f;
     f_session_id := f_session_id f;
     f_ingested_at := f_ingested_at f;
     f_attempt_count := (f_attempt_count f + 1)%Z;
     f_last_error := Some "Invalid session data";
     f_last_attempt_at := Some (retry_now_at env record);
     f_created_at := f_created_at f;
     f_impilo_uid := f_impilo_uid f;
     f_impilo_id := f_impilo_id f;
     f_data := f_data f;
     f_synced := false |}.

Let touch (records : list FailedRow) (f : FailedRow) : FailedRow :=
  match find (fun r => (f_id r =? f_id f)%Z) records with
  | Some r => mark r f
  | None => f
  end.

Lemma retryBatch_keeps_sessions : forall records db,
    map f_session_id (cdc_failed_records (fst (retryBatch env records db)))
    = map f_session_id (cdc_failed_records db)
    /\ map f_data (cdc_failed_records (fst (retryBatch env records db)))
       = map f_data (cdc_failed_records db)
    /\ cdc_watermark (fst (retryBatch env records db)) = cdc_watermark db.
Proof.
  induction records as [|r records IH]; intros db.
  - simpl. auto.
  - cbn [retryBatch]. rewrite retry_attempt_fails.
    destruct (retry_rejects env (UpdateFailedSessionRetry (f_id r))).
    + simpl. auto.
    + destruct (IH (update_failed_session_retry
                      (f_id r) (Some "Invalid session data") false
                      (retry_now_at env r) db)) as (A & B & C).
      rewrite A, B, C. unfold update_failed_session_retry; simpl.
      rewrite !map_map. repeat split; apply map_ext; intros f;
        destruct (f_id f =? f_id r)%Z; reflexivity.
Qed.

Lemma retryBatch_accepted : forall records db,
    (forall q, retry_rejects env q = None) ->
    NoDup (map f_id records) ->
    cdc_failed_records (fst (retryBatch env records db))
    = map (touch records) (cdc_failed_records db).
Proof.
  induction records as [|r records IH]; intros db Acc N.
  - simpl. rewrite map_id. reflexivity.
  - cbn [retryBatch]. rewrite retry_attempt_fails, Acc.
    inversion N as [|? ? Nr N']; subst.
    rewrite IH by assumption.
    unfold update_failed_session_retry; simpl. rewrite map_map.
    apply map_ext. intros f. unfold touch. cbn [find].
    rewrite (Z.eqb_sym (f_id r) (f_id f)).
    destruct (Z.eqb_spec (f_id f) (f_id r)) as [E|Ne]; [|reflexivity].
    cbn [f_id].
    destruct (find (fun r0 => (f_id r0 =? f_id f)%Z) records) as [r'|] eqn:F;
      [|reflexivity].
    exfalso. apply find_some in F. destruct F as [I F].
    apply Z.eqb_eq in F. apply Nr. rewrite <- E, <- F.
    apply in_map; exact I.
Qed.

End RetryNeverSucceeds.

Lemma unique_by_id : forall rows (a b : FailedRow),
    NoDup (map f_id rows) -> In a rows -> In b rows -> f_id a = f_id b ->
    a = b.
Proof.
  induction rows as [|f rows IH]; simpl; intros a b N A B E; [tauto|].
  inversion N as [|? ? Hn N']; subst.
  destruct A as [<-|A], B as [<-|B]; auto.
  - exfalso. apply Hn. rewrite E. apply in_map; exact B.
  - exfalso. apply Hn. rewrite <- E. apply in_map; exact A.
Qed.

Lemma insert_by_created_ids x : forall l,
    NoDup (map f_id l) ->
    ~ In (f_id x) (map f_id l) ->
    NoDup (map f_id (insert_by_created x l)).
Proof.
  induction l as [|z l IH]; simpl; intros S Hx.
  - constructor; [simpl; tauto | constructor].
  - destruct (f_created_at x <=? f_created_at z)%Z.
    + constructor; [simpl; tauto | exact S].
    + inversion S as [|? ? Hz S']; subst. simpl.
      constructor.
      * intros I. apply in_map_iff in I. destruct I as (y & E & Hy).
        apply insert_by_created_In in Hy. destruct Hy as [-> | Hy].
        -- apply Hx. left. congruence.
        -- apply Hz. apply in_map_iff. eauto.
      * apply IH; [exact S' | tauto].
Qed.

Lemma order_by_created_ids : forall l,
    NoDup (map f_id l) -> NoDup (map f_id (order_by_created l)).
Proof.
  induction l as [|x l IH]; simpl; intros N; [constructor|].
  inversion N as [|? ? Hn N']; subst.
  apply insert_by_created_ids; [apply IH; exact N'|].
  intros I. apply Hn. apply in_map_iff in I.
  destruct I as (y & E & Hy). rewrite order_by_created_In in Hy.
  apply in_map_iff. eauto.
Qed.

Lemma filter_ids (keep : FailedRow -> bool) : forall l,
    NoDup (map f_id l) -> NoDup (map f_id (filter keep l)).
Proof.
  induction l as [|f l IH]; simpl; intros N; [constructor|].
  inversion N as [|? ? Hn N']; subst.
  destruct (keep f); simpl; auto.
  constructor; auto.
  intros I. apply Hn. apply in_map_iff in I.
  destruct I as (x & E & Hx). apply filter_In in Hx.
  apply in_map_iff. exists x. tauto.
Qed.

Lemma firstn_ids : forall n (l : list FailedRow),
    NoDup (map f_id l) -> NoDup (map f_id (firstn n l)).
Proof.
  induction n; intros l S; simpl; [constructor|].
  destruct l as [|x l]; simpl; [constructor|].
  inversion S as [|? ? Hx S']; subst.
  constructor; [|apply IHn; exact S'].
  intros I. apply Hx. apply in_map_iff in I.
  destruct I as (y & E & Hy). apply In_firstn_In in Hy.
  apply in_map_iff. eauto.
Qed.

Lemma sublist_ids_unique now n (rows : list FailedRow) :
  NoDup (map f_id rows) ->
  NoDup (map f_id (firstn n (order_by_created
                               (filter (retry_ready now) rows)))).
Proof.
  intros N. apply firstn_ids, order_by_created_ids, filter_ids, N.
Qed.


Lemma retryBatch_ignores_callback env callback : forall records db,
    fst (retryBatch {| retry_processEntry := callback;
                       retry_rejects := retry_rejects env;
                       select_now := select_now env;
                       retry_now_at := retry_now_at env |} records db)
    = fst (retryBatch env records db).
Proof.
  induction records as [|r records IH]; intros db; [reflexivity|].
  cbn [retryBatch]. rewrite !retry_attempt_fails.
  cbn [retry_rejects retry_now_at].
  destruct (retry_rejects env (UpdateFailedSessionRetry (f_id r)));
    [reflexivity | apply IH].
Qed.

(** X15.  A retry cycle never removes a ledger entry and never calls
    [processEntry]: the [data] column holds text, so
    [convertToNeotreeEntry] throws 'Invalid session data' for every
    retried row.  Whatever the environment, the session ids and the
    payloads of the ledger and the watermark are the same after the
    cycle; and when every statement is accepted and row ids are
    distinct, each selected row has its attempt count raised by 1,
    that error as last error, the time of the write as last attempt
    and [synced] false, while every row not selected is unchanged. *)
Theorem retry_cycle_never_succeeds env db :
  map f_session_id (cdc_failed_records (retryFailedSessions env db))
  = map f_session_id (cdc_failed_records db)
  /\ map f_data (cdc_failed_records (retryFailedSessions env db))
     = map f_data (cdc_failed_records db)
  /\ cdc_watermark (retryFailedSessions env db) = cdc_watermark db
  /\ (forall callback,
        retryFailedSessions
          {| retry_processEntry := callback;
             retry_rejects := retry_rejects env;
             select_now := select_now env;
             retry_now_at := retry_now_at env |} db
        = retryFailedSessions env db)
  /\ ((forall q, retry_rejects env q = None) ->
      NoDup (map f_id (cdc_failed_records db)) ->
      forall row,
        In row (cdc_failed_records db) ->
        (In row (get_failed_sessions_for_retry db (select_now env) 50) ->
         exists after,
           In after (cdc_failed_records (retryFailedSessions env db))
           /\ retried (retry_now_at env row) row after)
        /\ (~ In row (get_failed_sessions_for_retry db (select_now env) 50) ->
            In row (cdc_failed_records (retryFailedSessions env db)))).
Proof.
  assert (Shape : forall e,
             retryFailedSessions e db
             = match retry_rejects e SelectForRetry with
               | Some _ => db
               | None =>
                   fst (retryBatch e (get_failed_sessions_for_retry
                                        db (select_now e) 50) db)
               end).
  { intros e. unfold retryFailedSessions.
    destruct (retry_rejects e SelectForRetry); [reflexivity|].
    destruct (get_failed_sessions_for_retry db (select_now e) 50);
      reflexivity. }
  split; [|split; [|split; [|split]]].
  - rewrite Shape. destruct (retry_rejects env SelectForRetry); auto.
    apply retryBatch_keeps_sessions.
  - rewrite Shape. destruct (retry_rejects env SelectForRetry); auto.
    apply retryBatch_keeps_sessions.
  - rewrite Shape. destruct (retry_rejects env SelectForRetry); auto.
    apply retryBatch_keeps_sessions.
  - intros callback. rewrite !Shape. cbn [retry_rejects select_now].
    destruct (retry_rejects env SelectForRetry); [reflexivity|].
    apply retryBatch_ignores_callback.
  - intros Acc N row I.
    rewrite Shape, Acc.
    set (records := get_failed_sessions_for_retry db (select_now env) 50).
    assert (Nr : NoDup (map f_id records))
      by (apply sublist_ids_unique; exact N).
    rewrite (retryBatch_accepted env records db Acc Nr).
    split.
    + intros Sel.
      eexists. split; [apply in_map; exact I|].
      destruct (find (fun r => (f_id r =? f_id row)%Z) records) as [r|] eqn:F.
      * pose proof (find_some _ _ F) as [Ir Er]. apply Z.eqb_eq in Er.
        assert (r = row).
        { apply (unique_by_id (cdc_failed_records db)); auto.
          apply In_firstn_In in Ir. rewrite order_by_created_In in Ir.
          apply filter_In in Ir. tauto. }
        subst r. unfold retried; simpl. tauto.
      * exfalso. eapply find_none in F; [|exact Sel].
        rewrite Z.eqb_refl in F. discriminate.
    + intros NSel.
      destruct (find (fun r => (f_id r =? f_id row)%Z) records) as [r|] eqn:F.
      * exfalso. pose proof (find_some _ _ F) as [Ir Er]. apply Z.eqb_eq in Er.
        assert (r = row).
        { apply (unique_by_id (cdc_failed_records db)); auto.
          apply In_firstn_In in Ir. rewrite order_by_created_In in Ir.
          apply filter_In in Ir. tauto. }
        subst r. contradiction.
      * apply in_map_iff. exists row. rewrite F. auto.
Qed.

Lemma retry_cycle_never_succeeds_witness :
  exists after,
    In after (cdc_failed_records
                (retryFailedSessions RetryScenario.late Scenario.recorded))
    /\ retried 360002000 Scenario.entry7 after.
Proof.
  refine (proj1 (proj2 (proj2 (proj2 (proj2
            (retry_cycle_never_succeeds RetryScenario.late
                                        Scenario.recorded))))
            (fun q => eq_refl) _ Scenario.entry7 _) _).
  - vm_compute.
    repeat (constructor; [simpl; intuition discriminate|]). constructor.
  - right. left. vm_compute. reflexivity.
  - vm_compute. right. left. reflexivity.
Defined.

(** ** More on poll cycles *)

Section PollFrame.

Variable cfg : Config.
Variable env : Env.

Lemma upsert_other proposed on_conflict db row :
  f_session_id row <> f_session_id proposed ->
  In row (cdc_failed_records db) ->
  In row (cdc_failed_records (upsert proposed on_conflict db)).
Proof.
  intros N I. unfold upsert; simpl.
  destruct (has_session (f_session_id proposed) (cdc_failed_records db)).
  - apply in_map_iff. exists row. split; [|exact I].
    apply Z.eqb_neq in N. rewrite N. reflexivity.
  - apply in_or_app. auto.
Qed.

Lemma recordFailure_other record message db row :
  f_session_id row <> id record ->
  In row (cdc_failed_records db) ->
  In row (cdc_failed_records (recordFailure env record message db)).
Proof.
  intros N I. unfold recordFailure.
  destruct (rejects env (InsertFailedRecord record)); [exact I|].
  apply upsert_other; assumption.
Qed.

Lemma process_records_other row : forall records db sc fc,
    (forall r, In r records -> failed env r -> id r <> f_session_id row) ->
    In row (cdc_failed_records db) ->
    In row (cdc_failed_records
              (fst (fst (process_records env records db sc fc)))).
Proof.
  induction records as [|r records IH]; intros db sc fc H I; simpl; auto.
  pose proof (attempt_id env r) as Eid.
  destruct (attempt env r) as [[message|] r'] eqn:A.
  - apply IH; [intros r0 I0 F0; apply H; [right; exact I0 | exact F0]|].
    apply recordFailure_other; [|exact I].
    simpl in Eid. rewrite Eid. intros E. symmetry in E. revert E.
    apply H; [left; reflexivity|].
    unfold failed. rewrite A. discriminate.
  - apply IH; [intros r0 I0 F0; apply H; [right; exact I0 | exact F0] | exact I].
Qed.

Lemma process_records_all_pass : forall records db sc fc,
    (forall r, In r records -> ~ failed env r) ->
    fst (fst (process_records env records db sc fc)) = db.
Proof.
  induction records as [|r records IH]; intros db sc fc H; simpl; auto.
  destruct (attempt env r) as [[message|] r'] eqn:A.
  - exfalso. apply (H r); [left; reflexivity|].
    unfold failed. rewrite A. discriminate.
  - apply IH. intros r0 I0. apply H. right; exact I0.
Qed.

Lemma poll_shape db :
  pollForNewSessions cfg env db = db
  \/ exists rows final,
      fetch env db = Ok rows
      /\ rows <> []
      /\ pollForNewSessions cfg env db
         = updateWatermark cfg env (ingested_at final) (id final)
                           (List.length rows)
                           (fst (fst (process_records env rows db 0 0))).
Proof.
  destruct (fetch env db) as [rows|m] eqn:F.
  - destruct rows as [|r rows'].
    + left. unfold pollForNewSessions. rewrite F. reflexivity.
    + right. destruct (poll_with_rows cfg env db F) as (init & final & _ & P);
        [discriminate|].
      exists (r :: rows'), final. repeat split; auto. discriminate.
  - left. unfold pollForNewSessions. rewrite F. reflexivity.
Qed.

End PollFrame.

(** X16.  A poll cycle and the ledger: it keeps session ids distinct;
    it leaves every entry in place whose session is not one of the
    fetched rows that failed; and when no fetched row fails, or
    nothing is fetched, the ledger is exactly as before. *)
Theorem poll_cycle_frames_ledger cfg env db :
  (ledger_unique db -> ledger_unique (pollForNewSessions cfg env db))
  /\ (forall rows row,
         fetch env db = Ok rows ->
         In row (cdc_failed_records db) ->
         (forall r, In r rows -> failed env r -> id r <> f_session_id row) ->
         In row (cdc_failed_records (pollForNewSessions cfg env db)))
  /\ (forall rows,
         fetch env db = Ok rows ->
         (forall r, In r rows -> ~ failed env r) ->
         cdc_failed_records (pollForNewSessions cfg env db)
         = cdc_failed_records db)
  /\ (forall message,
         fetch env db = Throw message ->
         pollForNewSessions cfg env db = db).
Proof.
  split; [|split; [|split]].
  - intros U. destruct (poll_shape cfg env db) as [-> | (rows & final & F & N & ->)];
      [exact U|].
    unfold ledger_unique. rewrite updateWatermark_ledger.
    apply process_records_unique; exact U.
  - intros rows row F I H.
    destruct (poll_shape cfg env db) as [-> | (rows' & final & F' & N & ->)];
      [exact I|].
    rewrite F in F'. inversion F'; subst rows'.
    rewrite updateWatermark_ledger. apply process_records_other; auto.
  - intros rows F H.
    destruct (poll_shape cfg env db) as [-> | (rows' & final & F' & N & ->)];
      [reflexivity|].
    rewrite F in F'. inversion F'; subst rows'.
    rewrite updateWatermark_ledger, process_records_all_pass; auto.
  - intros message F. unfold pollForNewSessions. rewrite F. reflexivity.
Qed.

Lemma poll_cycle_frames_ledger_witness :
  fetch Scenario.follow_up Scenario.recorded
  = Ok [to_record Scenario.session9]
  /\ failed Scenario.follow_up (to_record Scenario.session9)
  /\ In Scenario.entry7
        (cdc_failed_records
           (pollForNewSessions Scenario.cfg Scenario.follow_up
                               Scenario.recorded)).
Proof.
  split; [vm_compute; reflexivity|].
  split; [unfold failed; vm_compute; discriminate|].
  refine (proj1 (proj2 (poll_cycle_frames_ledger
                          Scenario.cfg Scenario.follow_up Scenario.recorded))
                [to_record Scenario.session9] Scenario.entry7 eq_refl _ _).
  - right. left. vm_compute. reflexivity.
  - intros r [<-|[]] _. vm_compute. discriminate.
Defined.

(** X17.  Accounting of a batch: [processBatch] counts every row once
    as a success or as a failure, and a cycle whose watermark write is
    accepted adds the number of fetched rows (at most 100), failed
    rows included, to [records_processed], clears [last_error] and
    stamps [updated_at]. *)
Theorem batch_counts_every_row cfg env db rows w rest :
  fetch env db = Ok rows ->
  rows <> [] ->
  cdc_watermark db = w :: rest ->
  table_name w = sourceTable cfg ->
  rejects env UpdateWatermark = false ->
  (snd (fst (processBatch cfg env rows db)) + snd (processBatch cfg env rows db)
   = List.length rows)
  /\ List.length rows <= 100
  /\ exists w' rest',
      cdc_watermark (pollForNewSessions cfg env db) = w' :: rest'
      /\ table_name w' = table_name w
      /\ records_processed w'
         = (records_processed w + Z.of_nat (List.length rows))%Z
      /\ last_error w' = None
      /\ updated_at w' = now_end env.
Proof.
  intros F N W T R.
  split; [|split].
  - unfold processBatch.
    pose proof (process_records_counts env rows db 0 0) as C.
    destruct (process_records env rows db 0 0) as [[db1 sc] fc].
    destruct (nth_error rows (List.length rows - 1)); simpl; lia.
  - destruct (fetch_spec env db F)
      as (selected & w0 & rest0 & _ & _ & _ & _ & _ & L).
    exact L.
  - destruct (poll_with_rows cfg env db F N) as (init & final & _ & P).
    rewrite P. unfold updateWatermark. rewrite R.
    unfold update_watermark. cbn [cdc_watermark set_watermarks].
    rewrite process_records_watermark, W. cbn [map].
    rewrite T, String.eqb_refl.
    eexists. eexists. split; [reflexivity|]. simpl. auto.
Qed.

Lemma batch_counts_every_row_witness :
  exists w' rest',
    cdc_watermark
      (pollForNewSessions Scenario.cfg Scenario.healthy Scenario.fresh)
    = w' :: rest'
    /\ records_processed w' = 2%Z.
Proof.
  destruct (@batch_counts_every_row
              Scenario.cfg Scenario.healthy Scenario.fresh
              [Scenario.record1; Scenario.record7]
              {| table_name := "sessions"; last_ingested_at := 0;
                 last_processed_id := None; records_processed := 0;
                 last_error := None; updated_at := 0 |}
              [] eq_refl)
    as (_ & _ & w' & rest' & W & _ & P & _).
  - discriminate.
  - reflexivity.
  - reflexivity.
  - reflexivity.
  - exists w', rest'. split; [exact W | exact P].
Defined.

(** ** Which rows a fetch returns, and which it never will *)

Lemma firstn_keeps_earliest {A} (R : A -> A -> Prop) (s : A) : forall n l,
    StronglySorted R l ->
    In s l ->
    In s (firstn n l)
    \/ (List.length (firstn n l) = n
        /\ forall x, In x (firstn n l) -> R x s).
Proof.
  induction n as [|n IH]; intros l S I.
  - right. split; [reflexivity | intros x []].
  - destruct l as [|a l]; [destruct I|].
    inversion S as [|? ? S' F]; subst.
    destruct I as [->|I]; [left; left; reflexivity|].
    destruct (IH l S' I) as [H|[L H]].
    + left. right. exact H.
    + right. split; [simpl; rewrite L; reflexivity|].
      intros x [<-|Hx].
      * rewrite Forall_forall in F. apply F; exact I.
      * apply H; exact Hx.
Qed.

Lemma firstn_all {A} (l : list A) n :
  List.length l <= n -> firstn n l = l.
Proof. intros H. apply firstn_all2; exact H. Qed.

(** Over cycles that run one after the other the millisecond of the
    watermark timestamp never goes back. *)
Lemma poll_cycles_date_monotone cfg : forall envs db w rest,
    cdc_watermark db = w :: rest ->
    exists w' rest',
      cdc_watermark (poll_cycles cfg envs db) = w' :: rest'
      /\ (to_date (last_ingested_at w) <= to_date (last_ingested_at w'))%Z.
Proof.
  induction envs as [|env envs IH]; intros db w rest W.
  - exists w, rest. split; [exact W | lia].
  - destruct (@poll_date_monotone cfg env db w rest W)
      as (w1 & rest1 & W1 & L1).
    destruct (IH (pollForNewSessions cfg env db) w1 rest1 W1)
      as (w2 & rest2 & W2 & L2).
    exists w2, rest2. split; [exact W2 | lia].
Qed.

(** The earliest rows past the watermark, by the order of the
    query. *)
Lemma get_new_sessions_earliest source db w rest table selected :
  get_new_sessions source db batchSize = Ok selected ->
  cdc_watermark db = w :: rest ->
  source (table_name w) = Some table ->
  forall s,
    In s table ->
    (last_ingested_at w < s_ingested_at s)%Z ->
    In s selected
    \/ (List.length selected = 100
        /\ forall x, In x selected -> session_le x s).
Proof.
  intros G W T s I L.
  unfold get_new_sessions in G. rewrite W, T in G.
  inversion G; subst selected; clear G.
  set (fresh := filter (fun s => (last_ingested_at w <? s_ingested_at s)%Z)
                       table).
  assert (Is : In s (order_sessions fresh)).
  { apply order_sessions_In. apply filter_In. split; [exact I|].
    apply Z.ltb_lt; exact L. }
  destruct (firstn_keeps_earliest s batchSize (order_sessions_sorted fresh) Is)
    as [H|[Len H]].
  - left. exact H.
  - right. split; [exact Len|].
    intros x Hx. apply session_leb_position. apply H; exact Hx.
Qed.

(** X18.  [get_new_sessions] as the poller calls it returns the
    earliest fresh rows: every row of the source table ingested after
    the watermark timestamp is either in the batch, or the batch is
    full (100 rows) and all its rows are at or before that row in
    (timestamp, id) order; and every row of the batch was ingested
    after the watermark timestamp.  Over rows ingested at whole
    milliseconds the same holds of the records the service receives:
    no fetched record has the timestamp of a source row at or before
    the watermark timestamp. *)
Theorem fetch_returns_earliest_rows env db rows w rest table :
  fetch env db = Ok rows ->
  cdc_watermark db = w :: rest ->
  source env (table_name w) = Some table ->
  (exists selected,
      get_new_sessions (source env) db batchSize = Ok selected
      /\ rows = map to_record selected
      /\ (forall s,
             In s table ->
             (last_ingested_at w < s_ingested_at s)%Z ->
             In s selected
             \/ (List.length rows = 100
                 /\ forall x, In x selected -> session_le x s))
      /\ (forall s, In s selected ->
                    (last_ingested_at w < s_ingested_at s)%Z))
  /\ (whole_ms_source env ->
      (forall s,
          In s table ->
          (last_ingested_at w < s_ingested_at s)%Z ->
          In (to_record s) rows
          \/ (List.length rows = 100
              /\ forall r, In r rows -> record_le r (to_record s)))
      /\ (forall s r,
             (s_ingested_at s <= last_ingested_at w)%Z ->
             In r rows ->
             ingested_at r <> s_ingested_at s)).
Proof.
  intros F W T.
  destruct (fetch_spec env db F)
    as (selected & w0 & rest0 & G & M & W0 & Past & _ & _).
  rewrite W in W0. inversion W0; subst w0 rest0. clear W0.
  assert (Member : forall x, In x selected -> In x table).
  { destruct (get_new_sessions_spec _ _ _ G)
      as (w1 & rest1 & table1 & W1 & T1 & A & _).
    rewrite W in W1. inversion W1; subst w1 rest1.
    rewrite T in T1. inversion T1; subst table1.
    intros x Hx. apply A; exact Hx. }
  assert (Early : forall s,
             In s table ->
             (last_ingested_at w < s_ingested_at s)%Z ->
             In s selected
             \/ (List.length rows = 100
                 /\ forall x, In x selected -> session_le x s)).
  { intros s I L.
    destruct (get_new_sessions_earliest _ _ G W T s I L) as [H|[Len H]];
      [left; exact H|].
    right. split; [rewrite M, length_map; exact Len | exact H]. }
  split.
  - exists selected. auto.
  - intros Whole. split.
    + intros s I L. destruct (Early s I L) as [H|[Len H]].
      * left. rewrite M. apply in_map; exact H.
      * right. split; [exact Len|].
        intros r Hr. rewrite M in Hr. apply in_map_iff in Hr.
        destruct Hr as (x & <- & Hx).
        apply to_record_le; [| |apply H; exact Hx].
        -- apply (Whole _ _ _ T). apply Member; exact Hx.
        -- apply (Whole _ _ _ T). exact I.
    + intros s r L Hr E. rewrite M in Hr. apply in_map_iff in Hr.
      destruct Hr as (x & <- & Hx). simpl in E.
      rewrite (to_date_whole (Whole _ _ _ T (Member x Hx))) in E.
      specialize (Past x Hx). lia.
Qed.

Lemma fetch_returns_earliest_rows_witness :
  In (to_record Scenario.session7) [Scenario.record1; Scenario.record7]
  \/ (2 = 100
      /\ forall r,
          In r [Scenario.record1; Scenario.record7] ->
          record_le r (to_record Scenario.session7)).
Proof.
  refine (proj1 (proj2 (@fetch_returns_earliest_rows
                          Scenario.healthy Scenario.fresh
                          [Scenario.record1; Scenario.record7]
                          {| table_name := "sessions"; last_ingested_at := 0;
                             last_processed_id := None;
                             records_processed := 0;
                             last_error := None; updated_at := 0 |}
                          [] [Scenario.session7; Scenario.session1]
                          eq_refl eq_refl eq_refl) _)
                Scenario.session7 _ _).
  - whole_ms_table.
  - left. reflexivity.
  - vm_compute. reflexivity.
Defined.

(** X19.  After a cycle whose watermark write is accepted, the
    watermark timestamp is the [Date] of the last row of the batch,
    the row's timestamp cut to whole milliseconds.  No later fetch,
    whatever cycles run in between one after the other, returns a row
    ingested at or before that [Date]: a source row that becomes
    visible later with such a timestamp is never fetched.  And the
    next fetch takes every row of the table ingested after that
    [Date], up to its limit: a row of the batch whose timestamp lies
    within the last millisecond, past the [Date], is fetched
    again. *)
Theorem later_fetches_are_strictly_later cfg env db rows :
  fetch env db = Ok rows ->
  rows <> [] ->
  watermark_configured cfg db ->
  rejects env UpdateWatermark = false ->
  exists init final w' rest',
    rows = init ++ [final]
    /\ cdc_watermark (pollForNewSessions cfg env db) = w' :: rest'
    /\ last_ingested_at w' = ingested_at final
    /\ (forall envs env' selected',
           get_new_sessions
             (source env')
             (poll_cycles cfg envs (pollForNewSessions cfg env db))
             batchSize
           = Ok selected' ->
           forall s, In s selected' ->
                     (ingested_at final < s_ingested_at s)%Z)
    /\ (forall env' table selected' s,
           get_new_sessions (source env') (pollForNewSessions cfg env db)
                            batchSize
           = Ok selected' ->
           source env' (table_name w') = Some table ->
           In s table ->
           (ingested_at final < s_ingested_at s)%Z ->
           In s selected'
           \/ (List.length selected' = 100
               /\ forall x, In x selected' -> session_le x s)).
Proof.
  intros F N (w & rest & W & T) R.
  destruct (poll_with_sessions cfg env db F N) as (init & final & G & M & P).
  assert (Wafter : exists w' rest',
             cdc_watermark (pollForNewSessions cfg env db) = w' :: rest'
             /\ last_ingested_at w' = to_date (s_ingested_at final)).
  { rewrite P. unfold updateWatermark. rewrite R.
    unfold update_watermark. cbn [cdc_watermark set_watermarks].
    rewrite process_records_watermark, W. cbn [map].
    rewrite T, String.eqb_refl.
    eexists. eexists. split; reflexivity. }
  destruct Wafter as (w' & rest' & W' & Ts).
  exists (map to_record init), (to_record final), w', rest'.
  split; [rewrite M, map_app; reflexivity|].
  split; [exact W'|]. split; [exact Ts|].
  split.
  - intros envs env' selected' G' s Hs.
    destruct (poll_cycles_date_monotone cfg envs _ W')
      as (w2 & rest2 & W2 & L2).
    destruct (get_new_sessions_spec _ _ _ G')
      as (w3 & rest3 & table3 & W3 & _ & A & _).
    rewrite W2 in W3. inversion W3; subst w3 rest3.
    destruct (A s Hs) as [Past _].
    rewrite Ts, (to_date_whole (to_date_is_whole _)) in L2.
    pose proof (to_date_le (last_ingested_at w2)).
    simpl. lia.
  - intros env' table selected' s G' T' I L.
    apply (get_new_sessions_earliest _ _ G' W' T' s I).
    rewrite Ts. exact L.
Qed.

Lemma later_fetches_are_strictly_later_witness :
  (get_new_sessions (source TieScenario.late_arrival) Scenario.recorded
                    batchSize
   = Ok []
   /\ (forall selected',
          get_new_sessions (source TieScenario.late_arrival)
                           Scenario.recorded batchSize
          = Ok selected' ->
          ~ In TieScenario.session8 selected'))
  /\ (get_new_sessions
        (source DateScenario.first)
        (pollForNewSessions Scenario.cfg DateScenario.first Scenario.fresh)
        batchSize
      = Ok [DateScenario.session5]
      /\ (In DateScenario.session5 [DateScenario.session5]
          \/ (1 = 100
              /\ forall x, In x [DateScenario.session5] ->
                           session_le x DateScenario.session5))).
Proof.
  split; (split; [reflexivity|]).
  - destruct (@later_fetches_are_strictly_later
                Scenario.cfg Scenario.healthy Scenario.fresh
                [Scenario.record1; Scenario.record7] eq_refl)
      as (init & final & w' & rest' & E & _ & _ & Never & _).
    + discriminate.
    + eexists. eexists. split; reflexivity.
    + reflexivity.
    + intros selected' G I.
      specialize (Never [] TieScenario.late_arrival selected' G
                        TieScenario.session8 I).
      assert (Ef : final = Scenario.record7).
      { change [Scenario.record1; Scenario.record7]
          with ([Scenario.record1] ++ [Scenario.record7]) in E.
        apply app_inj_tail in E. symmetry. apply E. }
      rewrite Ef in Never. vm_compute in Never. discriminate.
  - destruct (@later_fetches_are_strictly_later
                Scenario.cfg DateScenario.first Scenario.fresh
                [to_record DateScenario.session5] eq_refl)
      as (init & final & w' & rest' & E & W' & _ & _ & Again).
    + discriminate.
    + eexists. eexists. split; reflexivity.
    + reflexivity.
    + assert (Ef : final = to_record DateScenario.session5).
      { change [to_record DateScenario.session5]
          with ([] ++ [to_record DateScenario.session5]) in E.
        apply app_inj_tail in E. symmetry. apply E. }
      assert (Tn : table_name w' = "sessions").
      { vm_compute in W'. inversion W'. reflexivity. }
      apply (Again DateScenario.first [DateScenario.session5]
                   [DateScenario.session5] DateScenario.session5 eq_refl).
      * rewrite Tn. reflexivity.
      * left. reflexivity.
      * rewrite Ef. vm_compute. reflexivity.
Defined.

(** ** The entry built from a source row *)

Section EntryConversion.
Import Entry.

Lemma lookup_assign_same k v : forall members,
    lookup k (assign k v members) = Some v.
Proof.
  induction members as [|[k' v'] members IH]; simpl.
  - rewrite String.eqb_refl. reflexivity.
  - destruct (String.eqb k k') eqn:E; simpl.
    + rewrite String.eqb_refl. reflexivity.
    + rewrite E. exact IH.
Qed.

Lemma lookup_assign_other k k' v : forall members,
    k' <> k ->
    lookup k' (assign k v members) = lookup k' members.
Proof.
  intros members N. apply String.eqb_neq in N.
  induction members as [|[k0 v0] members IH]; simpl.
  - rewrite N. reflexivity.
  - destruct (String.eqb k k0) eqn:E; simpl.
    + apply String.eqb_eq in E. subst k0. rewrite N. reflexivity.
    + destruct (String.eqb k' k0); [reflexivity | exact IH].
Qed.

Lemma assign_twice k v : forall members,
    assign k v (assign k v members) = assign k v members.
Proof.
  induction members as [|[k' v'] members IH]; simpl.
  - rewrite String.eqb_refl. reflexivity.
  - destruct (String.eqb k k') eqn:E; simpl.
    + rewrite String.eqb_refl. reflexivity.
    + rewrite E, IH. reflexivity.
Qed.

End EntryConversion.

Lemma convertToNeotreeEntry_cases data uid :
  convertToNeotreeEntry data uid
  = if negb (Entry.is_container data)
    then (Throw "Invalid session data", data)
    else if negb (Entry.is_container (Entry.payload_of data))
    then (Throw "Invalid session payload", data)
    else match uid with
         | Some u =>
             if JS.falsy u then (Ok (Entry.payload_of data), data)
             else (Ok (Entry.with_uid u (Entry.payload_of data)),
                   Entry.written_through
                     (Entry.with_uid u (Entry.payload_of data)) data)
         | None => (Ok (Entry.payload_of data), data)
         end.
Proof.
  unfold convertToNeotreeEntry, Entry.payload_of, Entry.written_through.
  destruct data as [| b | n | t | items | members]; try reflexivity.
  - simpl. destruct b; reflexivity.
  - simpl. destruct (n =? 0)%Z; reflexivity.
  - simpl. destruct (JS.falsy t); reflexivity.
  - destruct (lookup "data" members) as [v|]; [|reflexivity].
    destruct v as [| b | n | t | items' | members']; try reflexivity.
    + simpl. destruct b; reflexivity.
    + simpl. destruct (n =? 0)%Z; reflexivity.
    + simpl. destruct (JS.falsy t); reflexivity.
Qed.

Lemma with_uid_container u v :
  Entry.is_container (Entry.with_uid u v) = Entry.is_container v.
Proof. destruct v; reflexivity. Qed.

(** X20.  [convertToNeotreeEntry] rejects exactly the data that is not
    an object or array ('Invalid session data') and the data whose
    non-null [data] member is not one ('Invalid session payload');
    otherwise it returns an object or array.  A rejected call leaves
    the data as it was. *)
Theorem convert_rejects_non_objects data uid :
  (fst (convertToNeotreeEntry data uid) = Throw "Invalid session data"
   <-> Entry.is_container data = false)
  /\ (fst (convertToNeotreeEntry data uid) = Throw "Invalid session payload"
      <-> Entry.is_container data = true
          /\ Entry.is_container (Entry.payload_of data) = false)
  /\ (forall message,
         fst (convertToNeotreeEntry data uid) = Throw message ->
         snd (convertToNeotreeEntry data uid) = data)
  /\ (Entry.is_container data = true ->
      Entry.is_container (Entry.payload_of data) = true ->
      exists entry,
        fst (convertToNeotreeEntry data uid) = Ok entry
        /\ Entry.is_container entry = true).
Proof.
  rewrite convertToNeotreeEntry_cases.
  destruct (Entry.is_container data) eqn:Cd; cbn [negb].
  - destruct (Entry.is_container (Entry.payload_of data)) eqn:Cp; cbn [negb].
    + assert (R : exists entry data',
                 match uid with
                 | Some u =>
                     if JS.falsy u then (Ok (Entry.payload_of data), data)
                     else (Ok (Entry.with_uid u (Entry.payload_of data)),
                           Entry.written_through
                             (Entry.with_uid u (Entry.payload_of data)) data)
                 | None => (Ok (Entry.payload_of data), data)
                 end = (Ok entry, data')
                 /\ Entry.is_container entry = true).
      { destruct uid as [u|]; [destruct (JS.falsy u)|];
          eexists; eexists; (split; [reflexivity|]);
          rewrite ?with_uid_container; exact Cp. }
      destruct R as (entry & data' & -> & Ce). simpl.
      split; [split; discriminate|].
      split; [split; [discriminate | intros [_ H]; discriminate]|].
      split; [discriminate|].
      intros _ _. exists entry. auto.
    + simpl. split; [split; discriminate|].
      split; [split; auto|].
      split; [reflexivity|].
      discriminate.
  - simpl. split; [split; auto|].
    split; [split; [discriminate | intros [H _]; discriminate]|].
    split; [reflexivity|].
    discriminate.
Qed.

Lemma with_uid_twice u v :
  Entry.with_uid u (Entry.with_uid u v) = Entry.with_uid u v.
Proof. destruct v; simpl; try reflexivity. rewrite assign_twice; reflexivity. Qed.

Lemma with_uid_not_null u v :
  Entry.is_container v = true ->
  exists c, Entry.with_uid u v = c /\ Entry.is_container c = true
            /\ c <> JNull.
Proof.
  intros C. exists (Entry.with_uid u v). split; [reflexivity|].
  split; [rewrite with_uid_container; exact C|].
  destruct v; simpl; discriminate.
Qed.

Lemma written_through_cases entry members :
  ((lookup "data" members = None \/ lookup "data" members = Some JNull)
   /\ Entry.written_through entry (JObject members) = entry
   /\ Entry.payload_of (JObject members) = JObject members)
  \/ Entry.written_through entry (JObject members)
     = JObject (assign "data" entry members).
Proof.
  unfold Entry.written_through, Entry.payload_of.
  destruct (lookup "data" members) as [[]|]; auto.
Qed.

Lemma payload_of_written entry data :
  Entry.is_container data = true ->
  Entry.is_container entry = true ->
  (Entry.payload_of data = data ->
   exists u, entry = Entry.with_uid u data) ->
  Entry.payload_of (Entry.written_through entry data) = entry
  /\ Entry.written_through entry (Entry.written_through entry data)
     = Entry.written_through entry data.
Proof.
  intros Cd Ce Same.
  destruct data as [| | | | items | members]; try discriminate.
  - destruct Same as (u & ->); [reflexivity|]. simpl. auto.
  - destruct (written_through_cases entry members) as [(L & W & P) | W];
      rewrite W.
    + destruct (Same P) as (u & E). rewrite E in *. clear E W.
      unfold Entry.payload_of, Entry.written_through. simpl.
      rewrite lookup_assign_other by discriminate.
      destruct L as [-> | ->]; auto.
    + unfold Entry.payload_of, Entry.written_through.
      rewrite lookup_assign_same, assign_twice.
      destruct entry; try discriminate; auto.
Qed.

(** X21.  With a non-empty [impilo_uid], a call of
    [convertToNeotreeEntry] that returns gives an entry whose
    [impilo_uid] member is that uid when the payload is an object and
    whose other members are those of the payload; the write goes into
    the row's own data, whose payload is the returned entry
    afterwards; and converting that data again returns the same entry
    and changes nothing. *)
Theorem convert_writes_uid_into_row_data data uid entry data' :
  JS.falsy uid = false ->
  convertToNeotreeEntry data (Some uid) = (Ok entry, data') ->
  (forall members,
      Entry.payload_of data = JObject members ->
      Entry.member "impilo_uid" entry = Some (JString uid))
  /\ (forall k,
         k <> "impilo_uid" ->
         Entry.member k entry = Entry.member k (Entry.payload_of data))
  /\ Entry.payload_of data' = entry
  /\ convertToNeotreeEntry data' (Some uid) = (Ok entry, data').
Proof.
  intros U H.
  rewrite convertToNeotreeEntry_cases in H. rewrite U in H.
  destruct (Entry.is_container data) eqn:Cd; [|discriminate].
  destruct (Entry.is_container (Entry.payload_of data)) eqn:Cp;
    [|discriminate].
  cbn [negb] in H. inversion H as [[He Hd]]. clear H.
  split; [|split].
  - intros members P. rewrite P. simpl. apply lookup_assign_same.
  - intros k N. destruct (Entry.payload_of data); try reflexivity.
    simpl. apply lookup_assign_other; exact N.
  - assert (Ce : Entry.is_container
                   (Entry.with_uid uid (Entry.payload_of data)) = true)
      by (rewrite with_uid_container; exact Cp).
    destruct (@payload_of_written
                (Entry.with_uid uid (Entry.payload_of data)) data Cd Ce)
      as [P W].
    { intros Same. exists uid. rewrite Same. reflexivity. }
    split; [exact P|].
    rewrite convertToNeotreeEntry_cases, U.
    assert (Cd' : Entry.is_container
                    (Entry.written_through
                       (Entry.with_uid uid (Entry.payload_of data)) data)
                  = true).
    { unfold Entry.written_through.
      destruct data; try discriminate; try exact Ce.
      destruct (lookup "data" members) as [[]|]; try reflexivity;
        exact Ce. }
    rewrite Cd', P, Ce. cbn [negb].
    rewrite with_uid_twice, W. reflexivity.
Qed.

Lemma convert_writes_uid_into_row_data_witness :
  Entry.member "impilo_uid" Scenario.incomplete_sent
  = Some (JString Scenario.uuid7)
  /\ Entry.payload_of Scenario.incomplete_sent = Scenario.incomplete_sent.
Proof.
  destruct (@convert_writes_uid_into_row_data
              Scenario.incomplete Scenario.uuid7
              Scenario.incomplete_sent Scenario.incomplete_sent
              eq_refl eq_refl) as (M & _ & P & _).
  split; [|exact P].
  eapply M. reflexivity.
Defined.

(** ** A start that fails *)

Section FailedStart.
Import Scheduler SchedulerStates.

Lemma step_tasks_imply_polling s e :
  tasks_imply_polling s -> tasks_imply_polling (step s e).
Proof.
  unfold tasks_imply_polling. intros [P R].
  destruct e as [[]| | | | |]; simpl;
    repeat match goal with
           | |- context [if ?b then _ else _] => destruct b eqn:?
           end; simpl; split; intros; auto; try discriminate.
Qed.

Lemma run_tasks_imply_polling : forall events s,
    tasks_imply_polling s -> tasks_imply_polling (run events s).
Proof.
  induction events as [|e events IH]; intros s H; simpl; auto.
  apply IH. apply step_tasks_imply_polling; exact H.
Qed.

Lemma step_wedged s e :
  wedged s -> e <> CallStop ->
  wedged (step s e)
  /\ pollsRunning (step s e) <= pollsRunning s
  /\ retriesRunning (step s e) <= retriesRunning s.
Proof.
  unfold wedged. intros (P & T & R) N.
  destruct e as [db_ok| | | | |]; simpl; rewrite ?P, ?T, ?R; simpl;
    try (repeat split; auto; lia); try congruence.
Qed.

Lemma run_wedged : forall more s,
    wedged s -> ~ In CallStop more ->
    wedged (run more s)
    /\ pollsRunning (run more s) <= pollsRunning s
    /\ retriesRunning (run more s) <= retriesRunning s.
Proof.
  induction more as [|e more IH]; intros s W N; simpl.
  - repeat split; auto; apply W.
  - destruct (@step_wedged s e W) as (W' & P & R).
    { intros ->. apply N. left. reflexivity. }
    destruct (IH (step s e) W') as (W'' & P' & R').
    { intros H. apply N. right. exact H. }
    split; [exact W''|]. split; lia.
Qed.

End FailedStart.

(** X22.  When [start()] fails on its connection check (each call
    taken as one step), [isPolling] stays set with nothing scheduled:
    until [stop()] is called, further calls of [start()] return at
    once whether or not the database is back, no tick starts a poll
    or retry cycle, and only a [stop()] followed by a successful
    [start()] schedules the tasks again. *)
Theorem failed_start_blocks_restart events more :
  Scheduler.isPolling (Scheduler.run events Scheduler.initial) = false ->
  ~ In Scheduler.CallStop more ->
  let before := Scheduler.run events Scheduler.initial in
  let s := Scheduler.run (events ++ [Scheduler.CallStart false] ++ more)
                         Scheduler.initial in
  Scheduler.isPolling s = true
  /\ Scheduler.pollTask s = false
  /\ Scheduler.retryTask s = false
  /\ Scheduler.step s (Scheduler.CallStart true) = s
  /\ Scheduler.starts_cycle s = false
  /\ Scheduler.pollsRunning s <= Scheduler.pollsRunning before
  /\ Scheduler.retriesRunning s <= Scheduler.retriesRunning before
  /\ Scheduler.starts_cycle
       (Scheduler.run [Scheduler.CallStop; Scheduler.CallStart true] s)
     = true.
Proof.
  intros Off N before s.
  assert (Inv : SchedulerStates.tasks_imply_polling before).
  { apply run_tasks_imply_polling. split; discriminate. }
  assert (W : SchedulerStates.wedged
                (Scheduler.step before (Scheduler.CallStart false))).
  { unfold SchedulerStates.wedged. simpl. fold before in Off. rewrite Off. simpl.
    destruct Inv as [P R].
    destruct (Scheduler.pollTask before);
      [specialize (P eq_refl); congruence|].
    destruct (Scheduler.retryTask before);
      [specialize (R eq_refl); congruence|].
    auto. }
  destruct (run_wedged more W N) as ((P & T & R) & Lp & Lr).
  assert (E : s = Scheduler.run more
                    (Scheduler.step before (Scheduler.CallStart false))).
  { unfold s, before, Scheduler.run. rewrite !fold_left_app. reflexivity. }
  rewrite <- E in *.
  assert (Keep : Scheduler.pollsRunning
                   (Scheduler.step before (Scheduler.CallStart false))
                 = Scheduler.pollsRunning before
                 /\ Scheduler.retriesRunning
                      (Scheduler.step before (Scheduler.CallStart false))
                    = Scheduler.retriesRunning before).
  { simpl. fold before in Off. rewrite Off. simpl. auto. }
  destruct Keep as [Kp Kr].
  split; [exact P|]. split; [exact T|]. split; [exact R|].
  split; [simpl; rewrite P; reflexivity|].
  split; [unfold Scheduler.starts_cycle; simpl; rewrite T; simpl;
          apply Nat.ltb_irrefl|].
  split; [lia|]. split; [lia|].
  unfold Scheduler.starts_cycle. simpl. apply Nat.ltb_lt. lia.
Qed.

Lemma failed_start_blocks_restart_witness :
  Scheduler.starts_cycle
    (Scheduler.run [Scheduler.CallStart false; Scheduler.CallStart true;
                    Scheduler.PollTick]
                   Scheduler.initial)
  = false.
Proof.
  refine (proj1 (proj2 (proj2 (proj2 (proj2
            (@failed_start_blocks_restart
               [] [Scheduler.CallStart true; Scheduler.PollTick]
               eq_refl _)))))).
  simpl. intros [H|[H|[]]]; discriminate.
Defined.

(** ** Decryption of tokens *)

Section TokenSplit.
Import Codec Decrypt.

Lemma colon_not_in_alphabet : ~ In ":"%char alphabet.
Proof.
  intros H.
  assert (E : existsb (Ascii.eqb ":"%char) alphabet = true).
  { apply existsb_exists. exists ":"%char.
    split; [exact H | apply Ascii.eqb_refl]. }
  vm_compute in E. discriminate.
Qed.

Lemma b64_digit_no_colon n : b64_digit n <> ":"%char.
Proof.
  intros E. destruct (b64_digit_in n) as [H|H].
  - rewrite E in H. exact (colon_not_in_alphabet H).
  - rewrite E in H. discriminate.
Qed.

(** The output of the base64 encoder holds no colon. *)
Lemma base64_no_colon : forall n bytes,
    List.length bytes <= n -> ~ In ":"%char (base64 bytes).
Proof.
  induction n as [|n IH]; intros bytes L.
  - destruct bytes; [intros [] | simpl in L; lia].
  - destruct bytes as [|a [|b [|c rest]]]; cbn [base64].
    + intros [].
    + intros [H|[H|[H|[H|[]]]]]; try discriminate;
        revert H; apply b64_digit_no_colon.
    + intros [H|[H|[H|[H|[]]]]]; try discriminate;
        revert H; apply b64_digit_no_colon.
    + intros [H|[H|[H|[H|H]]]];
        try (revert H; apply b64_digit_no_colon).
      revert H. apply IH. simpl in L. lia.
Qed.

Lemma base64_colon_free bytes : ~ In ":"%char (base64 bytes).
Proof. apply (@base64_no_colon (List.length bytes)). apply Nat.le_refl. Qed.

Lemma base64_nonempty bytes : bytes <> [] -> base64 bytes <> [].
Proof.
  destruct bytes as [|a [|b [|c rest]]]; cbn [base64]; intros H;
    congruence.
Qed.

Lemma split_without sep : forall s,
    ~ In sep s -> split sep s = [s].
Proof.
  induction s as [|c s IH]; intros N; simpl; [reflexivity|].
  destruct (Ascii.eqb c sep) eqn:E.
  - apply Ascii.eqb_eq in E. exfalso. apply N. left. exact E.
  - rewrite IH; [reflexivity|]. intros H. apply N. right. exact H.
Qed.

Lemma split_at_first sep : forall a b,
    ~ In sep a -> split sep (a ++ sep :: b) = a :: split sep b.
Proof.
  induction a as [|c a IH]; intros b N; simpl.
  - rewrite Ascii.eqb_refl. reflexivity.
  - destruct (Ascii.eqb c sep) eqn:E.
    + apply Ascii.eqb_eq in E. exfalso. apply N. left. exact E.
    + rewrite IH; [reflexivity|]. intros H. apply N. right. exact H.
Qed.

Lemma split_nonempty sep s : split sep s <> [].
Proof.
  destruct s as [|c s]; simpl; [discriminate|].
  destruct (Ascii.eqb c sep); [discriminate|].
  destruct (split sep s); discriminate.
Qed.

End TokenSplit.

(** X23.  [decryptData] inverts [encryptData]: for a non-empty IV and
    a cipher that gives a non-empty ciphertext, when the library
    decoder, decipher and UTF-8 decoding invert the encoder, cipher
    and UTF-8 encoding on the values at hand, decrypting the
    [encryptedValue] of [encryptData(plaintext)] returns the
    plaintext. *)
Theorem decrypt_inverts_encrypt
        (aes : list ascii -> list ascii -> list ascii -> list ascii)
        (from_base64 : list ascii -> list ascii)
        (decipher : list ascii -> list ascii -> list ascii
                    -> result (list ascii))
        (utf8_string : list ascii -> string)
        (key ivBytes : list ascii) (plaintext : string) :
  ivBytes <> [] ->
  aes key ivBytes (JS.chars plaintext) <> [] ->
  from_base64 (Codec.base64 ivBytes) = ivBytes ->
  from_base64 (Codec.base64 (aes key ivBytes (JS.chars plaintext)))
  = aes key ivBytes (JS.chars plaintext) ->
  decipher key ivBytes (aes key ivBytes (JS.chars plaintext))
  = Ok (JS.chars plaintext) ->
  utf8_string (JS.chars plaintext) = plaintext ->
  Decrypt.decryptData from_base64 decipher utf8_string key
    (Codec.encryptedValue (Codec.encryptData aes key ivBytes plaintext))
  = Ok plaintext.
Proof.
  intros Niv Nenc Biv Benc D U.
  unfold Decrypt.decryptData, Codec.encryptData. cbn [Codec.encryptedValue].
  set (encrypted := aes key ivBytes (JS.chars plaintext)) in *.
  unfold JS.chars. rewrite list_ascii_of_string_of_list_ascii.
  rewrite split_at_first by apply base64_colon_free.
  rewrite split_without by apply base64_colon_free.
  cbn [nth_error].
  pose proof (base64_nonempty Niv) as N1.
  pose proof (base64_nonempty Nenc) as N2.
  rewrite Biv, Benc, D.
  unfold Decrypt.missing.
  destruct (Codec.base64 ivBytes) as [|x xs]; [congruence|].
  destruct (Codec.base64 encrypted) as [|y ys]; [congruence|].
  cbn [orb]. rewrite U. reflexivity.
Qed.

Lemma decrypt_inverts_encrypt_witness :
  Decrypt.decryptData CodecScenario.from_base64 CodecScenario.decipher
                      string_of_list_ascii CodecScenario.key
    (Codec.encryptedValue
       (Codec.encryptData CodecScenario.cipher CodecScenario.key
                          CodecScenario.ivBytes CodecScenario.plaintext))
  = Ok CodecScenario.plaintext.
Proof.
  apply (@decrypt_inverts_encrypt
           CodecScenario.cipher CodecScenario.from_base64
           CodecScenario.decipher string_of_list_ascii
           CodecScenario.key CodecScenario.ivBytes CodecScenario.plaintext).
  - discriminate.
  - discriminate.
  - vm_compute. reflexivity.
  - vm_compute. reflexivity.
  - vm_compute. reflexivity.
  - vm_compute. reflexivity.
Defined.

(** X24.  [decryptData] fails with 'Failed to decrypt data: Invalid
    encrypted data format...' on a text without a colon, on a text
    that starts with a colon, and on a text whose second part is
    empty; whatever follows a second colon is ignored; and every
    error it throws carries the prefix 'Failed to decrypt data: '. *)
Theorem decrypt_rejects_malformed_tokens
        (from_base64 : list ascii -> list ascii)
        (decipher : list ascii -> list ascii -> list ascii
                    -> result (list ascii))
        (utf8_string : list ascii -> string)
        (key : list ascii) (text : string) :
  let decrypt := Decrypt.decryptData from_base64 decipher utf8_string key in
  let rejected :=
    Throw ("Failed to decrypt data: " ++ Decrypt.format_error)%string in
  (~ In ":"%char (JS.chars text) -> decrypt text = rejected)
  /\ (forall rest, JS.chars text = ":"%char :: rest -> decrypt text = rejected)
  /\ (forall ivText rest,
         ~ In ":"%char ivText ->
         JS.chars text = ivText ++ [":"%char]
         \/ JS.chars text = ivText ++ ":"%char :: ":"%char :: rest ->
         decrypt text = rejected)
  /\ (forall ivText encryptedText extra,
         ~ In ":"%char ivText ->
         ~ In ":"%char encryptedText ->
         JS.chars text = ivText ++ ":"%char :: encryptedText
                                ++ ":"%char :: extra ->
         decrypt text
         = decrypt (string_of_list_ascii
                      (ivText ++ ":"%char :: encryptedText)))
  /\ (forall message,
         decrypt text = Throw message ->
         exists cause,
           message = ("Failed to decrypt data: " ++ cause)%string).
Proof.
  intros decrypt rejected. unfold decrypt, rejected, Decrypt.decryptData.
  split; [|split; [|split; [|split]]].
  - intros N. rewrite split_without by exact N. reflexivity.
  - intros rest ->. cbn [Decrypt.split]. rewrite Ascii.eqb_refl.
    cbn [nth_error].
    destruct (Decrypt.split ":" rest) as [|part parts] eqn:E;
      [exfalso; exact (split_nonempty _ _ E)|].
    reflexivity.
  - intros ivText rest N [-> | ->]; rewrite split_at_first by exact N;
      cbn [Decrypt.split nth_error]; rewrite ?Ascii.eqb_refl;
      cbn [nth_error Decrypt.missing]; rewrite orb_true_r; reflexivity.
  - intros ivText encryptedText extra N1 N2 ->.
    cbv zeta. unfold JS.chars. rewrite list_ascii_of_string_of_list_ascii.
    rewrite (@split_at_first _ ivText _ N1), (@split_at_first _ ivText _ N1).
    rewrite (@split_at_first _ encryptedText _ N2).
    rewrite (@split_without _ encryptedText N2).
    cbn [nth_error]. reflexivity.
  - intros message.
    destruct (nth_error (Decrypt.split ":" (JS.chars text)) 0) as [ivText|];
      [|intros H; inversion H; eexists; reflexivity].
    destruct (nth_error (Decrypt.split ":" (JS.chars text)) 1)
      as [encryptedText|];
      [|intros H; inversion H; eexists; reflexivity].
    destruct (Decrypt.missing (Some ivText)
              || Decrypt.missing (Some encryptedText));
      [intros H; inversion H; eexists; reflexivity|].
    destruct (decipher key (from_base64 ivText) (from_base64 encryptedText));
      intros H; inversion H; eexists; reflexivity.
Qed.

Lemma decrypt_rejects_malformed_tokens_witness :
  Decrypt.decryptData CodecScenario.from_base64 CodecScenario.decipher
                      string_of_list_ascii CodecScenario.key
                      "c2l4dGVlbiBieXRlIGl2IQ=="
  = Throw ("Failed to decrypt data: " ++ Decrypt.format_error)%string.
Proof.
  apply (proj1 (decrypt_rejects_malformed_tokens
                  CodecScenario.from_base64 CodecScenario.decipher
                  string_of_list_ascii CodecScenario.key
                  "c2l4dGVlbiBieXRlIGl2IQ==")).
  vm_compute. intros H.
  repeat (destruct H as [H|H]; [discriminate|]). exact H.
Defined.

(** ** What a first failure writes *)

Section FirstFailure.
Import LedgerEntries.

Variable env : Env.

Lemma upsert_absent proposed on_conflict session_id db :
  (forall f, f_session_id (on_conflict f) = f_session_id f) ->
  ~ in_ledger session_id db ->
  f_session_id proposed <> session_id ->
  ~ in_ledger session_id (upsert proposed on_conflict db).
Proof.
  intros K A N (row & I & E). apply A.
  unfold upsert in I; simpl in I.
  destruct (has_session (f_session_id proposed) (cdc_failed_records db)).
  - apply in_map_iff in I. destruct I as (f & <- & If).
    exists f. split; [exact If|].
    destruct (f_session_id f =? f_session_id proposed)%Z; [|exact E].
    rewrite K in E. exact E.
  - apply in_app_or in I. destruct I as [I|[<-|[]]].
    + exists row. auto.
    + contradiction.
Qed.

Lemma recordFailure_absent session_id record message db :
  ~ in_ledger session_id db ->
  id record <> session_id ->
  ~ in_ledger session_id (recordFailure env record message db).
Proof.
  intros A N. unfold recordFailure.
  destruct (rejects env (InsertFailedRecord record)); [exact A|].
  apply upsert_absent; auto.
Qed.

Lemma recordFailure_new record message db :
  rejects env (InsertFailedRecord record) = false ->
  ~ in_ledger (id record) db ->
  exists e,
    In e (cdc_failed_records (recordFailure env record message db))
    /\ first_failure_entry record message (now_at env record) e.
Proof.
  intros R A. unfold recordFailure. rewrite R.
  unfold insert_failed_record, upsert. simpl.
  destruct (has_session (id record) (cdc_failed_records db)) eqn:H.
  - exfalso. apply A. apply has_session_In in H. exact H.
  - eexists. split; [apply in_or_app; right; left; reflexivity|].
    unfold first_failure_entry. simpl. repeat split; reflexivity.
Qed.

Lemma process_records_first_failure r message : forall records db sc fc,
    NoDup (map id records) ->
    In r records ->
    attempt env r = (Some message, snd (attempt env r)) ->
    rejects env (InsertFailedRecord (snd (attempt env r))) = false ->
    ~ in_ledger (id r) db ->
    exists e,
      In e (cdc_failed_records
              (fst (fst (process_records env records db sc fc))))
      /\ first_failure_entry (snd (attempt env r)) message
                             (now_at env (snd (attempt env r))) e.
Proof.
  induction records as [|x records IH]; intros db sc fc U I A R N.
  - destruct I.
  - inversion U as [|? ? Nx U']; subst.
    destruct I as [->|I].
    + cbn [process_records]. rewrite A.
      destruct (@recordFailure_new (snd (attempt env r)) message db R)
        as (e & Ie & Fe).
      { rewrite attempt_id. exact N. }
      exists e. split; [|exact Fe].
      apply process_records_other; [|exact Ie].
      intros r2 I2 _ E. apply Nx.
      destruct Fe as (S & _). rewrite S, attempt_id in E.
      rewrite <- E. apply in_map; exact I2.
    + assert (D : id x <> id r).
      { intros E. apply Nx. rewrite E. apply in_map; exact I. }
      cbn [process_records].
      pose proof (attempt_id env x) as Ex.
      destruct (attempt env x) as [[mx|] x']; cbn [snd] in Ex.
      * apply IH; auto.
        apply recordFailure_absent; [exact N|]. rewrite Ex. exact D.
      * apply IH; auto.
Qed.

End FirstFailure.

(** X25.  In a poll cycle over rows with distinct ids, a fetched row
    that fails, has no ledger entry yet and whose ledger write is
    accepted leaves one with attempt count 1, the error message, the
    session's [time] (not its [ingested_at]) in the [ingested_at]
    column, the JSON text of the row's data as it is after
    [convertToNeotreeEntry] in the [data] column, and NULL in the
    [impilo_id] column. *)
Theorem first_failure_entry_written cfg env db rows r message :
  fetch env db = Ok rows ->
  NoDup (map id rows) ->
  In r rows ->
  fst (attempt env r) = Some message ->
  rejects env (InsertFailedRecord (snd (attempt env r))) = false ->
  ~ in_ledger (id r) db ->
  exists e,
    In e (cdc_failed_records (pollForNewSessions cfg env db))
    /\ f_session_id e = id r
    /\ f_attempt_count e = 1%Z
    /\ f_last_error e = Some message
    /\ f_ingested_at e = time r
    /\ f_data e
       = stringify (snd (convertToNeotreeEntry (data r) (impilo_uid r)))
    /\ f_impilo_uid e = JS.or_null (impilo_uid r)
    /\ f_impilo_id e = None
    /\ f_synced e = false
    /\ f_created_at e = now_at env (snd (attempt env r))
    /\ f_last_attempt_at e = Some (now_at env (snd (attempt env r))).
Proof.
  intros F U I A R N.
  assert (Nn : rows <> []) by (intros ->; destruct I).
  destruct (poll_with_rows cfg env db F Nn) as (init & final & _ & P).
  assert (A' : attempt env r = (Some message, snd (attempt env r))).
  { destruct (attempt env r) as [m r']; simpl in *. subst m. reflexivity. }
  destruct (@process_records_first_failure env r message rows db 0 0
              U I A' R N) as (e & Ie & Fe).
  assert (Source : impilo_id r = None).
  { destruct (fetch_spec env db F) as (selected & w & rest & _ & M & _).
    rewrite M in I. apply in_map_iff in I.
    destruct I as (s & <- & _). reflexivity. }
  assert (Seen : time (snd (attempt env r)) = time r
                 /\ impilo_uid (snd (attempt env r)) = impilo_uid r
                 /\ impilo_id (snd (attempt env r)) = impilo_id r
                 /\ data (snd (attempt env r))
                    = snd (convertToNeotreeEntry (data r) (impilo_uid r))).
  { unfold attempt.
    destruct (convertToNeotreeEntry (data r) (impilo_uid r))
      as [[entry|m] d]; simpl; auto. }
  destruct Seen as (St & Su & Si & Sd).
  destruct Fe as (E1 & E2 & E3 & E4 & E5 & E6 & E7 & E8 & E9 & E10).
  exists e. rewrite P, updateWatermark_ledger.
  split; [exact Ie|].
  rewrite attempt_id in E1. rewrite St in E2. rewrite Su in E7.
  rewrite Si, Source in E8. rewrite Sd in E9.
  repeat split; assumption.
Qed.

Lemma first_failure_entry_written_witness :
  exists e,
    In e (cdc_failed_records
            (pollForNewSessions Scenario.cfg Scenario.healthy Scenario.fresh))
    /\ f_session_id e = 7%Z
    /\ f_ingested_at e = 190000%Z
    /\ f_impilo_id e = None.
Proof.
  destruct (@first_failure_entry_written
              Scenario.cfg Scenario.healthy Scenario.fresh
              [Scenario.record1; Scenario.record7]
              Scenario.record7
              "Missing script data for entry baby-7"
              eq_refl)
    as (e & I & S & _ & _ & T & _ & _ & N & _).
  - vm_compute. constructor; [simpl; intros [H|[]]; discriminate|].
    constructor; [intros []|constructor].
  - right. left. reflexivity.
  - reflexivity.
  - reflexivity.
  - intros (row & [] & _).
  - exists e. auto.
Defined.

(** ** Further instances *)

Lemma retry_candidates_oldest_first_witness :
  List.length (get_failed_sessions_for_retry Scenario.recorded 360001000 50)
  <= 50
  /\ StronglySorted (fun a b => (f_created_at a <= f_created_at b)%Z)
                    (get_failed_sessions_for_retry Scenario.recorded
                                                   360001000 50).
Proof.
  split.
  - exact (proj1 (retry_candidates_oldest_first Scenario.recorded
                                                360001000 50)).
  - exact (proj1 (proj2 (retry_candidates_oldest_first Scenario.recorded
                                                       360001000 50))).
Defined.

Lemma convert_rejects_non_objects_witness :
  fst (convertToNeotreeEntry (JString "{}") (Some Scenario.uuid7))
  = Throw "Invalid session data".
Proof.
  apply (proj2 (proj1 (convert_rejects_non_objects
                         (JString "{}") (Some Scenario.uuid7)))).
  reflexivity.
Defined.
